(** * CCFrank4dblp: the rank-resolution engine

    A shallow embedding of the three files that hold the engine,
    [js/core/CCFData.js] (the rank table), [js/services/CacheService.js]
    (the response cache over [localStorage]) and
    [js/services/APIService.js] (candidate resolution), and of the
    string and label functions around it in [js/core/CCFManager.js],
    [js/core/BaseSiteHandler.js] and [js/core/DBLPSiteHandler.js],
    followed by the properties of the specification that concern the
    engine and by further properties of the code.

    JavaScript values are modelled by the types the code uses them at:
    strings as [string], integers as [Z], [null]/[undefined] results as
    [None], thrown exceptions as an explicit [Throw] completion. *)

From Stdlib Require Import ZArith List Bool Ascii String Lia FinFun Permutation Sorted.
Import ListNotations.
Local Open Scope string_scope.
Local Open Scope Z_scope.

(** ** The JavaScript built-ins the engine calls *)
Module JS.

(** Exceptions, as far as the engine tells them apart. *)
Inductive Exn : Type :=
| DOMException (name : string)
| TypeError.

(** The completion of a call: a normal return or a thrown exception. *)
Inductive Completion (A : Type) : Type :=
| Normal (a : A)
| Throw (e : Exn).
Arguments Normal {A} a.
Arguments Throw {A} e.

(** [a || b] on possibly absent objects (objects are truthy). *)
Definition orElse {A : Type} (a b : option A) : option A :=
  match a with
  | Some _ => a
  | None => b
  end.

Definition isDigit (c : ascii) : bool :=
  let n := nat_of_ascii c in (48 <=? n)%nat && (n <=? 57)%nat.

Definition isLower (c : ascii) : bool :=
  let n := nat_of_ascii c in (97 <=? n)%nat && (n <=? 122)%nat.

Definition isUpper (c : ascii) : bool :=
  let n := nat_of_ascii c in (65 <=? n)%nat && (n <=? 90)%nat.

Definition upperChar (c : ascii) : ascii :=
  if isLower c then ascii_of_nat (nat_of_ascii c - 32) else c.

Definition lowerChar (c : ascii) : ascii :=
  if isUpper c then ascii_of_nat (nat_of_ascii c + 32) else c.

Fixpoint mapString (f : ascii -> ascii) (s : string) : string :=
  match s with
  | EmptyString => EmptyString
  | String c s' => String (f c) (mapString f s')
  end.

(** [String.prototype.toUpperCase] and [toLowerCase], on the ASCII
    letters (venue codes and paths are ASCII). *)
Definition toUpperCase (s : string) : string := mapString upperChar s.
Definition toLowerCase (s : string) : string := mapString lowerChar s.

(** [s.startsWith(p)]. *)
Definition startsWith (s p : string) : bool := String.prefix p s.

Definition len (s : string) : Z := Z.of_nat (String.length s).

Fixpoint indexOf_from (pat s : string) (i : Z) : Z :=
  if String.prefix pat s then i
  else match s with
       | EmptyString => -1
       | String _ s' => indexOf_from pat s' (i + 1)
       end.

(** [s.indexOf(pat)]: the first position where [pat] occurs, or -1. *)
Definition indexOf (s pat : string) : Z := indexOf_from pat s 0.

Fixpoint lastIndexOf_from (pat s : string) (i acc : Z) : Z :=
  let acc' := if String.prefix pat s then i else acc in
  match s with
  | EmptyString => acc'
  | String _ s' => lastIndexOf_from pat s' (i + 1) acc'
  end.

(** [s.lastIndexOf(pat)]: the last position where [pat] occurs, or -1. *)
Definition lastIndexOf (s pat : string) : Z := lastIndexOf_from pat s 0 (-1).

Definition clamp (n : Z) (s : string) : Z := Z.max 0 (Z.min n (len s)).

(** [s.substring(a, b)]: both indices are clamped to [0, s.length] and
    swapped when [a > b]. *)
Definition substring (s : string) (a b : Z) : string :=
  let a' := clamp a s in
  let b' := clamp b s in
  let lo := Z.min a' b' in
  let hi := Z.max a' b' in
  String.substring (Z.to_nat lo) (Z.to_nat (hi - lo)) s.

Definition isBlank (c : ascii) : bool :=
  let n := nat_of_ascii c in
  (n =? 32)%nat || ((9 <=? n)%nat && (n <=? 13)%nat).

Fixpoint trimStart (s : string) : string :=
  match s with
  | EmptyString => EmptyString
  | String c s' => if isBlank c then trimStart s' else s
  end.

Fixpoint allBlank (s : string) : bool :=
  match s with
  | EmptyString => true
  | String c s' => isBlank c && allBlank s'
  end.

(** Reads the decimal digits at the head of [s] into the accumulator and
    accepts when only blanks follow them. *)
Fixpoint readDigits (s : string) (acc : Z) (seen : bool) : option Z :=
  match s with
  | EmptyString => if seen then Some acc else None
  | String c s' =>
      if isDigit c
      then readDigits s' (10 * acc + (Z.of_nat (nat_of_ascii c) - 48)) true
      else if seen && allBlank s then Some acc else None
  end.

(** [Number(s)] for a string [s], with [None] for [NaN].  The model
    covers the integer literals: blanks around an optionally signed run
    of decimal digits, and the blank string (which is 0).  A year or an
    issue number written with a fraction, an exponent or a radix prefix
    is outside the model and reads as [None] here. *)
Definition Number (s : string) : option Z :=
  match trimStart s with
  | EmptyString => Some 0
  | String c s' =>
      if (c =? "-")%char then option_map Z.opp (readDigits s' 0 false)
      else if (c =? "+")%char then readDigits s' 0 false
      else readDigits (String c s') 0 false
  end.

(** [isNaN(s)] for a string [s]. *)
Definition isNaN (s : string) : bool :=
  match Number s with
  | None => true
  | Some _ => false
  end.

(** A [Map] with string keys: [entries] in insertion order, which is the
    order [for (const [key, value] of map)] visits them in. *)
Definition Map (A : Type) : Type := list (string * A).

Fixpoint Map_get {A : Type} (k : string) (m : Map A) : option A :=
  match m with
  | [] => None
  | (k', v) :: m' => if (k' =? k)%string then Some v else Map_get k m'
  end.

(** [map.set(k, v)]: an existing key keeps its place, a new key goes to
    the end. *)
Fixpoint Map_set {A : Type} (k : string) (v : A) (m : Map A) : Map A :=
  match m with
  | [] => [(k, v)]
  | (k', v') :: m' =>
      if (k' =? k)%string then (k, v) :: m' else (k', v') :: Map_set k v m'
  end.

(** A scalar of a parsed JSON document, as far as the engine reads
    one: a number (the counts and years of the responses are integers
    when they are numbers) or a string (dblp sends its counts and years
    as strings).  [JSON.parse] does not convert between the two, and
    neither does the engine. *)
Inductive Json : Type :=
| JNumber (n : Z)
| JString (s : string).

(** [Number(v)], also the conversion the operators [-] and [<] apply;
    [None] is [NaN]. *)
Definition toNumber (v : Json) : option Z :=
  match v with
  | JNumber n => Some n
  | JString s => Number s
  end.

(** [a === b]: no conversion, a number never equals a string. *)
Definition strictEq (a b : Json) : bool :=
  match a, b with
  | JNumber m, JNumber n => m =? n
  | JString s, JString t => (s =? t)%string
  | _, _ => false
  end.

(** [v === n] for a number [n] that may be [NaN]. *)
Definition strictEqNumber (v : Json) (n : option Z) : bool :=
  match v, n with
  | JNumber m, Some k => m =? k
  | _, _ => false
  end.

(** [s.includes(p)]. *)
Definition includes (s p : string) : bool := negb (indexOf s p =? -1).

(** [a || b] on strings (the empty string is falsy). *)
Definition orString (a b : string) : string :=
  if (a =? "")%string then b else a.

End JS.

(** ** js/core/CCFData.js: the rank table *)
Module CCFData.
Import JS.

(** The object [addEntry] builds (its two getters are computed from
    [rank] and are left out). *)
Record Entry : Type := mkEntry {
  rank : string;
  abbr : string;
  fullName : string;
  url : string;
  type : string
}.

Record CCFData : Type := mkCCFData {
  conferences : Map Entry;
  journals : Map Entry
}.

Definition empty : CCFData := {| conferences := []; journals := [] |}.

Definition addEntry (rank abbr fullName url type : string) (d : CCFData)
  : CCFData :=
  let entry :=
    {| rank := rank; abbr := toUpperCase abbr; fullName := fullName;
       url := url; type := type |} in
  if (type =? "conference")%string
  then {| conferences :=
            Map_set url entry (Map_set (toUpperCase abbr) entry (conferences d));
          journals := journals d |}
  else {| conferences := conferences d;
          journals :=
            Map_set url entry (Map_set (toUpperCase abbr) entry (journals d)) |}.

(** The loop of [getRankByAbbr] over [this.conferences]. *)
Fixpoint firstPrefixed (u : string) (m : Map Entry) : option Entry :=
  match m with
  | [] => None
  | (key, value) :: m' =>
      if startsWith key u && negb (key =? u)%string
      then Some value
      else firstPrefixed u m'
  end.

Definition getRankByAbbr (abbr : string) (d : CCFData) : option Entry :=
  if (abbr =? "")%string then None
  else
    let u := toUpperCase abbr in
    match orElse (Map_get u (conferences d)) (Map_get u (journals d)) with
    | Some entry => Some entry
    | None => firstPrefixed u (conferences d)
    end.

(** The length of the run of digits at the head of [s], and what
    follows it. *)
Fixpoint spanDigits (s : string) : nat * string :=
  match s with
  | EmptyString => (0%nat, EmptyString)
  | String c s' =>
      if isDigit c
      then let (n, r) := spanDigits s' in (S n, r)
      else (0%nat, s)
  end.

(** [s] as a whole matches [[0-9]{1,4}(-[0-9]{1,4})?]. *)
Definition yearPattern (s : string) : bool :=
  let (n1, r) := spanDigits s in
  (1 <=? n1)%nat && (n1 <=? 4)%nat &&
  match r with
  | EmptyString => true
  | String c r' =>
      (c =? "-")%char &&
      let (n2, r2) := spanDigits r' in
      (1 <=? n2)%nat && (n2 <=? 4)%nat && (r2 =? "")%string
  end.

(** [url.replace(/[0-9]{1,4}(-[0-9]{1,4})?$/, '')]: the pattern is
    anchored at the end, so a match is a whole suffix; the regular
    expression engine takes the leftmost position where one starts and
    the replacement keeps what precedes it. *)
Fixpoint _cleanUrl (url : string) : string :=
  if yearPattern url then EmptyString
  else match url with
       | EmptyString => EmptyString
       | String c url' => String c (_cleanUrl url')
       end.

Definition getRankByUrl (url : string) (d : CCFData) : option Entry :=
  if (url =? "")%string then None
  else
    let cleanUrl := _cleanUrl url in
    orElse (Map_get cleanUrl (conferences d)) (Map_get cleanUrl (journals d)).

Definition _initData (d : CCFData) : CCFData :=
  addEntry "A" "TOS" "ACM Transactions on Storage"
    "/journals/tos/tos" "journal"
  (addEntry "A" "TOCS" "ACM Transactions on Computer Systems"
    "/journals/tocs/tocs" "journal"
  (addEntry "A" "FAST" "Conference on File and Storage Technologies"
    "/conf/fast/fast" "conference"
  (addEntry "A" "PPoPP"
    "ACM SIGPLAN Symposium on Principles & Practice of Parallel Programming"
    "/conf/ppopp/ppopp" "conference" d))).

(** The singleton the module exports: [new CCFData()]. *)
Definition ccfData : CCFData := _initData empty.

(** The getters of the object [addEntry] builds. *)
Definition rankClass (e : Entry) : string := "ccf-" ++ toLowerCase (rank e).

Definition displayText (e : Entry) : string :=
  if (rank e =? "E")%string then "Expanded"
  else if (rank e =? "P")%string then "Preprint"
  else if (rank e =? "none")%string then "CCF None"
  else "CCF " ++ rank e.

(** The letters [for (const r of 'ABCEP')] visits. *)
Definition rankLetters : list string := ["A"; "B"; "C"; "E"; "P"].

Fixpoint firstLetter (rank : string) (letters : list string) : option string :=
  match letters with
  | [] => None
  | r :: letters' =>
      if startsWith rank r then Some r else firstLetter rank letters'
  end.

Definition getRankClass (rank : string) : string :=
  if (rank =? "")%string then "ccf-none"
  else match firstLetter rank rankLetters with
       | Some r => "ccf-" ++ toLowerCase r
       | None => "ccf-none"
       end.

End CCFData.

(** ** js/services/CacheService.js: the response cache *)
Module CacheService.
Import JS.

(** The fields the constructor sets. *)
Definition expiresAfter : Z := 86400000.
Definition keyPrefix : string := "CCFrank4dblp_".
Definition maxCacheSize : nat := 1000.

Definition _getPrefixedKey (key : string) : string := keyPrefix ++ key.

Section Cache.

(** The values the cache stores; [JSON.parse] is taken to read back what
    [JSON.stringify] wrote. *)
Variable V : Type.

(** The object [setItem] serialises. *)
Record Item : Type := mkItem {
  value : V;
  expires : Z;
  timestamp : Z
}.

(** A string held by [localStorage], by what the cache's readers make
    of it. *)
Inductive Stored : Type :=
| SEmpty                (* the empty string: [if (itemStr)] fails *)
| SCorrupt              (* [JSON.parse] throws *)
| SOther                (* parses to [null] or to a value without [expires] *)
| SItem (item : Item).  (* parses to an object with a numeric [expires] *)

(** [localStorage]: its entries, one per key, in the order
    [localStorage.key(i)] numbers them, so that removing an entry
    renumbers those behind it; and the number of [localStorage.setItem]
    calls made so far (a counter the model adds, to speak of retries). *)
Record Storage : Type := mkStorage {
  entries : list (string * Stored);
  writes : nat
}.

(** The exception, if any, with which [localStorage.setItem(key, str)]
    refuses a write on the given entries (the quota is the browser's). *)
Variable refuses : list (string * Stored) -> string -> Stored -> option Exn.

Definition localStorage_length (ls : Storage) : nat := List.length (entries ls).

Fixpoint lookup (key : string) (l : list (string * Stored)) : option Stored :=
  match l with
  | [] => None
  | (k, s) :: l' => if (k =? key)%string then Some s else lookup key l'
  end.

Definition localStorage_getItem (key : string) (ls : Storage) : option Stored :=
  lookup key (entries ls).

Definition remove (key : string) (l : list (string * Stored))
  : list (string * Stored) :=
  filter (fun kv => negb (fst kv =? key)%string) l.

Definition localStorage_removeItem (key : string) (ls : Storage) : Storage :=
  {| entries := remove key (entries ls); writes := writes ls |}.

Fixpoint upsert (key : string) (s : Stored) (l : list (string * Stored))
  : list (string * Stored) :=
  match l with
  | [] => [(key, s)]
  | (k, s') :: l' =>
      if (k =? key)%string then (key, s) :: l' else (k, s') :: upsert key s l'
  end.

Definition localStorage_setItem (key : string) (s : Stored) (ls : Storage)
  : Completion unit * Storage :=
  match refuses (entries ls) key s with
  | Some e => (Throw e, {| entries := entries ls; writes := S (writes ls) |})
  | None =>
      (Normal tt,
       {| entries := upsert key s (entries ls); writes := S (writes ls) |})
  end.

(** [item && item.expires]: the expiry of a stored item, when it has a
    truthy one. *)
Definition expiry (s : Stored) : option Z :=
  match s with
  | SItem item => if expires item =? 0 then None else Some (expires item)
  | _ => None
  end.

(** The first loop of [_cleanup]: [i] runs over [localStorage.key(i)]
    while [i < localStorage.length], and an expired or corrupt entry is
    removed inside the loop, which renumbers the entries behind it.
    [fuel] bounds the iterations. *)
Fixpoint _cleanup_scan (fuel i : nat) (now : Z) (ls : Storage)
  (keys : list (string * Z)) : Storage * list (string * Z) :=
  match fuel with
  | O => (ls, keys)
  | S fuel' =>
      match nth_error (entries ls) i with
      | None => (ls, keys)
      | Some (key, s) =>
          if startsWith key keyPrefix then
            match s with
            | SEmpty => _cleanup_scan fuel' (S i) now ls keys
            | SCorrupt =>
                _cleanup_scan fuel' (S i) now (localStorage_removeItem key ls) keys
            | _ =>
                match expiry s with
                | None => _cleanup_scan fuel' (S i) now ls keys
                | Some e =>
                    if now >? e
                    then _cleanup_scan fuel' (S i) now
                           (localStorage_removeItem key ls) keys
                    else _cleanup_scan fuel' (S i) now ls (keys ++ [(key, e)])
                end
            end
          else _cleanup_scan fuel' (S i) now ls keys
      end
  end.

(** [keys.sort((a, b) => a.expires - b.expires)]: a stable sort by
    ascending expiry.  The keys are inserted from the last to the first,
    each before the first key that expires no earlier, so that keys of
    equal expiry keep their order. *)
Fixpoint insertByExpires (x : string * Z) (l : list (string * Z))
  : list (string * Z) :=
  match l with
  | [] => [x]
  | y :: l' => if snd x <=? snd y then x :: l else y :: insertByExpires x l'
  end.

Definition sortByExpires (l : list (string * Z)) : list (string * Z) :=
  fold_right insertByExpires [] l.

Definition removeAll (keys : list string) (ls : Storage) : Storage :=
  fold_left (fun acc key => localStorage_removeItem key acc) keys ls.

Definition _cleanup (now : Z) (ls : Storage) : Storage :=
  let (ls1, keys) := _cleanup_scan (localStorage_length ls) 0 now ls [] in
  if (maxCacheSize <? List.length keys)%nat
  then
    let toDelete :=
      firstn (List.length keys - maxCacheSize) (sortByExpires keys) in
    removeAll (map fst toDelete) ls1
  else ls1.

Definition _isQuotaExceededError (err : Exn) : bool :=
  match err with
  | DOMException name =>
      (name =? "QuotaExceededError")%string ||
      (name =? "NS_ERROR_DOM_QUOTA_REACHED")%string
  | _ => false
  end.

Definition clearAll (ls : Storage) : Storage :=
  let keysToRemove :=
    filter (fun key => startsWith key keyPrefix) (map fst (entries ls)) in
  removeAll keysToRemove ls.

Definition newItem (value : V) (now : Z) : Stored :=
  SItem {| value := value; expires := now + expiresAfter; timestamp := now |}.

(** [setItem(key, value)].  [t_cleanup], [t_write] and [t_retry] are
    what [Date.now()] returns in [_cleanup], in the [try] block and in
    the retry. *)
Definition setItem (t_cleanup t_write t_retry : Z) (key : string) (value : V)
  (ls : Storage) : Completion bool * Storage :=
  let ls1 := _cleanup t_cleanup ls in
  let prefixedKey := _getPrefixedKey key in
  match localStorage_setItem prefixedKey (newItem value t_write) ls1 with
  | (Normal _, ls2) => (Normal true, ls2)
  | (Throw err, ls2) =>
      if _isQuotaExceededError err then
        let ls3 := clearAll ls2 in
        match localStorage_setItem prefixedKey (newItem value t_retry) ls3 with
        | (Normal _, ls4) => (Normal true, ls4)
        | (Throw retryErr, ls4) => (Normal false, ls4)
        end
      else (Normal false, ls2)
  end.

(** [getItem(key)] read at time [now]: the value or [null], and the
    storage it leaves. *)
Definition getItem (now : Z) (key : string) (ls : Storage)
  : option V * Storage :=
  let prefixedKey := _getPrefixedKey key in
  match localStorage_getItem prefixedKey ls with
  | None => (None, ls)
  | Some SEmpty => (None, ls)
  | Some SCorrupt => (None, localStorage_removeItem prefixedKey ls)
  | Some SOther => (None, ls)
  | Some (SItem item) =>
      if expires item =? 0 then (None, ls)
      else if now >? expires item
           then (None, localStorage_removeItem prefixedKey ls)
           else (Some (value item), ls)
  end.

Definition removeItem (key : string) (ls : Storage) : bool * Storage :=
  (true, localStorage_removeItem (_getPrefixedKey key) ls).

(** The test of [clearExpired] on one entry: a corrupt entry, or an item
    whose expiry has passed. *)
Definition isExpired (now : Z) (s : Stored) : bool :=
  match s with
  | SCorrupt => true
  | _ => match expiry s with
         | Some e => now >? e
         | None => false
         end
  end.

Definition clearExpired (now : Z) (ls : Storage) : Storage :=
  let keysToRemove :=
    map fst
      (filter (fun kv => startsWith (fst kv) keyPrefix && isExpired now (snd kv))
         (entries ls)) in
  removeAll keysToRemove ls.

(** The number of entries the cache owns. *)
Definition cacheEntries (ls : Storage) : list (string * Stored) :=
  filter (fun kv => startsWith (fst kv) keyPrefix) (entries ls).

(** Successive [setItem] calls, each with its clock reading. *)
Fixpoint setItems (calls : list (Z * string * V)) (ls : Storage) : Storage :=
  match calls with
  | [] => ls
  | (now, key, value) :: calls' =>
      setItems calls' (snd (setItem now now now key value ls))
  end.

Definition hasItem (now : Z) (key : string) (ls : Storage) : bool * Storage :=
  match getItem now key ls with
  | (Some _, ls') => (true, ls')
  | (None, ls') => (false, ls')
  end.

(** The length of a stored string (that of [SEmpty] is not asked
    for). *)
Variable stringLength : Stored -> nat.

(** [_getCacheSize()]: the lengths of the cache's keys and of their
    non-empty values. *)
Definition _getCacheSize (ls : Storage) : nat :=
  fold_left
    (fun size kv =>
       if startsWith (fst kv) keyPrefix
       then match snd kv with
            | SEmpty => size + String.length (fst kv)
            | v => size + String.length (fst kv) + stringLength v
            end
       else size)%nat
    (entries ls) 0%nat.

(** What [getStats()] returns. *)
Record Stats : Type := mkStats {
  total : nat;
  valid : nat;
  expired : nat;
  size : nat
}.

Definition countStats (now : Z) (acc : nat * nat * nat) (kv : string * Stored)
  : nat * nat * nat :=
  let '(totalItems, validItems, expiredItems) := acc in
  if startsWith (fst kv) keyPrefix then
    match expiry (snd kv) with
    | Some e =>
        if now >? e
        then (S totalItems, validItems, S expiredItems)
        else (S totalItems, S validItems, expiredItems)
    | None => (S totalItems, validItems, expiredItems)
    end
  else acc.

Definition getStats (now : Z) (ls : Storage) : Stats :=
  let '(totalItems, validItems, expiredItems) :=
    fold_left (countStats now) (entries ls) (0, 0, 0)%nat in
  {| total := totalItems; valid := validItems; expired := expiredItems;
     size := _getCacheSize ls |}.

End Cache.

Arguments SEmpty {V}.
Arguments SCorrupt {V}.
Arguments SOther {V}.
Arguments SItem {V} item.
Arguments mkItem {V} value expires timestamp.
Arguments value {V} i.
Arguments expires {V} i.
Arguments timestamp {V} i.
Arguments mkStorage {V} entries writes.
Arguments entries {V} s.
Arguments writes {V} s.

End CacheService.

(** ** js/services/APIService.js: candidate resolution *)
Module APIService.
Import JS.

(** The search response [response.result.hits], parsed, with the fields
    the engine reads.  [year], ["@total"] and ["@sent"] are kept as
    [JSON.parse] gives them: numbers in the data model of the
    specification, strings in the responses of dblp. *)
Record Author : Type := mkAuthor { text : string }.

(** [info.authors.author] is an array of authors or a single one. *)
Inductive AuthorField : Type :=
| AuthorArray (l : list Author)
| AuthorObject (a : Author).

Record Info : Type := mkInfo {
  type : string;
  authors : AuthorField;
  year : Json;
  url : string;
  number : option string;
  venue : option string
}.

Record Hit : Type := mkHit { info : option Info }.

(** [resp]: the fields ["@total"], ["@sent"] and [hit]. *)
Record Hits : Type := mkHits {
  total : Json;
  sent : Json;
  hit : list Hit
}.

(** The number of rounds of a loop [for (i = 0; i < resp["@sent"]; i++)]:
    [<] converts ["@sent"] to a number, and no round runs when that is
    [NaN]. *)
Definition sentCount (resp : Hits) : nat :=
  match toNumber (sent resp) with
  | Some n => Z.to_nat n
  | None => O
  end.

(** What reading a property of [PACM_PL_CONFERENCE_MAP] yields: one of
    its own strings, or a member the object literal inherits from
    [Object.prototype] (a function or object, truthy and not a string). *)
Inductive Property : Type :=
| OwnString (s : string)
| Inherited (name : string).

Definition objectPrototypeMembers : list string :=
  ["constructor"; "__proto__"; "hasOwnProperty"; "isPrototypeOf";
   "propertyIsEnumerable"; "toLocaleString"; "toString"; "valueOf";
   "__defineGetter__"; "__defineSetter__"; "__lookupGetter__";
   "__lookupSetter__"].

Definition PACM_PL_CONFERENCE_MAP : list (string * string) :=
  [("oopsla", "/conf/oopsla/oopsla");
   ("oopsla1", "/conf/oopsla/oopsla");
   ("oopsla2", "/conf/oopsla/oopsla");
   ("popl", "/conf/popl/popl");
   ("pldi", "/conf/pldi/pldi");
   ("icfp", "/conf/icfp/icfp")].

Fixpoint assoc (k : string) (l : list (string * string)) : option string :=
  match l with
  | [] => None
  | (k', v) :: l' => if (k' =? k)%string then Some v else assoc k l'
  end.

(** [PACM_PL_CONFERENCE_MAP[number]]. *)
Definition PACM_PL_CONFERENCE_MAP_get (number : string) : option Property :=
  match assoc number PACM_PL_CONFERENCE_MAP with
  | Some s => Some (OwnString s)
  | None =>
      if existsb (fun m => (m =? number)%string) objectPrototypeMembers
      then Some (Inherited number)
      else None
  end.

(** [resp.hit[i]?.info?.number], when truthy. *)
Definition hitNumber (resp : Hits) (i : nat) : option string :=
  match nth_error (hit resp) i with
  | Some {| info := Some inf |} =>
      match number inf with
      | Some s => if (s =? "")%string then None else Some s
      | None => None
      end
  | _ => None
  end.

(** The loop of [processPacmPlJournal]: [n] iterations are left and [i]
    is the index. *)
Fixpoint firstNumber (n i : nat) (resp : Hits) : string :=
  match n with
  | O => ""
  | S n' =>
      match hitNumber resp i with
      | Some s => toLowerCase s
      | None => firstNumber n' (S i) resp
      end
  end.

Definition processPacmPlJournal (resp : Hits) : Property :=
  let number := firstNumber (sentCount resp) 0 resp in
  match PACM_PL_CONFERENCE_MAP_get number with
  | Some p => p
  | None => OwnString "/journals/pacmpl/pacmpl"
  end.

(** The venue path of a record URL:
    [url.substring(url.indexOf("/rec/") + 4, url.lastIndexOf("/"))]. *)
Definition venuePath (url : string) : string :=
  substring url (indexOf url "/rec/" + 4) (lastIndexOf url "/").

(** [author_1st]: reading [.text] of the first element of an empty array
    throws. *)
Definition firstAuthor (a : AuthorField) : Completion string :=
  match a with
  | AuthorArray [] => Throw TypeError
  | AuthorArray (x :: _) => Normal (text x)
  | AuthorObject x => Normal (text x)
  end.

(** [Math.abs(Number(year) - year_fuzzy) <= 1]: the subtraction
    converts [year_fuzzy] to a number, and the test is false when either
    side is [NaN]. *)
Definition withinOne (target : option Z) (year_fuzzy : Json) : bool :=
  match target, toNumber year_fuzzy with
  | Some t, Some y => Z.abs (t - y) <=? 1
  | _, _ => false
  end.

(** [year_fuzzy === Number(year) + k]: strict, so never true of a
    [year_fuzzy] that is a string. *)
Definition isTarget (target : option Z) (k : Z) (year_fuzzy : Json) : bool :=
  strictEqNumber year_fuzzy (option_map (fun t => t + k) target).

(** The loop of [findBestMatch]: [n] iterations are left, [h] is the
    index, [dblp_url] and [year_last_check] are the loop's variables. *)
Fixpoint findBestMatch_loop (n h : nat) (resp : Hits) (target : option Z)
  (dblp_url : string) (year_last_check : Json) : Completion string :=
  match n with
  | O => Normal dblp_url
  | S n' =>
      match nth_error (hit resp) h with
      | Some {| info := Some inf |} =>
          if (type inf =? "Informal Publications")%string
          then findBestMatch_loop n' (S h) resp target dblp_url year_last_check
          else
            match firstAuthor (authors inf) with
            | Throw e => Throw e
            | Normal author_1st =>
                let year_fuzzy := year inf in
                if withinOne target year_fuzzy
                   && negb (strictEq year_fuzzy year_last_check)
                then
                  let dblp_url_last_check := venuePath (url inf) in
                  if isTarget target 1 year_fuzzy
                  then findBestMatch_loop n' (S h) resp target
                         dblp_url_last_check year_fuzzy
                  else if isTarget target 0 year_fuzzy
                  then Normal dblp_url_last_check
                  else if (dblp_url =? "")%string
                  then findBestMatch_loop n' (S h) resp target
                         dblp_url_last_check year_fuzzy
                  else findBestMatch_loop n' (S h) resp target
                         dblp_url year_fuzzy
                else findBestMatch_loop n' (S h) resp target
                       dblp_url year_last_check
            end
      | _ => Throw TypeError
      end
  end.

Definition findBestMatch (resp : Hits) (author year : string)
  : Completion string :=
  findBestMatch_loop (sentCount resp) 0 resp (Number year) "" (JNumber 0).

(** The object the cache holds for a query: [{ dblp_url, resp, flag }],
    a field being [None] when the object read back lacks it. *)
Record Cached : Type := mkCached {
  dblp_url : option string;
  resp : Hits;
  flag : option bool
}.

(** Which arm of the three-way test on [dblp_url] ran. *)
Inductive Branch : Type :=
| AbbrBranch
| PacmPlBranch
| UrlBranch
| NoBranch.

(** [ccfData.getRankByUrl] on what [processPacmPlJournal] returned:
    [url.replace] is not a function on an inherited member. *)
Definition getRankByProperty (p : Property) (d : CCFData.CCFData)
  : Completion (option CCFData.Entry) :=
  match p with
  | OwnString s => Normal (CCFData.getRankByUrl s d)
  | Inherited _ => Throw TypeError
  end.

(** [resp.hit[0]?.info?.number || resp.hit[0]?.info?.venue]. *)
Definition abbrOfFirstHit (resp : Hits) : option string :=
  match hitNumber resp 0 with
  | Some s => Some s
  | None =>
      match nth_error (hit resp) 0 with
      | Some {| info := Some inf |} => venue inf
      | _ => None
      end
  end.

(** The [if]/[else if] chain on [dblp_url] that [fetchFromCache]
    consists of and that the response handler of [fetchFromDblpApi]
    ends with: the arm taken, and the record handed to
    [site.annotateInfo], if any.  [dblp_url] and [flag] are [None]
    when [undefined]. *)
Definition annotate (dblp_url : option string) (flag : option bool)
  (resp : Hits) (d : CCFData.CCFData)
  : Branch * Completion (option CCFData.Entry) :=
  match dblp_url with
  | None =>
      match flag with
      | Some false => (NoBranch, Normal None)
      | _ =>
          (AbbrBranch,
           match abbrOfFirstHit resp with
           | Some dblp_abbr =>
               if negb (dblp_abbr =? "")%string && isNaN dblp_abbr
               then Normal (CCFData.getRankByAbbr dblp_abbr d)
               else Normal None
           | None => Normal None
           end)
      end
  | Some u =>
      if (u =? "/journals/pacmpl/pacmpl")%string
      then (PacmPlBranch, getRankByProperty (processPacmPlJournal resp) d)
      else if (u =? "")%string then (NoBranch, Normal None)
      else (UrlBranch, Normal (CCFData.getRankByUrl u d))
  end.

Definition fetchFromCache (cached : Cached) (d : CCFData.CCFData)
  : Branch * Completion (option CCFData.Entry) :=
  annotate (dblp_url cached) (flag cached) (resp cached) d.

(** What one handled response leaves behind. *)
Record Handled : Type := mkHandled {
  storage : CacheService.Storage Cached;
  written : option Cached;
  branch : Branch;
  appended : option CCFData.Entry
}.

Section Fetch.

Variable refuses :
  list (string * CacheService.Stored Cached) -> string ->
  CacheService.Stored Cached -> option Exn.

(** The venue path the handler computes before the table normalises
    it. *)
Definition resolve (resp : Hits) (author year : string) : Completion string :=
  if strictEq (total resp) (JNumber 1) then
    match nth_error (hit resp) 0 with
    | Some {| info := Some inf |} => Normal (venuePath (url inf))
    | _ => Throw TypeError
    end
  else findBestMatch resp author year.

(** The [readyState === 4] handler of [fetchFromDblpApi], from the
    parsed [resp] on; an exception ends it in the [catch], which only
    logs.  The three clock readings are those of [apiCache.setItem]. *)
Definition fetchFromDblpApi (t_cleanup t_write t_retry : Z)
  (query_url : string) (resp : Hits) (author year : string)
  (d : CCFData.CCFData) (ls : CacheService.Storage Cached) : Handled :=
  if strictEq (total resp) (JNumber 0)
  then {| storage := ls; written := None; branch := NoBranch; appended := None |}
  else
    match resolve resp author year with
    | Throw _ =>
        {| storage := ls; written := None; branch := NoBranch; appended := None |}
    | Normal found =>
        let dblp_url :=
          match CCFData.getRankByUrl found d with
          | Some entry =>
              if (CCFData.url entry =? "")%string then found
              else CCFData.url entry
          | None => found
          end in
        let cached :=
          {| dblp_url := Some dblp_url; resp := resp; flag := Some true |} in
        let ls' :=
          snd (CacheService.setItem Cached refuses t_cleanup t_write t_retry
                 query_url cached ls) in
        let (b, r) := annotate (Some dblp_url) (Some true) resp d in
        {| storage := ls'; written := Some cached; branch := b;
           appended := match r with
                       | Normal a => a
                       | Throw _ => None
                       end |}
    end.

(** [encodeURIComponent] and the version of the extension's manifest:
    the browser's. *)
Variable encodeURIComponent : string -> string.
Variable version : string.

Definition queryUrl (title author : string) : string :=
  "https://dblp.org/search/publ/api?q="
  ++ encodeURIComponent (title ++ "  author:" ++ author)
  ++ "&format=json&app=CCFrank4dblp_" ++ version.

(** What [fetchRankFromAPI] does at once: it replays a cached result,
    or sends the request whose response [fetchFromDblpApi] handles
    later. *)
Inductive Fetched : Type :=
| Replayed (b : Branch) (r : Completion (option CCFData.Entry))
| Requested (query_url : string).

Definition fetchRankFromAPI (now : Z) (title author year : string)
  (d : CCFData.CCFData) (ls : CacheService.Storage Cached)
  : Fetched * CacheService.Storage Cached :=
  let query_url := queryUrl title author in
  match CacheService.getItem Cached now query_url ls with
  | (Some cached, ls') =>
      let (b, r) := fetchFromCache cached d in (Replayed b r, ls')
  | (None, ls') => (Requested query_url, ls')
  end.

End Fetch.

End APIService.

(** ** js/core/BaseSiteHandler.js: the rank label *)
Module BaseSiteHandler.
Import JS.

(** The [span] element a rank is shown in: its class names, its text
    and the text of the [pre] tooltip appended to it, if any. *)
Record Span : Type := mkSpan {
  className : string;
  textContent : string;
  tooltip : option string
}.

(** [createRankSpan(rankInfo)] for a record of the table or [null]; on
    [null] it calls itself with a "Not Found" object, which has no
    [rankClass]. *)
Definition createRankSpan (rankInfo : option CCFData.Entry) : Span :=
  let '(rankClass, displayText, rank, fullName) :=
    match rankInfo with
    | Some e =>
        (CCFData.rankClass e, CCFData.displayText e, CCFData.rank e,
         CCFData.fullName e)
    | None => ("", "CCF None", "none", "Not Found")
    end in
  let hasTooltip :=
    negb (fullName =? "")%string && negb (fullName =? "Not Found")%string in
  {| className :=
       "ccf-rank " ++ orString rankClass "ccf-none"
       ++ (if hasTooltip then " ccf-tooltip" else "");
     textContent := orString displayText ("CCF " ++ rank);
     tooltip := if hasTooltip then Some fullName else None |}.

End BaseSiteHandler.

(** ** js/core/DBLPSiteHandler.js: venue paths of dblp pages *)
Module DBLPSiteHandler.
Import JS.

(** [yearPattern.test(s)]: some suffix of [s] matches the pattern. *)
Fixpoint yearPatternTest (s : string) : bool :=
  CCFData.yearPattern s ||
  match s with
  | EmptyString => false
  | String _ s' => yearPatternTest s'
  end.

Definition extractUrlPath (source : string) : option string :=
  if negb (includes source "/db/") then None
  else
    let urlPath :=
      substring source (indexOf source "/db/" + 3) (lastIndexOf source ".html") in
    Some (if yearPatternTest urlPath then CCFData._cleanUrl urlPath
          else urlPath).

(** [extractUrlPathFromHeadline()], on [window.location.pathname]. *)
Definition extractUrlPathFromHeadline (headline : string) : option string :=
  if negb (includes headline "/db/") then None
  else Some (substring headline (indexOf headline "/db/" + 3)
               (lastIndexOf headline "/")).

(** [processCitationElement(element)], on what it reads from the
    element: its [href], whether it has been processed, and the text of
    its issue-number span; the result is the record handed to
    [appendRankInfo], if any. *)
Definition processCitationElement (href : option string) (processed : bool)
  (issueNumber : option string) (d : CCFData.CCFData)
  : option CCFData.Entry :=
  match href with
  | None => None
  | Some source =>
      if (source =? "")%string || processed then None
      else
        let byIssue :=
          match issueNumber with
          | Some t =>
              if negb (t =? "")%string && isNaN t
              then CCFData.getRankByAbbr t d
              else None
          | None => None
          end in
        match byIssue with
        | Some rankInfo => Some rankInfo
        | None =>
            match extractUrlPath source with
            | Some urlPath =>
                if (urlPath =? "")%string then None
                else CCFData.getRankByUrl urlPath d
            | None => None
            end
        end
  end.

(** [appendRank(selector)], when the selector finds an element. *)
Definition appendRank (headline : string) (d : CCFData.CCFData)
  : option CCFData.Entry :=
  match extractUrlPathFromHeadline headline with
  | Some urlPath =>
      if (urlPath =? "")%string then None else CCFData.getRankByUrl urlPath d
  | None => None
  end.

End DBLPSiteHandler.

(** ** js/core/CCFManager.js: rank information and its label *)
Module CCFManager.
Import JS.

Record RankInfo : Type := mkRankInfo {
  ranks : list string;
  info : string
}.

Definition _formatRankInfo (rank fullName abbr : string) : string :=
  let info := fullName in
  let info :=
    if negb (abbr =? "")%string && negb (abbr =? fullName)%string
    then info ++ " (" ++ abbr ++ ")"
    else info in
  if (rank =? "E")%string then info ++ ": Expanded"
  else if (rank =? "P")%string then info ++ ": Preprint"
  else if (rank =? "none")%string then info ++ ": Not Found"
  else info ++ ": CCF " ++ rank.

Definition _createRankInfo (rank fullName abbr : string) : RankInfo :=
  {| ranks := [rank]; info := _formatRankInfo rank fullName abbr |}.

Definition getRankInfo (refine type : string) (d : CCFData.CCFData)
  : RankInfo :=
  if (refine =? "")%string then _createRankInfo "none" "Not Found" ""
  else
    let rankInfo :=
      if (type =? "url")%string then CCFData.getRankByUrl refine d
      else CCFData.getRankByAbbr refine d in
    match rankInfo with
    | None => _createRankInfo "none" "Not Found" ""
    | Some e =>
        _createRankInfo (CCFData.rank e) (CCFData.fullName e) (CCFData.abbr e)
    end.

(** The outer loop of [getRankClass] over 'ABCEP', the inner one over
    [ranks]. *)
Fixpoint firstLetter (ranks letters : list string) : option string :=
  match letters with
  | [] => None
  | rank :: letters' =>
      if existsb (fun r => startsWith r rank) ranks then Some rank
      else firstLetter ranks letters'
  end.

Definition getRankClass (ranks : list string) : string :=
  match ranks with
  | [] => "ccf-none"
  | _ =>
      match firstLetter ranks CCFData.rankLetters with
      | Some rank => "ccf-" ++ toLowerCase rank
      | None => "ccf-none"
      end
  end.

(** [ranks.includes(x)]. *)
Definition ranksInclude (ranks : list string) (x : string) : bool :=
  existsb (fun r => (r =? x)%string) ranks.

(** [ranks.join('/')]. *)
Fixpoint join (ranks : list string) : string :=
  match ranks with
  | [] => ""
  | [r] => r
  | r :: ranks' => r ++ "/" ++ join ranks'
  end.

Definition getRankSpan (refine type : string) (d : CCFData.CCFData)
  : BaseSiteHandler.Span :=
  let rankInfo := getRankInfo refine type d in
  let hasTooltip :=
    negb (info rankInfo =? "")%string
    && negb (info rankInfo =? "Not Found")%string in
  {| BaseSiteHandler.className :=
       "ccf-rank " ++ getRankClass (ranks rankInfo)
       ++ (if hasTooltip then " ccf-tooltip" else "");
     BaseSiteHandler.textContent :=
       if ranksInclude (ranks rankInfo) "E" then "Expanded"
       else if ranksInclude (ranks rankInfo) "P" then "Preprint"
       else if ranksInclude (ranks rankInfo) "none" then "CCF None"
       else "CCF " ++ join (ranks rankInfo);
     BaseSiteHandler.tooltip :=
       if hasTooltip then Some (info rankInfo) else None |}.

End CCFManager.

(** ** Conditions the properties are stated with *)
Module Conditions.
Import JS.

(** [s] ends neither in a digit nor in a digit followed by a hyphen:
    nothing at its end can be taken for (the start of) a year suffix. *)
Fixpoint noYearTail (s : string) : bool :=
  match s with
  | EmptyString => true
  | String c s' =>
      match s' with
      | EmptyString => negb (isDigit c)
      | String d EmptyString =>
          negb (isDigit d) && negb (isDigit c && (d =? "-")%char)
      | _ => noYearTail s'
      end
  end.

Section CacheConditions.
Import CacheService.

Variable V : Type.

(** Every entry is one the cache wrote at [t0] or later. *)
Definition filledFrom (t0 : Z) (ls : Storage V) : Prop :=
  forall k s, In (k, s) (entries ls) ->
    startsWith k keyPrefix = true /\
    exists item, s = SItem item /\ t0 + expiresAfter <= expires item.

(** The entries of the other users of [localStorage]: those whose key
    does not carry the cache's prefix. *)
Definition foreign (ls : Storage V) : list (string * Stored V) :=
  filter (fun kv => negb (startsWith (fst kv) keyPrefix)) (entries ls).

(** An entry of the cache that cannot be read any more at [now]: it is
    corrupt, or its expiry has passed. *)
Definition stale (now : Z) (kv : string * Stored V) : bool :=
  startsWith (fst kv) keyPrefix && isExpired V now (snd kv).

(** An entry of the cache with an expiry that has passed at [now], and
    one with an expiry that has not. *)
Definition pastExpiry (now : Z) (kv : string * Stored V) : bool :=
  startsWith (fst kv) keyPrefix &&
  match expiry V (snd kv) with
  | Some e => now >? e
  | None => false
  end.

Definition withinExpiry (now : Z) (kv : string * Stored V) : bool :=
  startsWith (fst kv) keyPrefix &&
  match expiry V (snd kv) with
  | Some e => negb (now >? e)
  | None => false
  end.

End CacheConditions.

Section Resolver.
Import APIService.

Definition informal (h : Hit) : bool :=
  match info h with
  | Some inf => (type inf =? "Informal Publications")%string
  | None => false
  end.

(** The loop of [findBestMatch] run over the hits themselves rather
    than over their indices. *)
Fixpoint matchHits (target : option Z) (hits : list Hit) (dblp_url : string)
  (year_last_check : Json) : Completion string :=
  match hits with
  | [] => Normal dblp_url
  | {| info := Some inf |} :: hits' =>
      if (type inf =? "Informal Publications")%string
      then matchHits target hits' dblp_url year_last_check
      else
        match firstAuthor (authors inf) with
        | Throw e => Throw e
        | Normal author_1st =>
            let year_fuzzy := year inf in
            if withinOne target year_fuzzy
               && negb (strictEq year_fuzzy year_last_check)
            then
              let dblp_url_last_check := venuePath (url inf) in
              if isTarget target 1 year_fuzzy
              then matchHits target hits' dblp_url_last_check year_fuzzy
              else if isTarget target 0 year_fuzzy
              then Normal dblp_url_last_check
              else if (dblp_url =? "")%string
              then matchHits target hits' dblp_url_last_check year_fuzzy
              else matchHits target hits' dblp_url year_fuzzy
            else matchHits target hits' dblp_url year_last_check
        end
  | {| info := None |} :: _ => Throw TypeError
  end.

(** The tie-break policy in the words of the specification, the year
    of a hit being the number its [year] reads as.  [adopted] is the
    venue path adopted so far, if any, and [last] the year of the
    previously accepted candidate, if any.  A hit is a candidate when
    its year is within one of the target year [t] and differs from
    [last]; a candidate of year [t + 1] is adopted and the scan goes on,
    one of year [t] is adopted and ends the scan, an earlier one is
    adopted only when nothing has been adopted yet. *)
Fixpoint tieBreak (t : Z) (hits : list Hit) (adopted : option string)
  (last : option Z) : option string :=
  match hits with
  | [] => adopted
  | h :: hits' =>
      match info h with
      | None => tieBreak t hits' adopted last
      | Some inf =>
          if informal h then tieBreak t hits' adopted last
          else
            match toNumber (year inf) with
            | None => tieBreak t hits' adopted last
            | Some y =>
                let differs := match last with
                               | Some y' => negb (y =? y')
                               | None => true
                               end in
                if (Z.abs (t - y) <=? 1) && differs then
                  if y =? t + 1
                  then tieBreak t hits' (Some (venuePath (url inf))) (Some y)
                  else if y =? t
                  then Some (venuePath (url inf))
                  else tieBreak t hits'
                         (match adopted with
                          | None => Some (venuePath (url inf))
                          | Some _ => adopted
                          end) (Some y)
                else tieBreak t hits' adopted last
            end
      end
  end.

(** The venue path the policy ends with, the empty path standing for
    "no usable hit". *)
Definition tieBreakPath (t : Z) (hits : list Hit) : string :=
  match tieBreak t hits None None with
  | Some p => p
  | None => ""
  end.

(** The loop variables of the code against the state of the policy:
    the empty path stands for "nothing adopted" and the number 0 for "no
    candidate accepted". *)
Definition encodes (adopted : option string) (last : option Z)
  (u : string) (y : Json) : Prop :=
  match adopted with
  | None => u = ""
  | Some p => u = p /\ p <> ""
  end /\
  match last with
  | None => y = JNumber 0
  | Some y' => y = JNumber y' /\ y' <> 0
  end.

(** A hit of a response with numeric years that the scan can read: it
    has its [info], and unless it is an informal publication it lists a
    first author, has a year that is a number other than 0 and a record
    URL with a non-empty venue path. *)
Definition readable (h : Hit) : bool :=
  match info h with
  | None => false
  | Some inf =>
      informal h ||
      (match firstAuthor (authors inf) with
       | Normal _ => true
       | Throw _ => false
       end
       && match year inf with
          | JNumber y => negb (y =? 0)
          | JString _ => false
          end
       && negb (venuePath (url inf) =? "")%string)
  end.

(** A hit of a response of dblp that the scan can read: it has its
    [info], and unless it is an informal publication it lists a first
    author, has its year as a string and a record URL with a non-empty
    venue path. *)
Definition readableString (h : Hit) : bool :=
  match info h with
  | None => false
  | Some inf =>
      informal h ||
      (match firstAuthor (authors inf) with
       | Normal _ => true
       | Throw _ => false
       end
       && match year inf with
          | JNumber _ => false
          | JString _ => true
          end
       && negb (venuePath (url inf) =? "")%string)
  end.

(** The venue path of the first hit that is not an informal publication
    and whose year reads as a number within one of [t]; the empty path
    when there is none. *)
Fixpoint firstInWindow (t : Z) (hits : list Hit) : string :=
  match hits with
  | [] => ""
  | h :: hits' =>
      match info h with
      | None => firstInWindow t hits'
      | Some inf =>
          if negb (informal h) && withinOne (Some t) (year inf)
          then venuePath (url inf)
          else firstInWindow t hits'
      end
  end.

(** [p] is the venue path of the record URL of one of the hits. *)
Definition fromHit (resp : Hits) (p : string) : Prop :=
  exists x inf, In x (hit resp) /\ info x = Some inf /\ p = venuePath (url inf).

(** [p] is the venue path of a hit of the response that is not an
    informal publication and whose year is within one of the target
    year. *)
Definition candidate (target : option Z) (resp : Hits) (p : string) : Prop :=
  exists x inf,
    In x (hit resp) /\ info x = Some inf /\ informal x = false /\
    withinOne target (year inf) = true /\ p = venuePath (url inf).

(** A hit the scan for year [t] reads and goes past: an informal
    publication, or a hit with a first author and a year that is not
    the number [t] (another number, or a string). *)
Definition passed (t : Z) (h : Hit) : bool :=
  match info h with
  | None => false
  | Some inf =>
      informal h ||
      (match firstAuthor (authors inf) with
       | Normal _ => true
       | Throw _ => false
       end
       && negb (strictEq (year inf) (JNumber t)))
  end.


End Resolver.

End Conditions.

(** ** Sample inputs *)
Module Samples.
Import JS APIService.

(** A storage that never refuses a write. *)
Definition unlimited {V : Type}
  : list (string * CacheService.Stored V) -> string ->
    CacheService.Stored V -> option Exn :=
  fun _ _ _ => None.

(** A storage with room for two entries. *)
Definition smallQuota {V : Type}
  : list (string * CacheService.Stored V) -> string ->
    CacheService.Stored V -> option Exn :=
  fun l key s =>
    if (List.length (CacheService.upsert V key s l) <=? 2)%nat then None
    else Some (DOMException "QuotaExceededError").

(** A storage that refuses every write for a reason other than the
    quota. *)
Definition locked {V : Type}
  : list (string * CacheService.Stored V) -> string ->
    CacheService.Stored V -> option Exn :=
  fun _ _ _ => Some (DOMException "SecurityError").

Definition emptyStorage {V : Type} : CacheService.Storage V :=
  CacheService.mkStorage [] 0.

Definition stamped (v : string) (t : Z) : CacheService.Stored string :=
  CacheService.SItem (CacheService.mkItem v (t + CacheService.expiresAfter) t).

(** A cache of two entries stamped at times 100 and 5, and a foreign
    entry of the page. *)
Definition twoEntries : CacheService.Storage string :=
  CacheService.mkStorage
    [("CCFrank4dblp_a", stamped "va" 100);
     ("theme", CacheService.SOther);
     ("CCFrank4dblp_b", stamped "vb" 5)]
    2.

Definition sampleInfo (ty : string) (y : Z) (u : string) (n : option string)
  : Hit :=
  {| info :=
       Some {| type := ty;
               authors := AuthorObject {| text := "A. Author" |};
               year := JNumber y; url := u; number := n; venue := None |} |}.

(** The same hit as dblp sends it, its year a string. *)
Definition dblpInfo (ty y u : string) (n : option string) : Hit :=
  {| info :=
       Some {| type := ty;
               authors := AuthorObject {| text := "A. Author" |};
               year := JString y; url := u; number := n; venue := None |} |}.

(** Two entries of the cache next to each other, both stamped at time 0. *)
Definition twoStale : CacheService.Storage string :=
  CacheService.mkStorage
    [("CCFrank4dblp_a", stamped "va" 0); ("CCFrank4dblp_b", stamped "vb" 0)]
    2.

(** A positive number written in binary, lowest bit first. *)
Fixpoint binaryKey (p : positive) : string :=
  match p with
  | xH => "1"
  | xO q => String "0" (binaryKey q)
  | xI q => String "1" (binaryKey q)
  end.

(** A cache of [n] entries with keys of their own, the [i]-th stamped
    at time [i]. *)
Definition manyEntries (n : nat) : CacheService.Storage nat :=
  CacheService.mkStorage
    (map (fun i =>
            (CacheService._getPrefixedKey (binaryKey (Pos.of_succ_nat i)),
             CacheService.SItem
               (CacheService.mkItem i
                  (Z.of_nat i + CacheService.expiresAfter) (Z.of_nat i))))
       (seq 0 n))
    n.

(** [n] calls of [setItem] at time 0, each with a key of its own. *)
Definition distinctCalls (n : nat) : list (Z * string * nat) :=
  map (fun i => (0, binaryKey (Pos.of_succ_nat i), i)) (seq 0 n).

(** Three conference papers by their years and record URLs. *)
Definition threeHits (y1 y2 y3 : Z) (u1 u2 u3 : string) : Hits :=
  {| total := JNumber 3; sent := JNumber 3;
     hit := [sampleInfo "Conference and Workshop Papers" y1 u1 None;
             sampleInfo "Conference and Workshop Papers" y2 u2 None;
             sampleInfo "Conference and Workshop Papers" y3 u3 None] |}.

(** A preprint and its conference version, both of 2020. *)
Definition preprintFirst : Hits :=
  {| total := JNumber 2; sent := JNumber 2;
     hit := [sampleInfo "Informal Publications" 2020
               "https://dblp.org/rec/journals/corr/abs-2001-00001" None;
             sampleInfo "" 2020 "https://dblp.org/rec/conf/fast/Author20" None] |}.

(** Two hits of the umbrella journal, the second with an issue number. *)
Definition examplePacmPl : Hits :=
  {| total := JNumber 2; sent := JNumber 2;
     hit := [sampleInfo "Journal Articles" 2020
               "https://dblp.org/rec/journals/pacmpl/A20" None;
             sampleInfo "Journal Articles" 2020
               "https://dblp.org/rec/journals/pacmpl/B20" (Some "OOPSLA2")] |}.

(** Three conference papers as dblp sends them: the counts and the
    years are strings. *)
Definition threeDblpHits (y1 y2 y3 u1 u2 u3 : string) : Hits :=
  {| total := JString "3"; sent := JString "3";
     hit := [dblpInfo "Conference and Workshop Papers" y1 u1 None;
             dblpInfo "Conference and Workshop Papers" y2 u2 None;
             dblpInfo "Conference and Workshop Papers" y3 u3 None] |}.



(** A hit of the umbrella journal whose issue number is the name of a
    member of [Object.prototype]. *)
Definition memberPacmPl : Hits :=
  {| total := JString "1"; sent := JString "1";
     hit := [dblpInfo "Journal Articles" "2020"
               "https://dblp.org/rec/journals/pacmpl/A20"
               (Some "Constructor")] |}.

End Samples.

(** * Properties *)

(** ** Lists *)
Module ListFacts.

Lemma skipn_nth_error {A : Type} (l : list A) (h : nat) (x : A) :
  nth_error l h = Some x -> skipn h l = x :: skipn (S h) l.
Proof.
  revert l. induction h as [|h IH]; intros [|y l] H; simpl in *;
    try discriminate H.
  - now injection H as ->.
  - now apply IH.
Qed.

Lemma filter_none {A : Type} (f : A -> bool) (l : list A) :
  (forall x, In x l -> f x = false) -> filter f l = [].
Proof.
  induction l as [|x l IH]; intros H; simpl; [reflexivity|].
  rewrite (H x (or_introl eq_refl)). apply IH. intros y Hy. apply H. now right.
Qed.

Lemma In_firstn {A : Type} (n : nat) (l : list A) (x : A) :
  In x (firstn n l) -> In x l.
Proof.
  intros H. rewrite <- (firstn_skipn n l). apply in_or_app. now left.
Qed.

Lemma NoDup_firstn {A : Type} (n : nat) (l : list A) :
  NoDup l -> NoDup (firstn n l).
Proof.
  intros H. rewrite <- (firstn_skipn n l) in H.
  now apply NoDup_app_remove_r in H.
Qed.

End ListFacts.

(** ** The rank table *)
Module CCFDataFacts.
Import JS CCFData Conditions.

Lemma Map_get_set_same {A : Type} (k : string) (v : A) (m : Map A) :
  Map_get k (Map_set k v m) = Some v.
Proof.
  induction m as [|[k' v'] m IH]; simpl.
  - now rewrite String.eqb_refl.
  - destruct (k' =? k)%string eqn:E; simpl.
    + now rewrite String.eqb_refl.
    + now rewrite E.
Qed.

Lemma spanDigits_app_rest (s y : string) (n : nat) (e : ascii) (r : string) :
  spanDigits s = (n, String e r) ->
  spanDigits (s ++ y) = (n, String e r ++ y).
Proof.
  revert n.
  induction s as [|c s IH]; intros n H; simpl in *; [discriminate|].
  destruct (isDigit c).
  - destruct (spanDigits s) as [n' r'] eqn:E.
    injection H as <- ->.
    now rewrite (IH n' eq_refl).
  - now injection H as <- <- <-.
Qed.

Lemma noYearTail_tail (c : ascii) (s : string) :
  s <> "" -> noYearTail (String c s) = true -> noYearTail s = true.
Proof.
  intros Hs H. destruct s as [|d [|e s]]; [congruence | | exact H].
  simpl in *. now apply andb_prop in H as [H _].
Qed.

Lemma noYearTail_rest (s : string) (n : nat) (r : string) :
  s <> "" -> noYearTail s = true -> spanDigits s = (n, r) -> r <> "".
Proof.
  revert n.
  induction s as [|c s IH]; intros n Hs Ht Hspan; [congruence|].
  simpl in Hspan.
  destruct (isDigit c) eqn:Hc.
  - destruct s as [|d s].
    + simpl in Ht. now rewrite Hc in Ht.
    + destruct (spanDigits (String d s)) as [n' r'] eqn:E.
      injection Hspan as <- <-.
      apply (IH n'); [discriminate | | reflexivity].
      apply (noYearTail_tail c); [discriminate | exact Ht].
  - injection Hspan as <- <-. discriminate.
Qed.

Lemma noYearTail_after_hyphen (s : string) (n : nat) (r : string) :
  noYearTail s = true -> (1 <= n)%nat ->
  spanDigits s = (n, String "-" r) ->
  r <> "" /\ noYearTail r = true.
Proof.
  revert n.
  induction s as [|c s IH]; intros n Ht Hn Hspan; simpl in Hspan; [discriminate|].
  destruct (isDigit c) eqn:Hc; [|injection Hspan as <- _; lia].
  destruct (spanDigits s) as [n' r'] eqn:E.
  injection Hspan as <- ->.
  destruct s as [|d s]; [discriminate|].
  assert (Hts : noYearTail (String d s) = true)
    by (apply (noYearTail_tail c); [discriminate | exact Ht]).
  destruct n' as [|n'].
  - simpl in E. destruct (isDigit d) eqn:Hd.
    + destruct (spanDigits s); discriminate.
    + injection E as -> ->.
      destruct r as [|e r].
      * simpl in Ht. rewrite Hc in Ht. discriminate.
      * split; [discriminate|].
        apply (noYearTail_tail "-"); [discriminate | exact Hts].
  - apply (IH (S n')); [exact Hts | lia | reflexivity].
Qed.

Lemma yearPattern_blocked (p y : string) :
  p <> "" -> noYearTail p = true -> yearPattern (p ++ y) = false.
Proof.
  intros Hp Ht. unfold yearPattern.
  destruct (spanDigits p) as [n r] eqn:E.
  destruct r as [|e r]; [now apply noYearTail_rest in E|].
  rewrite (spanDigits_app_rest _ y _ _ _ E). cbn [append].
  destruct (1 <=? n)%nat eqn:Hn; [|reflexivity].
  destruct (n <=? 4)%nat; [|reflexivity]. cbn [andb].
  destruct (e =? "-")%char eqn:He; [|reflexivity].
  apply Ascii.eqb_eq in He. subst e.
  apply Nat.leb_le in Hn.
  destruct (noYearTail_after_hyphen _ _ _ Ht Hn E) as [Hr Htr].
  destruct (spanDigits r) as [m r2] eqn:E2.
  destruct r2 as [|e2 r2]; [now apply noYearTail_rest in E2|].
  rewrite (spanDigits_app_rest _ y _ _ _ E2). cbn [append andb String.eqb].
  now rewrite !andb_false_r.
Qed.

Lemma _cleanUrl_app (p y : string) :
  noYearTail p = true -> yearPattern y = true -> _cleanUrl (p ++ y) = p.
Proof.
  intros Ht Hy.
  induction p as [|c p IH].
  - simpl. destruct y; simpl; [reflexivity | now rewrite Hy].
  - change (String c p ++ y)%string with (String c (p ++ y)).
    simpl.
    pose proof (yearPattern_blocked (String c p) y) as Hb.
    simpl in Hb. rewrite Hb; [|discriminate | exact Ht].
    f_equal. destruct p as [|d p].
    + simpl. destruct y; simpl; [reflexivity | now rewrite Hy].
    + apply IH. apply (noYearTail_tail c); [discriminate | exact Ht].
Qed.

Lemma append_empty_r (s : string) : (s ++ "")%string = s.
Proof. induction s as [|c s IH]; simpl; [reflexivity | now rewrite IH]. Qed.

Lemma _cleanUrl_fixed (p : string) :
  noYearTail p = true -> _cleanUrl p = p.
Proof.
  induction p as [|c p IH]; intros Ht; [reflexivity|].
  simpl.
  pose proof (yearPattern_blocked (String c p) "") as Hb.
  rewrite append_empty_r in Hb.
  rewrite Hb; [|discriminate | exact Ht].
  f_equal. destruct p as [|d p]; [reflexivity|].
  apply IH. apply (noYearTail_tail c); [discriminate | exact Ht].
Qed.

Lemma append_nonempty (p y : string) : p <> "" -> (p ++ y =? "")%string = false.
Proof. destruct p; [congruence | reflexivity]. Qed.

(** C2, as the table implements it.  [addEntry] stores the venue path as
    it is given.  For a non-empty path [P] that ends neither in a digit
    nor in a digit followed by a hyphen, and every [Y] matching the
    year-suffix pattern, [getRankByUrl (P ++ Y)] and [getRankByUrl P]
    return the same record on every table; and right after
    [addEntry ... P type] both return the record just stored, when it is
    a conference or no conference is keyed by [P]. *)
Theorem getRankByUrl_year_suffix (d : CCFData) (P Y : string) :
  P <> "" -> noYearTail P = true -> yearPattern Y = true ->
  getRankByUrl (P ++ Y) d = getRankByUrl P d /\
  forall rank abbr fullName type,
    let entry := mkEntry rank (toUpperCase abbr) fullName P type in
    let d' := addEntry rank abbr fullName P type d in
    Map_get P (if (type =? "conference")%string
               then conferences d' else journals d') = Some entry /\
    (type = "conference" \/ Map_get P (conferences d) = None ->
     getRankByUrl (P ++ Y) d' = Some entry /\
     getRankByUrl P d' = Some entry).
Proof.
  intros HP Ht HY.
  assert (Hsame : forall t, getRankByUrl (P ++ Y) t = getRankByUrl P t).
  { intros t. unfold getRankByUrl.
    rewrite (append_nonempty _ _ HP).
    destruct (P =? "")%string eqn:E; [apply String.eqb_eq in E; congruence|].
    now rewrite (_cleanUrl_app _ _ Ht HY), (_cleanUrl_fixed _ Ht). }
  split; [apply Hsame|].
  intros rank abbr fullName type entry d'.
  assert (Hstored :
    Map_get P (if (type =? "conference")%string
               then conferences d' else journals d') = Some entry).
  { subst d'. unfold addEntry.
    destruct (type =? "conference")%string; simpl; apply Map_get_set_same. }
  split; [exact Hstored|].
  intros Hkind. rewrite Hsame.
  assert (Hget : getRankByUrl P d' = Some entry).
  { unfold getRankByUrl.
    destruct (P =? "")%string eqn:E; [apply String.eqb_eq in E; congruence|].
    rewrite (_cleanUrl_fixed _ Ht).
    destruct (type =? "conference")%string eqn:Hc.
    - now rewrite Hstored.
    - destruct Hkind as [->|Hnone]; [discriminate|].
      subst d'. unfold addEntry in *. rewrite Hc in *. simpl in *.
      now rewrite Hnone. }
  now split.
Qed.

(** The year suffix "2023" after the stored path /conf/fast/fast. *)
Lemma getRankByUrl_year_suffix_witness :
  getRankByUrl ("/conf/fast/fast" ++ "2023") ccfData =
  getRankByUrl "/conf/fast/fast" ccfData.
Proof.
  assert (Hpath : "/conf/fast/fast" <> "") by discriminate.
  exact (proj1 (getRankByUrl_year_suffix ccfData "/conf/fast/fast" "2023"
                  Hpath eq_refl eq_refl)).
Defined.

(** C2 fails as stated: a path that itself ends in a digit is stored
    unstripped, so the lookup of the path strips it and misses, while
    the lookup of the path with a four-digit year appended strips the
    year only and finds the record. *)
Lemma getRankByUrl_digit_path_counterexample :
  let d := addEntry "A" "X" "X Conference" "/conf/x/x3" "conference" empty in
  let entry := mkEntry "A" "X" "X Conference" "/conf/x/x3" "conference" in
  yearPattern "2023" = true /\
  Map_get "/conf/x/x3" (conferences d) = Some entry /\
  getRankByUrl "/conf/x/x3" d = None /\
  getRankByUrl ("/conf/x/x3" ++ "2023") d = Some entry.
Proof. vm_compute. repeat split. Qed.

Lemma prefix_length (p s : string) :
  String.prefix p s = true -> (String.length p <= String.length s)%nat.
Proof.
  revert s. induction p as [|c p IH]; intros s H; simpl; [lia|].
  destruct s as [|c' s]; simpl in *; [discriminate|].
  destruct (Ascii.ascii_dec c c'); [|discriminate].
  apply IH in H. lia.
Qed.

Lemma prefix_same_length (p s : string) :
  String.prefix p s = true -> String.length p = String.length s -> p = s.
Proof.
  revert s. induction p as [|c p IH]; intros s H L;
    destruct s as [|c' s]; simpl in *; try discriminate; [reflexivity|].
  destruct (Ascii.ascii_dec c c'); [|discriminate].
  subst. f_equal. apply IH; [exact H | lia].
Qed.

(** A key that starts with [u] differs from [u] exactly when it is
    longer. *)
Lemma strictly_longer (key u : string) :
  startsWith key u = true ->
  negb (key =? u)%string = Nat.ltb (String.length u) (String.length key).
Proof.
  unfold startsWith. intros H.
  pose proof (prefix_length _ _ H) as Hle.
  destruct (key =? u)%string eqn:E; simpl; symmetry.
  - apply String.eqb_eq in E. subst. apply Nat.ltb_irrefl.
  - apply Nat.ltb_lt.
    destruct (Nat.eq_dec (String.length u) (String.length key)) as [Heq|]; [|lia].
    apply (prefix_same_length _ _ H) in Heq. subst.
    now rewrite String.eqb_refl in E.
Qed.

Lemma firstPrefixed_first (u : string) (m1 m2 : Map Entry) (key : string)
  (value : Entry) :
  startsWith key u = true ->
  (String.length u < String.length key)%nat ->
  (forall k v, In (k, v) m1 -> startsWith k u = true ->
               (String.length k <= String.length u)%nat) ->
  firstPrefixed u (m1 ++ (key, value) :: m2)%list = Some value.
Proof.
  intros Hk Hlen Hbefore.
  induction m1 as [|[k v] m1 IH]; simpl.
  - rewrite Hk, (strictly_longer _ _ Hk). simpl.
    apply Nat.ltb_lt in Hlen. now rewrite Hlen.
  - destruct (startsWith k u) eqn:E; simpl.
    + rewrite (strictly_longer _ _ E).
      pose proof (Hbefore k v (or_introl eq_refl) E) as Hle.
      apply Nat.ltb_ge in Hle. rewrite Hle.
      apply IH. intros k' v' Hin Hs. apply (Hbefore k' v'); [now right | exact Hs].
    + apply IH. intros k' v' Hin Hs. apply (Hbefore k' v'); [now right | exact Hs].
Qed.

Lemma firstPrefixed_none (u : string) (m : Map Entry) :
  (forall k v, In (k, v) m -> startsWith k u = true ->
               (String.length k <= String.length u)%nat) ->
  firstPrefixed u m = None.
Proof.
  intros Hall.
  induction m as [|[k v] m IH]; simpl; [reflexivity|].
  destruct (startsWith k u) eqn:E; simpl.
  - rewrite (strictly_longer _ _ E).
    pose proof (Hall k v (or_introl eq_refl) E) as Hle.
    apply Nat.ltb_ge in Hle. rewrite Hle.
    apply IH. intros k' v' Hin Hs. apply (Hall k' v'); [now right | exact Hs].
  - apply IH. intros k' v' Hin Hs. apply (Hall k' v'); [now right | exact Hs].
Qed.

(** C5, as the table implements it.  For a non-empty abbreviation with
    no exact match under its upper-cased form in either mapping,
    [getRankByAbbr] returns the record under the first key of the
    conference mapping, in insertion order, that starts with the
    upper-cased abbreviation and is strictly longer than it, and returns
    nothing when the conference mapping has no such key; the keys of the
    journal mapping are not searched. *)
Theorem getRankByAbbr_prefix_fallback (d : CCFData) (abbr : string) :
  abbr <> "" ->
  Map_get (toUpperCase abbr) (conferences d) = None ->
  Map_get (toUpperCase abbr) (journals d) = None ->
  (forall m1 key value m2,
     conferences d = (m1 ++ (key, value) :: m2)%list ->
     startsWith key (toUpperCase abbr) = true ->
     (String.length (toUpperCase abbr) < String.length key)%nat ->
     (forall k v, In (k, v) m1 -> startsWith k (toUpperCase abbr) = true ->
                  (String.length k <= String.length (toUpperCase abbr))%nat) ->
     getRankByAbbr abbr d = Some value) /\
  ((forall k v, In (k, v) (conferences d) ->
                startsWith k (toUpperCase abbr) = true ->
                (String.length k <= String.length (toUpperCase abbr))%nat) ->
   getRankByAbbr abbr d = None).
Proof.
  intros Habbr Hc Hj.
  assert (Hfall : getRankByAbbr abbr d =
                  firstPrefixed (toUpperCase abbr) (conferences d)).
  { unfold getRankByAbbr.
    destruct (abbr =? "")%string eqn:E; [apply String.eqb_eq in E; congruence|].
    now rewrite Hc, Hj. }
  rewrite Hfall. split.
  - intros m1 key value m2 -> Hk Hlen Hbefore.
    now apply firstPrefixed_first.
  - apply firstPrefixed_none.
Qed.

(** The truncated code "FAS" resolves to FAST, and "TOC" to nothing. *)
Lemma getRankByAbbr_prefix_fallback_witness :
  getRankByAbbr "FAS" ccfData =
    Some (mkEntry "A" "FAST" "Conference on File and Storage Technologies"
            "/conf/fast/fast" "conference") /\
  getRankByAbbr "TOC" ccfData = None.
Proof.
  destruct (getRankByAbbr_prefix_fallback ccfData "FAS") as [Hfirst _];
    [discriminate | reflexivity | reflexivity |].
  destruct (getRankByAbbr_prefix_fallback ccfData "TOC") as [_ Hnone];
    [discriminate | reflexivity | reflexivity |].
  split.
  - apply (Hfirst (firstn 2 (conferences ccfData)) "FAST" _
             (skipn 3 (conferences ccfData))); [reflexivity | reflexivity | | ].
    + vm_compute. lia.
    + intros k v [H|[H|[]]] Hs; injection H as <- <-; discriminate Hs.
  - apply Hnone.
    intros k v [H|[H|[H|[H|[]]]]] Hs; injection H as <- <-; discriminate Hs.
Defined.

(** C5 fails as stated: "TOC" has no exact match and the table holds the
    key "TOCS", which starts with it and is longer, but that key is in
    the journal mapping and the fallback returns nothing. *)
Lemma getRankByAbbr_journal_counterexample :
  orElse (Map_get (toUpperCase "TOC") (conferences ccfData))
         (Map_get (toUpperCase "TOC") (journals ccfData)) = None /\
  (exists value,
     Map_get "TOCS" (journals ccfData) = Some value /\
     startsWith "TOCS" (toUpperCase "TOC") = true /\
     (String.length (toUpperCase "TOC") < String.length "TOCS")%nat) /\
  getRankByAbbr "TOC" ccfData = None.
Proof.
  split; [reflexivity | split; [|reflexivity]].
  eexists. split; [reflexivity | split; [reflexivity | vm_compute; lia]].
Qed.

End CCFDataFacts.

(** ** The response cache *)
Module CacheFacts.
Import JS CacheService Conditions Samples ListFacts.

Section Facts.

Variable V : Type.

Lemma lookup_upsert (key : string) (s : Stored V) (l : list (string * Stored V)) :
  lookup V key (upsert V key s l) = Some s.
Proof.
  induction l as [|[k s'] l IH]; simpl.
  - now rewrite String.eqb_refl.
  - destruct (k =? key)%string eqn:E; simpl.
    + now rewrite String.eqb_refl.
    + now rewrite E.
Qed.

Lemma In_upsert (key : string) (s : Stored V) (l : list (string * Stored V))
  (k : string) (s' : Stored V) :
  In (k, s') (upsert V key s l) -> (k = key /\ s' = s) \/ In (k, s') l.
Proof.
  induction l as [|[k0 s0] l IH]; simpl.
  - intros [H|[]]. injection H as <- <-. now left.
  - destruct (k0 =? key)%string.
    + intros [H|H]; [injection H as <- <-; now left | right; now right].
    + intros [H|H]; [right; now left|].
      destruct (IH H) as [?|?]; [now left | right; now right].
Qed.

Lemma In_remove (key : string) (l : list (string * Stored V))
  (k : string) (s : Stored V) :
  In (k, s) (remove V key l) <-> In (k, s) l /\ k <> key.
Proof.
  unfold remove. rewrite filter_In. simpl.
  rewrite negb_true_iff, String.eqb_neq. tauto.
Qed.

Lemma In_removeAll (keys : list string) (ls : Storage V)
  (k : string) (s : Stored V) :
  In (k, s) (entries (removeAll V keys ls)) <->
  In (k, s) (entries ls) /\ ~ In k keys.
Proof.
  revert ls. unfold removeAll.
  induction keys as [|key keys IH]; intros ls; simpl; [tauto|].
  rewrite IH. simpl. rewrite In_remove.
  split; [intros [[H1 H2] H3] | intros [H1 H2]]; repeat split; auto.
  intros [->|H]; [congruence | contradiction].
Qed.

Lemma entries_removeAll (keys : list string) (ls : Storage V) :
  entries (removeAll V keys ls) =
  fold_left (fun acc key => remove V key acc) keys (entries ls).
Proof.
  revert ls. unfold removeAll.
  induction keys as [|key keys IH]; intros ls; simpl; [reflexivity|].
  now rewrite IH.
Qed.

Lemma writes_removeAll (keys : list string) (ls : Storage V) :
  writes (removeAll V keys ls) = writes ls.
Proof.
  revert ls. unfold removeAll.
  induction keys as [|key keys IH]; intros ls; simpl; [reflexivity|].
  now rewrite IH.
Qed.

Lemma writes_scan (fuel i : nat) (now : Z) (ls : Storage V)
  (keys : list (string * Z)) :
  writes (fst (_cleanup_scan V fuel i now ls keys)) = writes ls.
Proof.
  revert i ls keys.
  induction fuel as [|fuel IH]; intros i ls keys; simpl; [reflexivity|].
  destruct (nth_error (entries ls) i) as [[key s]|]; [|reflexivity].
  destruct (startsWith key keyPrefix); [|apply IH].
  destruct s; simpl; try apply IH.
  - now rewrite IH.
  - destruct (expires item =? 0); [apply IH|].
    destruct (now >? expires item); [now rewrite IH | apply IH].
Qed.

Lemma writes_cleanup (now : Z) (ls : Storage V) :
  writes (_cleanup V now ls) = writes ls.
Proof.
  unfold _cleanup.
  pose proof (writes_scan (localStorage_length V ls) 0 now ls []) as H.
  destruct (_cleanup_scan V (localStorage_length V ls) 0 now ls [])
    as [ls1 keys].
  simpl in H.
  destruct (maxCacheSize <? List.length keys)%nat; [|exact H].
  now rewrite writes_removeAll.
Qed.

Lemma clearAll_own (ls : Storage V) (k : string) (s : Stored V) :
  In (k, s) (entries (clearAll V ls)) -> startsWith k keyPrefix = false.
Proof.
  unfold clearAll. rewrite In_removeAll. intros [Hin Hnot].
  destruct (startsWith k keyPrefix) eqn:E; [|reflexivity].
  exfalso. apply Hnot. apply filter_In. split; [|exact E].
  now apply (in_map fst) in Hin.
Qed.

Lemma clearAll_writes (ls : Storage V) : writes (clearAll V ls) = writes ls.
Proof. unfold clearAll. apply writes_removeAll. Qed.

Lemma prefix_append (p s : string) : String.prefix p (p ++ s) = true.
Proof.
  induction p as [|c p IH]; simpl; [now destruct s|].
  destruct (Ascii.ascii_dec c c); [exact IH | congruence].
Qed.

Lemma prefixedKey_own (key : string) :
  startsWith (_getPrefixedKey key) keyPrefix = true.
Proof. apply prefix_append. Qed.

(** C7, as the cache implements it.  After [clearExpired] no entry of
    the cache is corrupt or carries an expiry that has passed.  A
    [getItem] that returns a value leaves the storage as it was and
    guarantees only that the entry it read has not expired. *)
Theorem clearExpired_getItem_expiry (now : Z) (ls : Storage V) :
  (forall k s,
     In (k, s) (entries (clearExpired V now ls)) ->
     startsWith k keyPrefix = true ->
     s <> SCorrupt /\ forall e, expiry V s = Some e -> now <= e) /\
  (forall key v ls',
     getItem V now key ls = (Some v, ls') ->
     ls' = ls /\
     exists item,
       localStorage_getItem V (_getPrefixedKey key) ls = Some (SItem item) /\
       value item = v /\ now <= expires item).
Proof.
  split.
  - intros k s Hin Hown.
    unfold clearExpired in Hin. apply In_removeAll in Hin as [Hin Hnot].
    assert (Hlive : isExpired V now s = false).
    { destruct (isExpired V now s) eqn:E; [|reflexivity].
      exfalso. apply Hnot.
      apply (in_map fst) with (x := (k, s)). apply filter_In.
      split; [exact Hin | simpl; now rewrite Hown, E]. }
    split.
    + intros ->. discriminate Hlive.
    + intros e He. unfold isExpired in Hlive. rewrite He in Hlive.
      destruct s; try discriminate He.
      rewrite Z.gtb_ltb in Hlive. now apply Z.ltb_ge in Hlive.
  - intros key v ls' Hget. unfold getItem in Hget.
    destruct (localStorage_getItem V (_getPrefixedKey key) ls)
      as [[| | |item]|]; try discriminate Hget.
    destruct (expires item =? 0); [discriminate|].
    destruct (now >? expires item) eqn:E; [discriminate|].
    injection Hget as <- <-.
    split; [reflexivity|]. exists item.
    rewrite Z.gtb_ltb in E. apply Z.ltb_ge in E. auto.
Qed.

(** The bound [_cleanup] gives its scan, the number of entries at the
    start, is never what ends it: with any larger bound the scan does
    the same. *)
Lemma _cleanup_scan_fuel (fuel extra i : nat) (now : Z) (ls : Storage V)
  (keys : list (string * Z)) :
  (List.length (entries ls) <= i + fuel)%nat ->
  _cleanup_scan V (fuel + extra) i now ls keys =
  _cleanup_scan V fuel i now ls keys.
Proof.
  revert i ls keys.
  induction fuel as [|fuel IH]; intros i ls keys Hlen.
  - assert (Hend : nth_error (entries ls) i = None)
      by (apply nth_error_None; lia).
    destruct extra; cbn [Nat.add _cleanup_scan]; [reflexivity | now rewrite Hend].
  - cbn [Nat.add _cleanup_scan].
    destruct (nth_error (entries ls) i) as [[key s]|]; [|reflexivity].
    assert (Hkeep : forall keys', _cleanup_scan V (fuel + extra) (S i) now ls keys'
                                  = _cleanup_scan V fuel (S i) now ls keys')
      by (intros keys'; apply IH; lia).
    assert (Hdrop : forall keys',
              _cleanup_scan V (fuel + extra) (S i) now
                (localStorage_removeItem V key ls) keys'
              = _cleanup_scan V fuel (S i) now
                  (localStorage_removeItem V key ls) keys').
    { intros keys'. apply IH. cbn [entries localStorage_removeItem].
      unfold remove. pose proof (filter_length_le
        (fun kv : string * Stored V => negb (fst kv =? key)%string) (entries ls)).
      lia. }
    destruct (startsWith key keyPrefix); [|apply Hkeep].
    destruct s as [| | |item]; try apply Hkeep; [apply Hdrop|].
    destruct (expiry V (SItem item)); [|apply Hkeep].
    destruct (now >? z); [apply Hdrop | apply Hkeep].
Qed.

(** Reading an item stamped at [t >= 0]: returned up to and including
    [t + expiresAfter], removed after it. *)
Lemma getItem_stored (key : string) (v : V) (t : Z) (ls : Storage V) :
  localStorage_getItem V (_getPrefixedKey key) ls = Some (newItem V v t) ->
  0 <= t ->
  forall t',
    (t' <= t + expiresAfter -> getItem V t' key ls = (Some v, ls)) /\
    (t + expiresAfter < t' ->
     getItem V t' key ls =
       (None, localStorage_removeItem V (_getPrefixedKey key) ls)).
Proof.
  intros Hstored Ht t'.
  unfold getItem. rewrite Hstored. unfold newItem. cbn [expires value].
  assert (Hnz : (t + expiresAfter =? 0) = false)
    by (apply Z.eqb_neq; unfold expiresAfter; lia).
  rewrite Hnz. split; intros Hage.
  - assert (Hle : (t' >? t + expiresAfter) = false)
      by (rewrite Z.gtb_ltb; apply Z.ltb_ge; lia).
    now rewrite Hle.
  - assert (Hgt : (t' >? t + expiresAfter) = true)
      by (rewrite Z.gtb_ltb; apply Z.ltb_lt; lia).
    now rewrite Hgt.
Qed.

Lemma length_upsert_new (key : string) (s : Stored V)
  (l : list (string * Stored V)) :
  ~ In key (map fst l) -> List.length (upsert V key s l) = S (List.length l).
Proof.
  induction l as [|[k s'] l IH]; intros Hnew; simpl; [reflexivity|].
  destruct (k =? key)%string eqn:E.
  - apply String.eqb_eq in E. exfalso. apply Hnew. now left.
  - simpl. f_equal. apply IH. intros H. apply Hnew. now right.
Qed.

Lemma keys_upsert (key : string) (s : Stored V) (l : list (string * Stored V))
  (k : string) :
  In k (map fst (upsert V key s l)) -> k = key \/ In k (map fst l).
Proof.
  intros H. apply in_map_iff in H as [[k' s'] [<- Hin]].
  apply In_upsert in Hin as [[-> _]|Hin]; [now left|].
  right. now apply (in_map fst) in Hin.
Qed.

Lemma NoDup_keys_upsert (key : string) (s : Stored V)
  (l : list (string * Stored V)) :
  NoDup (map fst l) -> ~ In key (map fst l) ->
  NoDup (map fst (upsert V key s l)).
Proof.
  induction l as [|[k s'] l IH]; intros Hnd Hnew; simpl in *.
  - constructor; [intros [] | constructor].
  - inversion Hnd as [|? ? Hk Hnd']; subst.
    destruct (k =? key)%string eqn:E.
    + apply String.eqb_eq in E. exfalso. apply Hnew. now left.
    + simpl. constructor.
      * intros Hin. apply keys_upsert in Hin as [->|Hin]; [|contradiction].
        apply Hnew. now left.
      * apply IH; [exact Hnd' | intros H; apply Hnew; now right].
Qed.

Lemma prefixedKey_inj (a b : string) :
  _getPrefixedKey a = _getPrefixedKey b -> a = b.
Proof. unfold _getPrefixedKey, keyPrefix. simpl. now intros [= ->]. Qed.

Lemma length_cacheEntries (t0 : Z) (ls : Storage V) :
  filledFrom V t0 ls ->
  List.length (cacheEntries V ls) = List.length (entries ls).
Proof.
  intros Hfilled. unfold cacheEntries.
  assert (H : forall kv, In kv (entries ls) ->
                         startsWith (fst kv) keyPrefix = true)
    by (intros [k s] Hin; exact (proj1 (Hfilled k s Hin))).
  induction (entries ls) as [|kv l IH]; simpl; [reflexivity|].
  rewrite (H kv (or_introl eq_refl)). simpl. f_equal.
  apply IH. intros kv' Hin. apply H. now right.
Qed.

Lemma Permutation_insertByExpires (x : string * Z) (l : list (string * Z)) :
  Permutation (insertByExpires x l) (x :: l).
Proof.
  induction l as [|y l IH]; simpl; [apply Permutation_refl|].
  destruct (snd x <=? snd y); [apply Permutation_refl|].
  apply Permutation_trans with (y :: x :: l);
    [now apply perm_skip | apply perm_swap].
Qed.

Lemma Permutation_sortByExpires (l : list (string * Z)) :
  Permutation (sortByExpires l) l.
Proof.
  induction l as [|x l IH]; simpl; [apply Permutation_refl|].
  apply Permutation_trans with (x :: sortByExpires l);
    [apply Permutation_insertByExpires | now apply perm_skip].
Qed.

Lemma remove_absent (key : string) (l : list (string * Stored V)) :
  ~ In key (map fst l) -> remove V key l = l.
Proof.
  induction l as [|[k s] l IH]; intros Hnot; simpl; [reflexivity|].
  destruct (k =? key)%string eqn:E.
  - apply String.eqb_eq in E. exfalso. apply Hnot. now left.
  - simpl. f_equal. apply IH. intros H. apply Hnot. now right.
Qed.

Lemma length_remove (key : string) (l : list (string * Stored V)) :
  NoDup (map fst l) -> In key (map fst l) ->
  S (List.length (remove V key l)) = List.length l.
Proof.
  induction l as [|[k s] l IH]; intros Hnd Hin; simpl in *; [contradiction|].
  inversion Hnd as [|? ? Hk Hnd']; subst.
  destruct (k =? key)%string eqn:E; simpl.
  - apply String.eqb_eq in E. subst k. now rewrite remove_absent.
  - apply String.eqb_neq in E. destruct Hin as [?|Hin]; [contradiction|].
    f_equal. now apply IH.
Qed.

Lemma keys_remove (key : string) (l : list (string * Stored V)) (k : string) :
  In k (map fst (remove V key l)) <-> In k (map fst l) /\ k <> key.
Proof.
  rewrite !in_map_iff. split.
  - intros [[k' s] [<- Hin]]. apply In_remove in Hin as [Hin Hne].
    split; [now exists (k', s) | exact Hne].
  - intros [[[k' s] [<- Hin]] Hne]. exists (k', s).
    split; [reflexivity | now apply In_remove].
Qed.

Lemma NoDup_keys_remove (key : string) (l : list (string * Stored V)) :
  NoDup (map fst l) -> NoDup (map fst (remove V key l)).
Proof.
  induction l as [|[k s] l IH]; intros Hnd; simpl in *; [constructor|].
  inversion Hnd as [|? ? Hk Hnd']; subst.
  destruct (negb (k =? key)%string); simpl; [|now apply IH].
  constructor; [|now apply IH].
  intros Hin. apply Hk. now apply keys_remove in Hin as [Hin _].
Qed.

(** Removing distinct keys that are all present shortens the storage by
    their number. *)
Lemma removeAll_present (dk : list string) (ls : Storage V) :
  NoDup (map fst (entries ls)) -> NoDup dk ->
  (forall k, In k dk -> In k (map fst (entries ls))) ->
  (List.length (entries (removeAll V dk ls)) + List.length dk)%nat =
    List.length (entries ls) /\
  NoDup (map fst (entries (removeAll V dk ls))).
Proof.
  revert ls. unfold removeAll.
  induction dk as [|k dk IH]; intros ls Hnd Hdk Hin; simpl.
  - split; [lia | exact Hnd].
  - inversion Hdk as [|? ? Hk Hdk']; subst.
    destruct (IH (localStorage_removeItem V k ls)) as [Hlen Hnd'].
    + now apply NoDup_keys_remove.
    + exact Hdk'.
    + intros k' Hk'. simpl. apply keys_remove.
      split; [apply Hin; now right | intros ->; contradiction].
    + split; [|exact Hnd'].
      simpl in Hlen.
      pose proof (length_remove k (entries ls) Hnd (Hin k (or_introl eq_refl))).
      lia.
Qed.

(** On a storage that holds nothing but unexpired entries of the cache,
    the scan removes nothing and collects every key. *)
Lemma scan_filled (t0 now : Z) (fuel i : nat) (ls : Storage V)
  (keys : list (string * Z)) :
  0 <= t0 -> now <= t0 + expiresAfter -> filledFrom V t0 ls ->
  exists keys',
    _cleanup_scan V fuel i now ls keys = (ls, keys') /\
    map fst keys' =
      (map fst keys ++ map fst (firstn fuel (skipn i (entries ls))))%list.
Proof.
  intros Ht0 Hnow Hfilled. revert i keys.
  induction fuel as [|fuel IH]; intros i keys.
  - exists keys. split; [reflexivity | now rewrite app_nil_r].
  - cbn [_cleanup_scan].
    destruct (nth_error (entries ls) i) as [[key s]|] eqn:Hnth.
    + rewrite (skipn_nth_error _ _ _ Hnth). cbn [firstn map fst].
      destruct (Hfilled key s (nth_error_In _ _ Hnth)) as [Hown [item [-> Hexp]]].
      rewrite Hown. cbn [expiry].
      assert (Hnz : (expires item =? 0) = false)
        by (apply Z.eqb_neq; unfold expiresAfter in *; lia).
      assert (Hfresh : (now >? expires item) = false)
        by (rewrite Z.gtb_ltb; apply Z.ltb_ge; lia).
      rewrite Hnz, Hfresh.
      destruct (IH (S i) (keys ++ [(key, expires item)])%list)
        as [keys' [Heq Hkeys]].
      exists keys'. split; [exact Heq|].
      rewrite Hkeys, map_app, <- app_assoc. reflexivity.
    + exists keys. split; [reflexivity|].
      apply nth_error_None in Hnth.
      now rewrite (skipn_all2 _ Hnth), firstn_nil, app_nil_r.
Qed.

(** What [_cleanup] leaves of such a storage: at most [maxCacheSize]
    entries, all of them among those it found. *)
Lemma _cleanup_filled (t0 now : Z) (ls : Storage V) :
  0 <= t0 -> now <= t0 + expiresAfter -> filledFrom V t0 ls ->
  NoDup (map fst (entries ls)) ->
  filledFrom V t0 (_cleanup V now ls) /\
  NoDup (map fst (entries (_cleanup V now ls))) /\
  List.length (entries (_cleanup V now ls)) =
    Nat.min (List.length (entries ls)) maxCacheSize /\
  (forall k, In k (map fst (entries (_cleanup V now ls))) ->
             In k (map fst (entries ls))).
Proof.
  intros Ht0 Hnow Hfilled Hnd. unfold _cleanup.
  destruct (scan_filled t0 now (localStorage_length V ls) 0 ls [] Ht0 Hnow Hfilled)
    as [keys [-> Hkeys]].
  unfold localStorage_length in Hkeys.
  cbn [map app skipn] in Hkeys. rewrite firstn_all in Hkeys.
  assert (Hlen : List.length keys = List.length (entries ls))
    by (rewrite <- (length_map fst keys), Hkeys; apply length_map).
  destruct (maxCacheSize <? List.length keys)%nat eqn:Hover.
  - apply Nat.ltb_lt in Hover.
    set (dk := map fst (firstn (List.length keys - maxCacheSize)
                          (sortByExpires keys))).
    assert (Hsorted : Permutation (map fst (sortByExpires keys))
                                  (map fst (entries ls))).
    { rewrite <- Hkeys. apply Permutation_map, Permutation_sortByExpires. }
    assert (Hdk : NoDup dk).
    { subst dk. rewrite <- firstn_map. apply NoDup_firstn.
      apply (Permutation_NoDup (Permutation_sym Hsorted) Hnd). }
    assert (Hin : forall k, In k dk -> In k (map fst (entries ls))).
    { intros k Hk. subst dk. rewrite <- firstn_map in Hk.
      apply In_firstn in Hk. apply (Permutation_in _ Hsorted Hk). }
    assert (Hdklen : List.length dk = (List.length keys - maxCacheSize)%nat).
    { subst dk. rewrite length_map, length_firstn.
      rewrite (Permutation_length (Permutation_sortByExpires keys)). lia. }
    destruct (removeAll_present dk ls Hnd Hdk Hin) as [Hcount Hnd'].
    split; [|split; [exact Hnd' | split; [lia|]]].
    + intros k s H. apply In_removeAll in H as [H _]. now apply Hfilled.
    + intros k Hk. apply in_map_iff in Hk as [[k' s] [<- Hk]].
      apply In_removeAll in Hk as [Hk _]. now apply (in_map fst) in Hk.
  - apply Nat.ltb_ge in Hover.
    split; [exact Hfilled | split; [exact Hnd | split; [lia | auto]]].
Qed.

Section Writes.

Variable refuses : list (string * Stored V) -> string -> Stored V -> option Exn.

(** C6. When [localStorage.setItem] refuses the write of [setItem] with
    a quota error, [setItem] returns normally after exactly two write
    attempts; no cache entry other than the triggering one is left; it
    returns [true] with the triggering entry stored when the storage,
    cleared of the cache's entries, accepts the second attempt, and
    [false] with no cache entry left when it refuses that one too. *)
Theorem setItem_quota_retry (t_cleanup t_write t_retry : Z) (key : string)
  (value : V) (ls : Storage V) (err : Exn) :
  refuses (entries (_cleanup V t_cleanup ls)) (_getPrefixedKey key)
    (newItem V value t_write) = Some err ->
  _isQuotaExceededError err = true ->
  exists (b : bool) (ls' : Storage V),
    setItem V refuses t_cleanup t_write t_retry key value ls = (Normal b, ls') /\
    writes ls' = S (S (writes ls)) /\
    (forall k s, In (k, s) (entries ls') -> startsWith k keyPrefix = true ->
                 k = _getPrefixedKey key) /\
    (b = true <->
     refuses (entries (clearAll V (_cleanup V t_cleanup ls)))
       (_getPrefixedKey key) (newItem V value t_retry) = None) /\
    (b = true ->
     localStorage_getItem V (_getPrefixedKey key) ls' =
       Some (newItem V value t_retry)) /\
    (b = false -> cacheEntries V ls' = []).
Proof.
  intros Hrefused Hquota.
  unfold setItem, localStorage_setItem.
  rewrite Hrefused, Hquota.
  set (ls1 := _cleanup V t_cleanup ls).
  set (ls2 := {| entries := entries ls1; writes := S (writes ls1) |}).
  assert (Hcleared : entries (clearAll V ls2) = entries (clearAll V ls1))
    by (unfold clearAll; now rewrite !entries_removeAll).
  assert (Hwrites : writes (clearAll V ls2) = S (writes ls))
    by (rewrite clearAll_writes; subst ls2 ls1; simpl;
        now rewrite writes_cleanup).
  rewrite Hcleared.
  destruct (refuses (entries (clearAll V ls1)) (_getPrefixedKey key)
              (newItem V value t_retry)) as [retryErr|] eqn:Hretry.
  - exists false. eexists. split; [reflexivity|]. simpl.
    split; [now rewrite Hwrites|].
    split; [|split; [split; discriminate | split; [discriminate|]]].
    + intros k s Hin Hown.
      apply clearAll_own in Hin. congruence.
    + intros _. unfold cacheEntries. simpl.
      apply filter_none. intros [k s] Hin.
      now apply clearAll_own in Hin.
  - exists true. eexists. split; [reflexivity|]. simpl.
    split; [now rewrite Hwrites|].
    split; [|split; [tauto | split; [|discriminate]]].
    + intros k s Hin Hown.
      apply In_upsert in Hin as [[-> _]|Hin]; [reflexivity|].
      apply clearAll_own in Hin. congruence.
    + intros _. apply lookup_upsert.
Qed.

(** What a successful [setItem] leaves under the key: the item of the
    write that was accepted. *)
Lemma setItem_stored (t_cleanup t_write t_retry : Z) (key : string)
  (value : V) (ls ls' : Storage V) :
  setItem V refuses t_cleanup t_write t_retry key value ls = (Normal true, ls') ->
  localStorage_getItem V (_getPrefixedKey key) ls' =
    Some (newItem V value
            match refuses (entries (_cleanup V t_cleanup ls))
                    (_getPrefixedKey key) (newItem V value t_write) with
            | None => t_write
            | Some _ => t_retry
            end).
Proof.
  intros Hset. unfold setItem, localStorage_setItem in Hset.
  destruct (refuses (entries (_cleanup V t_cleanup ls)) (_getPrefixedKey key)
              (newItem V value t_write)) as [err|].
  - destruct (_isQuotaExceededError err); [|discriminate].
    destruct (refuses _ (_getPrefixedKey key) (newItem V value t_retry));
      [discriminate|].
    injection Hset as <-. apply lookup_upsert.
  - injection Hset as <-. apply lookup_upsert.
Qed.

(** C4, as the cache implements it.  An entry that [setItem] stored at
    clock reading [t] (that of the accepted write) is returned by
    [getItem] at every reading [t'] with [t' - t <= expiresAfter], the
    reading exactly [expiresAfter] later included; for
    [t' - t > expiresAfter] the entry is removed and nothing is
    returned. *)
Theorem getItem_within_ttl (t_cleanup t_write t_retry : Z) (key : string)
  (value : V) (ls ls' : Storage V) :
  0 <= t_write -> 0 <= t_retry ->
  setItem V refuses t_cleanup t_write t_retry key value ls = (Normal true, ls') ->
  let t :=
    match refuses (entries (_cleanup V t_cleanup ls)) (_getPrefixedKey key)
            (newItem V value t_write) with
    | None => t_write
    | Some _ => t_retry
    end in
  forall t',
    (t' - t <= expiresAfter -> getItem V t' key ls' = (Some value, ls')) /\
    (expiresAfter < t' - t ->
     getItem V t' key ls' =
       (None, localStorage_removeItem V (_getPrefixedKey key) ls')).
Proof.
  intros Hw Hr Hset t t'.
  pose proof (setItem_stored _ _ _ _ _ _ _ Hset) as Hstored.
  fold t in Hstored.
  assert (Ht : 0 <= t) by (subst t; destruct (refuses _ _ _); assumption).
  destruct (getItem_stored key value t ls' Hstored Ht t') as [Hin Hout].
  split; intros Hage; [apply Hin | apply Hout]; lia.
Qed.

(** One [setItem] on such a storage, with a key it does not hold. *)
Lemma setItem_filled (t0 t : Z) (key : string) (v : V) (ls : Storage V) :
  (forall l k s, refuses l k s = None) ->
  0 <= t0 -> t0 <= t <= t0 + expiresAfter ->
  filledFrom V t0 ls ->
  NoDup (map fst (entries ls)) ->
  ~ In (_getPrefixedKey key) (map fst (entries ls)) ->
  let ls' := snd (setItem V refuses t t t key v ls) in
  filledFrom V t0 ls' /\
  NoDup (map fst (entries ls')) /\
  List.length (entries ls') =
    S (Nat.min (List.length (entries ls)) maxCacheSize) /\
  (forall k, In k (map fst (entries ls')) ->
             k = _getPrefixedKey key \/ In k (map fst (entries ls))).
Proof.
  intros Hfree Ht0 [Hlo Hhi] Hfilled Hnd Hnew ls'.
  destruct (_cleanup_filled t0 t ls Ht0 Hhi Hfilled Hnd)
    as [Hf1 [Hnd1 [Hlen1 Hsub1]]].
  assert (Hnew1 : ~ In (_getPrefixedKey key)
                       (map fst (entries (_cleanup V t ls))))
    by (intros H; apply Hnew; now apply Hsub1).
  subst ls'. unfold setItem, localStorage_setItem. rewrite Hfree.
  cbn [snd entries].
  split; [|split; [|split]].
  - intros k s H.
    apply In_upsert in H as [[-> ->]|H]; [|now apply Hf1].
    split; [apply prefixedKey_own|].
    eexists. split; [reflexivity|]. cbn. lia.
  - now apply NoDup_keys_upsert.
  - rewrite length_upsert_new by exact Hnew1. now rewrite Hlen1.
  - intros k Hk. apply keys_upsert in Hk as [->|Hk]; [now left|].
    right. now apply Hsub1.
Qed.

Lemma setItems_filled (t0 : Z) (calls : list (Z * string * V)) (ls : Storage V) :
  (forall l k s, refuses l k s = None) ->
  0 <= t0 ->
  (forall t key v, In (t, key, v) calls -> t0 <= t <= t0 + expiresAfter) ->
  NoDup (map (fun c => snd (fst c)) calls) ->
  (forall t key v, In (t, key, v) calls ->
                   ~ In (_getPrefixedKey key) (map fst (entries ls))) ->
  filledFrom V t0 ls ->
  NoDup (map fst (entries ls)) ->
  (List.length (entries ls) <= S maxCacheSize)%nat ->
  filledFrom V t0 (setItems V refuses calls ls) /\
  List.length (entries (setItems V refuses calls ls)) =
    Nat.min (List.length (entries ls) + List.length calls) (S maxCacheSize).
Proof.
  intros Hfree Ht0.
  revert ls.
  induction calls as [|[[t key] v] calls IH];
    intros ls Htimes Hnodup Hnew Hfilled Hnd Hlen; cbn [setItems].
  - split; [exact Hfilled | cbn; lia].
  - inversion Hnodup as [|? ? Hfresh Hnodup']; subst. cbn in Hfresh.
    destruct (setItem_filled t0 t key v ls Hfree Ht0
                (Htimes t key v (or_introl eq_refl)) Hfilled Hnd
                (Hnew t key v (or_introl eq_refl)))
      as [Hf' [Hnd' [Hlen' Hsub']]].
    destruct (IH (snd (setItem V refuses t t t key v ls))) as [Hf'' Hlen''].
    + intros t' key' v' Hin. apply (Htimes t' key' v'). now right.
    + exact Hnodup'.
    + intros t' key' v' Hin Hold.
      apply Hsub' in Hold as [Heq|Hold].
      * apply prefixedKey_inj in Heq. subst key'.
        apply Hfresh. apply in_map_iff. now exists (t', key, v').
      * apply (Hnew t' key' v'); [now right | exact Hold].
    + exact Hf'.
    + exact Hnd'.
    + rewrite Hlen'. lia.
    + split; [exact Hf''|].
      rewrite Hlen'', Hlen'. cbn [List.length]. lia.
Qed.

(** Distinct keys stored within one expiry period into an empty cache
    that refuses nothing: all are kept up to [maxCacheSize + 1], and
    from then on [maxCacheSize + 1] entries are present after every
    write, since the cleanup trims to [maxCacheSize] before the write
    adds its entry. *)
Lemma setItems_count (t0 : Z) (calls : list (Z * string * V)) :
  (forall l k s, refuses l k s = None) ->
  0 <= t0 ->
  (forall t key v, In (t, key, v) calls -> t0 <= t <= t0 + expiresAfter) ->
  NoDup (map (fun c => snd (fst c)) calls) ->
  List.length (cacheEntries V (setItems V refuses calls emptyStorage)) =
    Nat.min (List.length calls) (S maxCacheSize).
Proof.
  intros Hfree Ht0 Htimes Hnodup.
  destruct (setItems_filled t0 calls emptyStorage Hfree Ht0 Htimes Hnodup)
    as [Hfilled Hcount].
  - intros t key v _ [].
  - intros k s [].
  - constructor.
  - cbn. lia.
  - rewrite (length_cacheEntries t0 _ Hfilled), Hcount. reflexivity.
Qed.

End Writes.

End Facts.

(** Storing "v" under "q" at time 0 and reading it 5 ms later. *)
Lemma getItem_within_ttl_witness :
  getItem string 5 "q" (snd (setItem string unlimited 0 0 0 "q" "v" emptyStorage))
  = (Some "v", snd (setItem string unlimited 0 0 0 "q" "v" emptyStorage)).
Proof.
  apply (getItem_within_ttl string unlimited 0 0 0 "q" "v" emptyStorage);
    [lia | lia | reflexivity | vm_compute; discriminate].
Defined.

(** C4 fails as stated: an entry stored at time 0 and read at exactly
    [expiresAfter] is still returned, and stays in the storage. *)
Lemma getItem_at_ttl_counterexample :
  let ls := snd (setItem string unlimited 0 0 0 "q" "v" emptyStorage) in
  fst (setItem string unlimited 0 0 0 "q" "v" emptyStorage) = Normal true /\
  expiresAfter - 0 >= expiresAfter /\
  getItem string expiresAfter "q" ls = (Some "v", ls).
Proof. vm_compute. repeat split. discriminate. Qed.

(** A read of entry "a" at a time when entry "b" has expired. *)
Lemma clearExpired_getItem_expiry_witness :
  (forall k s,
     In (k, s) (entries (clearExpired string (50 + expiresAfter) twoEntries)) ->
     startsWith k keyPrefix = true ->
     s <> SCorrupt /\
     forall e, expiry string s = Some e -> 50 + expiresAfter <= e) /\
  snd (getItem string (50 + expiresAfter) "a" twoEntries) = twoEntries.
Proof.
  destruct (clearExpired_getItem_expiry string (50 + expiresAfter) twoEntries)
    as [Hclear Hget].
  split; [exact Hclear|].
  now destruct (Hget "a" "va" twoEntries eq_refl) as [_ _].
Defined.

(** C7 fails as stated: [getItem] returns the value of entry "a" while
    entry "b", whose expiry has passed, is still in the storage. *)
Lemma getItem_leaves_expired_counterexample :
  let now := 50 + expiresAfter in
  getItem string now "a" twoEntries = (Some "va", twoEntries) /\
  In ("CCFrank4dblp_b", stamped "vb" 5) (entries twoEntries) /\
  5 + expiresAfter < now.
Proof.
  split; [reflexivity | split; [|reflexivity]].
  right. right. now left.
Qed.

(** A full storage: the first write is refused, the cache's two entries
    are cleared and the retry is accepted. *)
Lemma setItem_quota_retry_witness :
  setItem string smallQuota 200 200 200 "q" "v" twoEntries =
  (Normal true,
   mkStorage [("theme", SOther);
              ("CCFrank4dblp_q", newItem string "v" 200)] 4).
Proof.
  destruct (setItem_quota_retry string smallQuota 200 200 200 "q" "v"
              twoEntries (DOMException "QuotaExceededError")
              eq_refl eq_refl) as [b [ls' [Heq _]]].
  reflexivity.
Defined.

(** The scan of [_cleanup] removes inside its index loop: of two expired
    entries next to each other it removes the first and, the second
    having moved into its place, steps over that one; [clearExpired],
    which collects the keys first, removes both. *)
Lemma _cleanup_steps_over :
  entries (_cleanup string (1 + expiresAfter) twoStale) =
    [("CCFrank4dblp_b", stamped "vb" 0)] /\
  entries (clearExpired string (1 + expiresAfter) twoStale) = [].
Proof. split; reflexivity. Qed.

Lemma binaryKey_nonempty (p : positive) : binaryKey p <> "".
Proof. destruct p; discriminate. Qed.

Lemma binaryKey_inj (p q : positive) : binaryKey p = binaryKey q -> p = q.
Proof.
  revert q.
  induction p as [p IH|p IH|]; intros [q|q|]; simpl; intros H;
    try discriminate H; try reflexivity.
  - injection H as H. f_equal. now apply IH.
  - injection H as H. now apply binaryKey_nonempty in H.
  - injection H as H. f_equal. now apply IH.
  - injection H as H. symmetry in H. now apply binaryKey_nonempty in H.
Qed.

Lemma distinctCalls_count (n : nat) :
  List.length
    (cacheEntries nat (setItems nat unlimited (distinctCalls n) emptyStorage))
  = Nat.min n (S maxCacheSize).
Proof.
  assert (Hlen : List.length (distinctCalls n) = n)
    by (unfold distinctCalls; now rewrite length_map, length_seq).
  rewrite (setItems_count nat unlimited 0); [now rewrite Hlen | reflexivity | lia | | ].
  - intros t key v Hin. unfold distinctCalls in Hin.
    apply in_map_iff in Hin as [i [[= <- _ _] _]].
    unfold expiresAfter. lia.
  - unfold distinctCalls. rewrite map_map.
    apply Injective_map_NoDup; [|apply seq_NoDup].
    intros i j H. cbn [fst snd] in H.
    apply binaryKey_inj in H. now apply SuccNat2Pos.inj in H.
Qed.

(** C3, where the code departs from it: [maxCacheSize + k] entries with
    distinct keys, for any [k >= 1], stored at one time into an empty
    cache that refuses nothing, leave [maxCacheSize + 1] entries
    present, one more than [maxCacheSize]. *)
Theorem setItem_exceeds_maxCacheSize (k : nat) :
  List.length
    (cacheEntries nat
       (setItems nat unlimited (distinctCalls (maxCacheSize + S k))
          emptyStorage))
  = S maxCacheSize.
Proof. rewrite distinctCalls_count. lia. Qed.

End CacheFacts.



(** ** The umbrella journal (PACM PL) *)
Module PacmPlFacts.
Import JS APIService Samples.

Lemma firstNumber_found (resp : Hits) (s : string) (n i0 i : nat) :
  (i0 <= i < i0 + n)%nat ->
  (forall j, (i0 <= j < i)%nat -> hitNumber resp j = None) ->
  hitNumber resp i = Some s ->
  firstNumber n i0 resp = toLowerCase s.
Proof.
  revert i0.
  induction n as [|n IH]; intros i0 Hi Hbefore Hat; [lia|].
  simpl.
  destruct (Nat.eq_dec i0 i) as [->|Hne].
  - now rewrite Hat.
  - rewrite (Hbefore i0) by lia.
    apply IH; [lia | | exact Hat].
    intros j Hj. apply Hbefore. lia.
Qed.

Lemma firstNumber_none (resp : Hits) (n i0 : nat) :
  (forall j, (i0 <= j < i0 + n)%nat -> hitNumber resp j = None) ->
  firstNumber n i0 resp = "".
Proof.
  revert i0.
  induction n as [|n IH]; intros i0 Hnone; [reflexivity|].
  simpl. rewrite (Hnone i0) by lia.
  apply IH. intros j Hj. apply Hnone. lia.
Qed.

(** When the resolved path is /journals/pacmpl/pacmpl, the rank is
    looked up under what [processPacmPlJournal] returns, and that is
    decided by the first hit (among the first [@sent]) with a non-empty
    issue number: lower-cased and read from the alias table, an issue
    number that lower-cases to "oopsla2" giving /conf/oopsla/oopsla and
    one for which the read yields nothing giving the umbrella path
    itself; with no issue number at all the umbrella path is returned. *)
Lemma processPacmPlJournal_alias (resp : Hits) :
  (forall flag d,
     annotate (Some "/journals/pacmpl/pacmpl") flag resp d =
     (PacmPlBranch, getRankByProperty (processPacmPlJournal resp) d)) /\
  (forall i s,
     (i < sentCount resp)%nat ->
     (forall j, (j < i)%nat -> hitNumber resp j = None) ->
     hitNumber resp i = Some s ->
     processPacmPlJournal resp =
       match PACM_PL_CONFERENCE_MAP_get (toLowerCase s) with
       | Some p => p
       | None => OwnString "/journals/pacmpl/pacmpl"
       end /\
     (toLowerCase s = "oopsla2" ->
      processPacmPlJournal resp = OwnString "/conf/oopsla/oopsla") /\
     (PACM_PL_CONFERENCE_MAP_get (toLowerCase s) = None ->
      processPacmPlJournal resp = OwnString "/journals/pacmpl/pacmpl")) /\
  ((forall j, (j < sentCount resp)%nat -> hitNumber resp j = None) ->
   processPacmPlJournal resp = OwnString "/journals/pacmpl/pacmpl").
Proof.
  split; [reflexivity | split].
  - intros i s Hi Hbefore Hat.
    assert (Hfirst : firstNumber (sentCount resp) 0 resp = toLowerCase s).
    { apply firstNumber_found with (i := i); [lia | | exact Hat].
      intros j Hj. apply Hbefore. lia. }
    unfold processPacmPlJournal. rewrite Hfirst.
    split; [reflexivity | split].
    + intros ->. reflexivity.
    + intros ->. reflexivity.
  - intros Hnone.
    unfold processPacmPlJournal.
    rewrite firstNumber_none; [reflexivity|].
    intros j Hj. apply Hnone. lia.
Qed.

(** The alias step on a response whose second hit carries the issue
    number "OOPSLA2". *)
Lemma processPacmPlJournal_oopsla2 :
  processPacmPlJournal examplePacmPl = OwnString "/conf/oopsla/oopsla".
Proof.
  destruct (processPacmPlJournal_alias examplePacmPl) as [_ [H _]].
  destruct (H 1%nat "OOPSLA2") as [_ [Halias _]].
  - vm_compute. lia.
  - intros j Hj. assert (j = 0%nat) as -> by lia. reflexivity.
  - reflexivity.
  - apply Halias. reflexivity.
Qed.

(** C8, where the code departs from it.  The alias table is a plain
    object, so reading it under the lower-cased issue number also finds
    the members it inherits from [Object.prototype].  When the first
    issue number lower-cases to the name of such a member (only
    "constructor" and "__proto__" are written in lower case), a name
    that is absent from the alias table, [processPacmPlJournal] returns
    the inherited member instead of the umbrella path, and the rank
    lookup on it throws.  So it is for the issue number
    "Constructor". *)
Theorem processPacmPlJournal_inherited_member :
  (forall (resp : Hits) (i : nat) (s : string),
     (i < sentCount resp)%nat ->
     (forall j, (j < i)%nat -> hitNumber resp j = None) ->
     hitNumber resp i = Some s ->
     assoc (toLowerCase s) PACM_PL_CONFERENCE_MAP = None ->
     In (toLowerCase s) objectPrototypeMembers ->
     processPacmPlJournal resp = Inherited (toLowerCase s) /\
     forall flag d,
       annotate (Some "/journals/pacmpl/pacmpl") flag resp d =
       (PacmPlBranch, Throw TypeError)) /\
  (assoc (toLowerCase "Constructor") PACM_PL_CONFERENCE_MAP = None /\
   processPacmPlJournal memberPacmPl = Inherited "constructor" /\
   processPacmPlJournal memberPacmPl <> OwnString "/journals/pacmpl/pacmpl" /\
   forall d,
     fetchFromCache
       (mkCached (Some "/journals/pacmpl/pacmpl") memberPacmPl (Some true)) d =
     (PacmPlBranch, Throw TypeError)).
Proof.
  split.
  - intros resp i s Hi Hbefore Hat Habsent Hmember.
    assert (Hfirst : firstNumber (sentCount resp) 0 resp = toLowerCase s).
    { apply firstNumber_found with (i := i); [lia | | exact Hat].
      intros j Hj. apply Hbefore. lia. }
    assert (Hret : processPacmPlJournal resp = Inherited (toLowerCase s)).
    { unfold processPacmPlJournal, PACM_PL_CONFERENCE_MAP_get.
      rewrite Hfirst, Habsent.
      assert (Hex : existsb (fun m => (m =? toLowerCase s)%string)
                      objectPrototypeMembers = true).
      { apply existsb_exists. exists (toLowerCase s).
        split; [exact Hmember | apply String.eqb_refl]. }
      now rewrite Hex. }
    split; [exact Hret|].
    intros flag d. unfold annotate.
    rewrite String.eqb_refl, Hret. reflexivity.
  - split; [reflexivity|]. split; [reflexivity|].
    split; [discriminate | reflexivity].
Qed.

End PacmPlFacts.
(** ** Candidate resolution *)
Module ResolverFacts.
Import JS APIService Conditions Samples ListFacts.

Lemma strictEq_true (a b : Json) : strictEq a b = true <-> a = b.
Proof.
  destruct a as [m|s], b as [n|t]; simpl.
  - rewrite Z.eqb_eq. split; congruence.
  - split; discriminate.
  - split; discriminate.
  - rewrite String.eqb_eq. split; congruence.
Qed.

Lemma strictEq_false (a b : Json) : strictEq a b = false <-> a <> b.
Proof.
  rewrite <- strictEq_true. now destruct (strictEq a b).
Qed.

(** The index loop reads the first [n] hits from index [h] on. *)
Lemma findBestMatch_loop_matchHits (resp : Hits) (target : option Z)
  (n h : nat) (u : string) (y : Json) :
  (h + n <= List.length (hit resp))%nat ->
  findBestMatch_loop n h resp target u y =
  matchHits target (firstn n (skipn h (hit resp))) u y.
Proof.
  revert h u y.
  induction n as [|n IH]; intros h u y Hlen; [reflexivity|].
  destruct (nth_error (hit resp) h) as [x|] eqn:Hnth;
    [|apply nth_error_None in Hnth; lia].
  rewrite (skipn_nth_error _ _ _ Hnth).
  cbn [findBestMatch_loop firstn matchHits]. rewrite Hnth.
  destruct x as [[inf|]]; [|reflexivity].
  destruct (type inf =? "Informal Publications")%string; [apply IH; lia|].
  destruct (firstAuthor (authors inf)); [|reflexivity].
  destruct (withinOne target (year inf) && negb (strictEq (year inf) y));
    [|apply IH; lia].
  destruct (isTarget target 1 (year inf)); [apply IH; lia|].
  destruct (isTarget target 0 (year inf)); [reflexivity|].
  destruct (u =? "")%string; apply IH; lia.
Qed.

Lemma findBestMatch_matchHits (resp : Hits) (author year : string) :
  (sentCount resp <= List.length (hit resp))%nat ->
  findBestMatch resp author year =
  matchHits (Number year) (firstn (sentCount resp) (hit resp)) ""
    (JNumber 0).
Proof.
  intros Hlen. unfold findBestMatch.
  now rewrite findBestMatch_loop_matchHits.
Qed.

(** With the years as numbers, the loop follows the tie-break
    policy. *)
Lemma matchHits_tieBreak (t : Z) (hits : list Hit) (adopted : option string)
  (last : option Z) (u : string) (y : Json) :
  forallb readable hits = true ->
  encodes adopted last u y ->
  matchHits (Some t) hits u y =
  Normal (match tieBreak t hits adopted last with
          | Some p => p
          | None => ""
          end).
Proof.
  revert adopted last u y.
  induction hits as [|[[inf|]] hits IH]; intros adopted last u y Hr Henc.
  - simpl. destruct Henc as [Ha _].
    destruct adopted as [p|]; [now destruct Ha as [-> _] | now subst].
  - cbn [forallb] in Hr. apply andb_prop in Hr as [Hh Hr].
    cbn [matchHits tieBreak info]. unfold readable, informal in *.
    cbn [info] in *.
    destruct (type inf =? "Informal Publications")%string; [now apply IH|].
    cbn [orb] in Hh.
    apply andb_prop in Hh as [Hh Hpath]. apply andb_prop in Hh as [Hauth Hyear].
    destruct (firstAuthor (authors inf)); [|discriminate].
    destruct (year inf) as [y0|s] eqn:Hy0; [|discriminate].
    apply negb_true_iff in Hyear, Hpath.
    apply Z.eqb_neq in Hyear. apply String.eqb_neq in Hpath.
    destruct Henc as [Ha Hl].
    assert (Hdiff : negb (strictEq (JNumber y0) y) =
                    match last with
                    | Some y' => negb (y0 =? y')
                    | None => true
                    end).
    { destruct last as [y'|]; [now destruct Hl as [-> _]|].
      subst y. cbn [strictEq]. apply negb_true_iff. now apply Z.eqb_neq. }
    cbn [withinOne isTarget toNumber strictEqNumber option_map].
    rewrite Hdiff, Z.add_0_r.
    destruct ((Z.abs (t - y0) <=? 1) &&
              match last with
              | Some y' => negb (y0 =? y')
              | None => true
              end); [|apply IH; [exact Hr | now split]].
    destruct (y0 =? t + 1).
    { apply IH; [exact Hr | repeat split; assumption]. }
    destruct (y0 =? t); [reflexivity|].
    destruct adopted as [p|].
    + destruct Ha as [-> Hp].
      apply String.eqb_neq in Hp. rewrite Hp.
      apply String.eqb_neq in Hp.
      apply IH; [exact Hr | repeat split; assumption].
    + subst u. cbn [String.eqb].
      apply IH; [exact Hr | repeat split; assumption].
  - discriminate Hr.
Qed.

(** On a response whose years are numbers and whose sent hits are all
    readable, [findBestMatch] returns the venue path that the tie-break
    policy adopts. *)
Lemma findBestMatch_number_years (resp : Hits) (author year : string)
  (t : Z) :
  Number year = Some t ->
  (sentCount resp <= List.length (hit resp))%nat ->
  forallb readable (firstn (sentCount resp) (hit resp)) = true ->
  findBestMatch resp author year =
  Normal (tieBreakPath t (firstn (sentCount resp) (hit resp))).
Proof.
  intros Hnum Hlen Hread.
  rewrite (findBestMatch_matchHits _ _ _ Hlen), Hnum.
  now apply matchHits_tieBreak.
Qed.

(** With the years as strings, neither strict test on the year is ever
    true: a path once adopted is kept to the end. *)
Lemma matchHits_keeps (t : Z) (hits : list Hit) (u : string) (y : Json) :
  u <> "" ->
  forallb readableString hits = true ->
  matchHits (Some t) hits u y = Normal u.
Proof.
  intros Hu. revert y.
  induction hits as [|[[inf|]] hits IH]; intros y Hr; [reflexivity| |].
  - cbn [forallb] in Hr. apply andb_prop in Hr as [Hh Hr].
    cbn [matchHits]. unfold readableString, informal in Hh.
    cbn [info] in Hh.
    destruct (type inf =? "Informal Publications")%string; [now apply IH|].
    cbn [orb] in Hh.
    apply andb_prop in Hh as [Hh _]. apply andb_prop in Hh as [Hauth Hyear].
    destruct (firstAuthor (authors inf)); [|discriminate].
    destruct (year inf) as [y0|s]; [discriminate|].
    cbn [isTarget strictEqNumber].
    destruct (withinOne (Some t) (JString s) && negb (strictEq (JString s) y));
      [|now apply IH].
    apply String.eqb_neq in Hu. rewrite Hu. now apply IH.
  - discriminate Hr.
Qed.

(** With the years as strings, the first hit within the window that is
    not informal decides. *)
Lemma matchHits_firstInWindow (t : Z) (hits : list Hit) :
  forallb readableString hits = true ->
  matchHits (Some t) hits "" (JNumber 0) = Normal (firstInWindow t hits).
Proof.
  induction hits as [|[[inf|]] hits IH]; intros Hr; [reflexivity| |].
  - cbn [forallb] in Hr. apply andb_prop in Hr as [Hh Hr].
    cbn [matchHits firstInWindow info]. unfold readableString, informal in *.
    cbn [info] in *.
    destruct (type inf =? "Informal Publications")%string;
      cbn [negb andb]; [now apply IH|].
    cbn [orb] in Hh.
    apply andb_prop in Hh as [Hh Hpath]. apply andb_prop in Hh as [Hauth Hyear].
    destruct (firstAuthor (authors inf)); [|discriminate].
    destruct (year inf) as [y0|s]; [discriminate|].
    cbn [isTarget strictEqNumber strictEq negb]. rewrite andb_true_r.
    destruct (withinOne (Some t) (JString s)); [|now apply IH].
    cbn [String.eqb].
    apply negb_true_iff, String.eqb_neq in Hpath.
    now apply matchHits_keeps.
  - discriminate Hr.
Qed.

(** C1, where the code departs from it.  [findBestMatch] tests the year
    of a hit against the target year with [===], and the year of a hit
    is what [JSON.parse] made of the response: a string, in the
    responses of dblp.  On a response whose sent hits are readable and
    carry their years as strings neither the test for the following
    year nor the one for the target year is ever true, and the path
    returned is that of the first hit in the window that is not
    informal.  For the three hits with URLs ending in /p/c21, /p/b20
    and /p/a19, of years "2021", "2020" and "2019", and the target
    year "2020", the path returned is that of the URL ending in /p/c21,
    and with the hits in the reverse order that of the URL ending in
    /p/a19; the tie-break policy adopts that of /p/b20 in both. *)
Theorem findBestMatch_first_in_window :
  (forall (resp : Hits) (author year : string) (t : Z),
     Number year = Some t ->
     (sentCount resp <= List.length (hit resp))%nat ->
     forallb readableString (firstn (sentCount resp) (hit resp)) = true ->
     findBestMatch resp author year =
     Normal (firstInWindow t (firstn (sentCount resp) (hit resp)))) /\
  (let resp :=
     threeDblpHits "2021" "2020" "2019"
       "https://dblp.org/rec/conf/x3/p/c21"
       "https://dblp.org/rec/conf/x2/p/b20"
       "https://dblp.org/rec/conf/x1/p/a19" in
   findBestMatch resp "Author" "2020" = Normal "/conf/x3/p" /\
   tieBreakPath 2020 (hit resp) = "/conf/x2/p") /\
  (let resp :=
     threeDblpHits "2019" "2020" "2021"
       "https://dblp.org/rec/conf/x1/p/a19"
       "https://dblp.org/rec/conf/x2/p/b20"
       "https://dblp.org/rec/conf/x3/p/c21" in
   findBestMatch resp "Author" "2020" = Normal "/conf/x1/p" /\
   tieBreakPath 2020 (hit resp) = "/conf/x2/p").
Proof.
  split.
  - intros resp author year t Hnum Hlen Hread.
    rewrite (findBestMatch_matchHits _ _ _ Hlen), Hnum.
    now apply matchHits_firstInWindow.
  - split; split; reflexivity.
Qed.

(** The same three hits with their years as numbers: the path of the
    URL ending in /p/b20 is returned. *)
Lemma findBestMatch_number_years_example :
  findBestMatch
    (threeHits 2021 2020 2019 "https://dblp.org/rec/conf/x3/p/c21"
       "https://dblp.org/rec/conf/x2/p/b20"
       "https://dblp.org/rec/conf/x1/p/a19")
    "Author" "2020" = Normal "/conf/x2/p".
Proof.
  exact (findBestMatch_number_years
           (threeHits 2021 2020 2019 "https://dblp.org/rec/conf/x3/p/c21"
              "https://dblp.org/rec/conf/x2/p/b20"
              "https://dblp.org/rec/conf/x1/p/a19")
           "Author" "2020" 2020 eq_refl (le_n 3) eq_refl).
Qed.





(** A scan without a candidate ends with the path it started with, or
    throws. *)
Lemma findBestMatch_loop_no_candidate (resp : Hits) (target : option Z)
  (n h : nat) (u : string) (y : Json) :
  (forall x inf, In x (hit resp) -> info x = Some inf -> informal x = false ->
                 withinOne target (year inf) = false) ->
  findBestMatch_loop n h resp target u y = Normal u \/
  exists e, findBestMatch_loop n h resp target u y = Throw e.
Proof.
  intros Hout. revert h.
  induction n as [|n IH]; intros h; [now left|].
  cbn [findBestMatch_loop].
  destruct (nth_error (hit resp) h) as [[[inf|]]|] eqn:Hnth;
    [|right; now eexists|right; now eexists].
  pose proof (Hout _ inf (nth_error_In _ _ Hnth) eq_refl) as Hw.
  unfold informal in Hw. cbn [info] in Hw.
  destruct (type inf =? "Informal Publications")%string; [apply IH|].
  destruct (firstAuthor (authors inf)); [|right; now eexists].
  rewrite (Hw eq_refl). apply IH.
Qed.

(** What a scan returns is the path it started with or the venue path
    of a hit. *)
Lemma findBestMatch_loop_fromHit (resp : Hits) (target : option Z)
  (n h : nat) (u : string) (y : Json) (r : string) :
  u = "" \/ fromHit resp u ->
  findBestMatch_loop n h resp target u y = Normal r ->
  r = "" \/ fromHit resp r.
Proof.
  revert h u y.
  induction n as [|n IH]; intros h u y Hu Hrun; cbn [findBestMatch_loop] in Hrun.
  - now injection Hrun as <-.
  - destruct (nth_error (hit resp) h) as [[[inf|]]|] eqn:Hnth;
      try discriminate Hrun.
    assert (Hhit : fromHit resp (venuePath (url inf))).
    { exists {| info := Some inf |}, inf.
      split; [exact (nth_error_In _ _ Hnth) | now split]. }
    destruct (type inf =? "Informal Publications")%string; [now apply IH in Hrun|].
    destruct (firstAuthor (authors inf)); [|discriminate Hrun].
    destruct (withinOne target (year inf) && negb (strictEq (year inf) y));
      [|now apply IH in Hrun].
    destruct (isTarget target 1 (year inf));
      [apply IH in Hrun; [exact Hrun | now right]|].
    destruct (isTarget target 0 (year inf));
      [injection Hrun as <-; now right|].
    destruct (u =? "")%string;
      [apply IH in Hrun; [exact Hrun | now right] | now apply IH in Hrun].
Qed.

Section Handler.

Variable refuses :
  list (string * CacheService.Stored Cached) -> string ->
  CacheService.Stored Cached -> option Exn.

(** C10. The handler never takes the abbreviation arm; what it hands to
    the cache carries a string as [dblp_url] (the empty string, the
    venue path of a hit or the path of a table record), the one its own
    test ran on, so [fetchFromCache] on that object, which is what the
    cache returns for the query until it expires, takes the same arm,
    never the abbreviation one.  A response with several hits none of
    which is a formal publication within one year of the target appends
    no rank. *)
Theorem abbreviation_branch_unreachable (t_cleanup t_write t_retry : Z)
  (query_url : string) (resp : Hits) (author target : string)
  (d : CCFData.CCFData) (ls : CacheService.Storage Cached) :
  let r := fetchFromDblpApi refuses t_cleanup t_write t_retry query_url resp
             author target d ls in
  branch r <> AbbrBranch /\
  (forall cached,
     written r = Some cached ->
     (exists s,
        cached = mkCached (Some s) resp (Some true) /\
        (s = "" \/ fromHit resp s \/
         exists found entry,
           CCFData.getRankByUrl found d = Some entry /\
           s = CCFData.url entry)) /\
     storage r =
       snd (CacheService.setItem Cached refuses t_cleanup t_write t_retry
              query_url cached ls) /\
     fst (fetchFromCache cached d) = branch r /\
     fst (fetchFromCache cached d) <> AbbrBranch /\
     (forall ls' t',
        CacheService.setItem Cached refuses t_cleanup t_write t_retry
          query_url cached ls = (Normal true, ls') ->
        0 <= t_write -> 0 <= t_retry ->
        t' <= Z.min t_write t_retry + CacheService.expiresAfter ->
        CacheService.getItem Cached t' query_url ls' = (Some cached, ls'))) /\
  (total resp <> JNumber 0 -> total resp <> JNumber 1 ->
   (forall x inf, In x (hit resp) -> info x = Some inf -> informal x = false ->
                  withinOne (Number target) (year inf) = false) ->
   appended r = None /\ branch r = NoBranch /\
   forall cached,
     written r = Some cached ->
     cached = mkCached (Some "") resp (Some true) /\
     fetchFromCache cached d = (NoBranch, Normal None)).
Proof.
  intros r.
  assert (Hstring : forall s f,
            fst (annotate (Some s) f resp d) <> AbbrBranch).
  { intros s f. unfold annotate.
    destruct (s =? "/journals/pacmpl/pacmpl")%string; [discriminate|].
    destruct (s =? "")%string; discriminate. }
  subst r. unfold fetchFromDblpApi.
  destruct (strictEq (total resp) (JNumber 0)) eqn:H0.
  { cbn. split; [discriminate | split; [intros cached H; discriminate H|]].
    intros Hne. apply strictEq_true in H0. contradiction. }
  destruct (resolve resp author target) as [found|e] eqn:Hres.
  2:{ cbn. split; [discriminate | split; [intros cached H; discriminate H|]].
      intros _ _ _. split; [reflexivity | split; [reflexivity|]].
      intros cached H. discriminate H. }
  set (s := match CCFData.getRankByUrl found d with
            | Some entry =>
                if (CCFData.url entry =? "")%string then found
                else CCFData.url entry
            | None => found
            end).
  assert (Hfound : found = "" \/ fromHit resp found).
  { unfold resolve in Hres. destruct (strictEq (total resp) (JNumber 1)).
    - destruct (nth_error (hit resp) 0) as [[[inf|]]|] eqn:Hnth;
        try discriminate Hres.
      injection Hres as <-. right.
      exists {| info := Some inf |}, inf.
      split; [exact (nth_error_In _ _ Hnth) | now split].
    - unfold findBestMatch in Hres.
      apply (findBestMatch_loop_fromHit _ _ _ _ _ _ _ (or_introl eq_refl) Hres). }
  assert (Hsource :
    s = "" \/ fromHit resp s \/
    exists found' entry,
      CCFData.getRankByUrl found' d = Some entry /\ s = CCFData.url entry).
  { subst s. destruct (CCFData.getRankByUrl found d) as [entry|] eqn:Hrank.
    - destruct (CCFData.url entry =? "")%string.
      + destruct Hfound as [?|?]; [now left | right; now left].
      + right. right. now exists found, entry.
    - destruct Hfound as [?|?]; [now left | right; now left]. }
  pose proof (Hstring s (Some true)) as Hs.
  destruct (annotate (Some s) (Some true) resp d) as [b c] eqn:Harm.
  cbn [branch written storage appended fst] in *.
  split; [exact Hs | split].
  - intros cached [= <-].
    unfold fetchFromCache. cbn [dblp_url flag APIService.resp].
    rewrite Harm. cbn [fst].
    split; [exists s; split; [reflexivity | exact Hsource]|].
    split; [reflexivity | split; [reflexivity|]].
    split; [exact Hs|].
    intros ls' t' Hset Hw Hr Hage.
    pose proof (CacheFacts.setItem_stored _ _ _ _ _ _ _ _ _ Hset) as Hstored.
    apply (CacheFacts.getItem_stored _ _ _ _ _ Hstored).
    + destruct (refuses _ _ _); assumption.
    + destruct (refuses _ _ _); lia.
  - intros _ H1 Hout.
    assert (Hnone : found = "").
    { unfold resolve in Hres.
      apply strictEq_false in H1. rewrite H1 in Hres.
      unfold findBestMatch in Hres.
      destruct (findBestMatch_loop_no_candidate resp (Number target)
                  (sentCount resp) 0 "" (JNumber 0) Hout) as [Hn|[e He]];
        congruence. }
    assert (Hempty : s = "") by (subst s found; reflexivity).
    clear Hsource.
    rewrite Hempty in Harm. cbn in Harm. injection Harm as <- <-.
    split; [reflexivity | split; [reflexivity|]].
    intros cached [= <-]. rewrite Hempty. now split.
Qed.

End Handler.

(** Three hits of 2019 to 2021 for a paper sought under the year 1990:
    an empty path is cached and nothing is appended. *)
Lemma abbreviation_branch_unreachable_witness :
  let r := fetchFromDblpApi unlimited 0 0 0 "query"
             (threeHits 2019 2020 2021 "https://dblp.org/rec/conf/p/a19"
                "https://dblp.org/rec/conf/q/b20"
                "https://dblp.org/rec/conf/r/c21")
             "Author" "1990" CCFData.ccfData emptyStorage in
  appended r = None /\ branch r = NoBranch.
Proof.
  intros r.
  destruct (abbreviation_branch_unreachable unlimited 0 0 0 "query"
              (threeHits 2019 2020 2021 "https://dblp.org/rec/conf/p/a19"
                 "https://dblp.org/rec/conf/q/b20"
                 "https://dblp.org/rec/conf/r/c21")
              "Author" "1990" CCFData.ccfData emptyStorage)
    as [_ [_ Hnone]].
  destruct Hnone as [Happ [Hbr _]]; [discriminate | discriminate | |].
  - intros x inf [<-|[<-|[<-|[]]]] [= <-] _; reflexivity.
  - now split.
Defined.

End ResolverFacts.

(** ** Strings: positions and substrings of concatenations *)
Module StringFacts.
Import JS.

Lemma length_append (a b : string) :
  String.length (a ++ b) = (String.length a + String.length b)%nat.
Proof. induction a as [|c a IH]; simpl; [reflexivity | now rewrite IH]. Qed.

Lemma len_append (a b : string) : len (a ++ b) = len a + len b.
Proof. unfold len. rewrite length_append. lia. Qed.

Lemma len_nonneg (s : string) : 0 <= len s.
Proof. unfold len. lia. Qed.

Lemma len_String (c : ascii) (s : string) : len (String c s) = 1 + len s.
Proof. unfold len. cbn [String.length]. lia. Qed.

Lemma len_empty : len "" = 0.
Proof. reflexivity. Qed.

Lemma append_assoc (a b c : string) : ((a ++ b) ++ c = a ++ b ++ c)%string.
Proof. induction a as [|x a IH]; simpl; [reflexivity | now rewrite IH]. Qed.

Lemma prefix_refl_append (p s : string) : String.prefix p (p ++ s) = true.
Proof.
  induction p as [|c p IH]; simpl; [now destruct s|].
  destruct (Ascii.ascii_dec c c); [exact IH | congruence].
Qed.

(** A prefix that fits into the first part of a concatenation is a
    prefix of that part. *)
Lemma prefix_within (p s r : string) :
  String.prefix p (s ++ r) = true ->
  (String.length p <= String.length s)%nat ->
  String.prefix p s = true.
Proof.
  revert s. induction p as [|c p IH]; intros s H Hlen.
  - now destruct s.
  - destruct s as [|c' s]; simpl in *; [lia|].
    destruct (Ascii.ascii_dec c c'); [|discriminate].
    apply IH; [exact H | lia].
Qed.

Lemma indexOf_from_eq (pat s : string) (i : Z) :
  indexOf_from pat s i =
  if String.prefix pat s then i
  else match s with
       | EmptyString => -1
       | String _ s' => indexOf_from pat s' (i + 1)
       end.
Proof. destruct s; reflexivity. Qed.

(** If the first occurrence of [pat] in [pre ++ pat] is the one at the
    end, it is also the first in whatever [pre ++ pat] is extended to. *)
Lemma indexOf_from_first (pat pre rest : string) (i : Z) :
  indexOf_from pat (pre ++ pat) i = i + len pre ->
  indexOf_from pat (pre ++ pat ++ rest) i = i + len pre.
Proof.
  revert i. induction pre as [|c pre IH]; intros i H.
  - cbn [append]. rewrite indexOf_from_eq, prefix_refl_append, len_empty. lia.
  - change (String c pre ++ pat ++ rest)%string
      with (String c (pre ++ pat ++ rest)).
    change (String c pre ++ pat)%string with (String c (pre ++ pat)) in H.
    pose proof (len_String c pre) as Hlen.
    rewrite indexOf_from_eq in H. rewrite indexOf_from_eq.
    destruct (String.prefix pat (String c (pre ++ pat))) eqn:Hp.
    { pose proof (len_nonneg pre). lia. }
    destruct (String.prefix pat (String c (pre ++ pat ++ rest))) eqn:Hp'.
    { exfalso.
      assert (Hin : String.prefix pat (String c (pre ++ pat)) = true).
      { apply (prefix_within pat (String c (pre ++ pat)) rest).
        - cbn [append]. now rewrite append_assoc.
        - simpl. rewrite length_append. lia. }
      congruence. }
    rewrite Hlen. rewrite (IH (i + 1)); lia.
Qed.

Lemma indexOf_first (pat pre rest : string) :
  indexOf (pre ++ pat) pat = len pre ->
  indexOf (pre ++ pat ++ rest) pat = len pre.
Proof. unfold indexOf. intros H. now apply (indexOf_from_first pat pre rest 0). Qed.

(** Where the last occurrence is does not depend on where the count
    starts: either there is none, or it is a fixed offset. *)
Lemma lastIndexOf_from_offset (pat s : string) :
  (forall i acc, lastIndexOf_from pat s i acc = acc) \/
  (exists k, 0 <= k /\ forall i acc, lastIndexOf_from pat s i acc = i + k).
Proof.
  induction s as [|c s IH].
  - cbn [lastIndexOf_from]. destruct (String.prefix pat ""); [right | now left].
    exists 0. split; [lia | intros; lia].
  - cbn [lastIndexOf_from].
    destruct IH as [Hnone|[k [Hk Hsome]]].
    + destruct (String.prefix pat (String c s)).
      * right. exists 0. split; [lia | intros; rewrite Hnone; lia].
      * left. intros. apply Hnone.
    + right. exists (k + 1). split; [lia | intros; rewrite Hsome; lia].
Qed.

(** When [b] holds an occurrence, the last one in [a ++ b] is the last
    one of [b]. *)
Lemma lastIndexOf_last (pat a b : string) (j : Z) :
  0 <= j -> lastIndexOf b pat = j ->
  lastIndexOf (a ++ b) pat = len a + j.
Proof.
  intros Hj Hb. unfold lastIndexOf in *.
  destruct (lastIndexOf_from_offset pat b) as [Hnone|[k [Hk Hsome]]].
  - rewrite Hnone in Hb. lia.
  - rewrite Hsome in Hb.
    assert (Hgen : forall i acc,
              lastIndexOf_from pat (a ++ b) i acc = i + len a + k).
    { induction a as [|c a IH]; intros i acc.
      - cbn [append]. rewrite Hsome, len_empty. lia.
      - change (String c a ++ b)%string with (String c (a ++ b)).
        cbn [lastIndexOf_from]. rewrite IH, len_String. lia. }
    rewrite Hgen. lia.
Qed.

Lemma substring_middle (a m b : string) :
  String.substring (String.length a) (String.length m) (a ++ m ++ b) = m.
Proof.
  induction a as [|c a IH]; [|exact IH].
  cbn [String.length append].
  induction m as [|c m IH]; cbn [String.length append String.substring].
  - now destruct b.
  - now rewrite IH.
Qed.

(** [(a ++ m ++ b).substring(a.length, a.length + m.length)] is [m]. *)
Lemma substring_between (a m b : string) :
  substring (a ++ m ++ b) (len a) (len a + len m) = m.
Proof.
  unfold substring, clamp.
  rewrite !len_append.
  pose proof (len_nonneg a). pose proof (len_nonneg m). pose proof (len_nonneg b).
  replace (Z.max 0 (Z.min (len a) (len a + (len m + len b)))) with (len a) by lia.
  replace (Z.max 0 (Z.min (len a + len m) (len a + (len m + len b))))
    with (len a + len m) by lia.
  replace (Z.min (len a) (len a + len m)) with (len a) by lia.
  replace (Z.max (len a) (len a + len m) - len a) with (len m) by lia.
  unfold len. rewrite !Nat2Z.id. apply substring_middle.
Qed.

Lemma includes_indexOf (s p : string) :
  0 <= indexOf s p -> includes s p = true.
Proof.
  intros H. unfold includes.
  destruct (indexOf s p =? -1) eqn:E; [apply Z.eqb_eq in E; lia | reflexivity].
Qed.

End StringFacts.

(** ** Venue paths out of dblp URLs *)
Module PathFacts.
Import JS CCFData DBLPSiteHandler Conditions StringFacts.

Lemma yearPatternTest_false (s : string) :
  yearPatternTest s = false -> _cleanUrl s = s.
Proof.
  induction s as [|c s IH]; intros H; simpl in *.
  - now destruct (yearPattern "").
  - apply orb_false_iff in H as [Hhere Hrest].
    rewrite Hhere. f_equal. now apply IH.
Qed.

(** Testing before replacing changes nothing. *)
Lemma test_then_replace (s : string) :
  (if yearPatternTest s then _cleanUrl s else s) = _cleanUrl s.
Proof.
  destruct (yearPatternTest s) eqn:E; [reflexivity|].
  symmetry. now apply yearPatternTest_false.
Qed.

Lemma leading_slash (v rest : string) :
  startsWith (v ++ "/") "/" = true ->
  exists rest', (v ++ "/" ++ rest)%string = String "/" rest'.
Proof.
  unfold startsWith. destruct v as [|c v]; cbn [append String.prefix].
  - intros _. now exists rest.
  - destruct (Ascii.ascii_dec "/"%char c) as [<-|]; [|discriminate].
    intros _. now eexists.
Qed.

(** The part of a URL between the marker that follows [pre] and the
    last occurrence of [stop]: [url.substring(url.indexOf(marker) + n,
    url.lastIndexOf(stop))], with [n] the length of [marker] without
    its final slash. *)
Lemma between_marker (marker keep pre mid stop tail rest : string) :
  (marker = keep ++ "/")%string ->
  (mid ++ stop ++ tail = String "/" rest)%string ->
  indexOf (pre ++ marker) marker = len pre ->
  lastIndexOf (stop ++ tail) stop = 0 ->
  let url := (pre ++ keep ++ mid ++ stop ++ tail)%string in
  indexOf url marker = len pre /\
  substring url (indexOf url marker + len keep) (lastIndexOf url stop) = mid.
Proof.
  intros -> Hslash Hfirst Hlast url.
  assert (Hidx : indexOf url (keep ++ "/") = len pre).
  { subst url. rewrite Hslash.
    replace (pre ++ keep ++ String "/" rest)%string
      with (pre ++ (keep ++ "/") ++ rest)%string
      by (now rewrite (append_assoc keep "/" rest)).
    now apply indexOf_first. }
  split; [exact Hidx|].
  assert (Hend : lastIndexOf url stop = len pre + len keep + len mid).
  { subst url.
    replace (pre ++ keep ++ mid ++ stop ++ tail)%string
      with ((pre ++ keep ++ mid) ++ stop ++ tail)%string
      by (now rewrite !append_assoc).
    rewrite (lastIndexOf_last stop _ _ 0 (Z.le_refl 0) Hlast).
    rewrite !len_append. lia. }
  rewrite Hidx, Hend. subst url.
  replace (pre ++ keep ++ mid ++ stop ++ tail)%string
    with ((pre ++ keep) ++ mid ++ stop ++ tail)%string
    by (now rewrite !append_assoc).
  replace (len pre + len keep) with (len (pre ++ keep))
    by (now rewrite len_append).
  apply substring_between.
Qed.

(** X1: the venue path of a dblp record URL.  For a URL made of a
    prefix, the marker /rec, a venue path and a final segment without a
    slash, where the /rec/ after the prefix is the first in the URL,
    [venuePath] returns the venue path. *)
Theorem venuePath_record_url (pre V key : string) :
  indexOf (pre ++ "/rec/") "/rec/" = len pre ->
  startsWith (V ++ "/") "/" = true ->
  lastIndexOf ("/" ++ key) "/" = 0 ->
  APIService.venuePath (pre ++ "/rec" ++ V ++ "/" ++ key) = V.
Proof.
  intros Hfirst Hv Hkey.
  destruct (leading_slash V key Hv) as [rest Hrest].
  unfold APIService.venuePath.
  exact (proj2 (between_marker "/rec/" "/rec" pre V "/" key rest
                  eq_refl Hrest Hfirst Hkey)).
Qed.

(** The record URL of a FAST paper. *)
Lemma venuePath_record_url_witness :
  APIService.venuePath ("https://dblp.org" ++ "/rec" ++ "/conf/fast" ++ "/" ++ "Author20")
  = "/conf/fast".
Proof.
  exact (venuePath_record_url "https://dblp.org" "/conf/fast" "Author20"
           eq_refl eq_refl eq_refl).
Defined.

(** X2: the venue path of a link to a dblp venue page.  For a link made
    of a prefix, /db, a venue path [P] that starts with a slash and has
    no year tail, an optional year suffix [Y], the extension .html and
    a tail without another .html, where the /db/ after the prefix is
    the first in the link, [extractUrlPath] returns [P]; and
    [processCitationElement], on an unprocessed element whose issue
    number resolves to nothing, hands on the record [getRankByUrl]
    finds for [P]. *)
Theorem extractUrlPath_venue_page (pre P Y tail : string) :
  indexOf (pre ++ "/db/") "/db/" = len pre ->
  startsWith P "/" = true ->
  noYearTail P = true ->
  Y = "" \/ yearPattern Y = true ->
  lastIndexOf (".html" ++ tail) ".html" = 0 ->
  let source := (pre ++ "/db" ++ (P ++ Y) ++ ".html" ++ tail)%string in
  extractUrlPath source = Some P /\
  forall issueNumber d,
    match issueNumber with
    | Some t => t = "" \/ isNaN t = false \/ getRankByAbbr t d = None
    | None => True
    end ->
    processCitationElement (Some source) false issueNumber d =
    getRankByUrl P d.
Proof.
  intros Hfirst Hslash Htail HY Hhtml source.
  assert (HP : exists P', P = String "/" P').
  { unfold startsWith in Hslash. destruct P as [|c P']; [discriminate|].
    cbn [String.prefix] in Hslash.
    destruct (Ascii.ascii_dec "/"%char c) as [<-|]; [|discriminate].
    now eexists. }
  destruct HP as [P' HP'].
  assert (Hrest : exists rest,
            ((P ++ Y) ++ ".html" ++ tail = String "/" rest)%string)
    by (subst P; now eexists).
  destruct Hrest as [rest Hrest].
  destruct (between_marker "/db/" "/db" pre (P ++ Y) ".html" tail rest
              eq_refl Hrest Hfirst Hhtml) as [Hidx Hsub].
  fold source in Hidx, Hsub.
  assert (Hclean : _cleanUrl (P ++ Y) = P).
  { destruct HY as [->|HY].
    - rewrite CCFDataFacts.append_empty_r.
      now apply CCFDataFacts._cleanUrl_fixed.
    - now apply CCFDataFacts._cleanUrl_app. }
  assert (Hextract : extractUrlPath source = Some P).
  { unfold extractUrlPath.
    rewrite includes_indexOf by (rewrite Hidx; apply len_nonneg).
    cbn [negb]. change (len "/db") with 3 in Hsub.
    now rewrite Hsub, test_then_replace, Hclean. }
  split; [exact Hextract|].
  intros issueNumber d Hissue.
  unfold processCitationElement. rewrite Hextract.
  assert (Hsource : (source =? "")%string = false).
  { apply String.eqb_neq. intros Hempty.
    apply (f_equal len) in Hempty. subst source.
    rewrite !len_append in Hempty.
    pose proof (len_nonneg pre). pose proof (len_nonneg P).
    pose proof (len_nonneg Y).
    pose proof (len_nonneg tail). change (len "/db") with 3 in Hempty.
    change (len ".html") with 5 in Hempty. change (len "") with 0 in Hempty.
    lia. }
  rewrite Hsource. cbn [orb].
  assert (HPne : (P =? "")%string = false) by (subst P; reflexivity).
  rewrite HPne.
  destruct issueNumber as [t|]; [|reflexivity].
  destruct Hissue as [->|[Hnum|Hnone]]; [reflexivity | |].
  - rewrite Hnum, andb_false_r. reflexivity.
  - destruct (negb (t =? "")%string && isNaN t); [now rewrite Hnone | reflexivity].
Qed.

(** The page of FAST 2020, linked with a fragment. *)
Lemma extractUrlPath_venue_page_witness :
  extractUrlPath "https://dblp.org/db/conf/fast/fast2020.html#Author20"
  = Some "/conf/fast/fast".
Proof.
  assert (Hyear : "2020" = "" \/ yearPattern "2020" = true) by now right.
  exact (proj1 (extractUrlPath_venue_page "https://dblp.org" "/conf/fast/fast"
                  "2020" "#Author20" eq_refl eq_refl eq_refl Hyear eq_refl)).
Defined.

(** X3: the venue path of the page being viewed.  For a pathname made of
    a prefix, /db, a venue path and a final segment without a slash,
    where the /db/ after the prefix is the first, the path extracted
    from the headline is the venue path, and that path is what
    [appendRank] looks up: the final segment (the file name of the
    page) plays no part. *)
Theorem extractUrlPathFromHeadline_page (pre V file : string) :
  indexOf (pre ++ "/db/") "/db/" = len pre ->
  startsWith (V ++ "/") "/" = true ->
  lastIndexOf ("/" ++ file) "/" = 0 ->
  let headline := (pre ++ "/db" ++ V ++ "/" ++ file)%string in
  extractUrlPathFromHeadline headline = Some V /\
  forall d, appendRank headline d = getRankByUrl V d.
Proof.
  intros Hfirst Hv Hfile headline. subst headline.
  destruct (leading_slash V file Hv) as [rest Hrest].
  destruct (between_marker "/db/" "/db" pre V "/" file rest
              eq_refl Hrest Hfirst Hfile) as [Hidx Hsub].
  assert (Hext : extractUrlPathFromHeadline (pre ++ "/db" ++ V ++ "/" ++ file)
                 = Some V).
  { unfold extractUrlPathFromHeadline.
    rewrite includes_indexOf by (rewrite Hidx; apply len_nonneg).
    cbn [negb]. change (len "/db") with 3 in Hsub. now rewrite Hsub. }
  split; [exact Hext|].
  intros d. unfold appendRank. rewrite Hext.
  destruct (String.eqb_spec V "") as [->|_]; reflexivity.
Qed.

(** The pathname of the page of FAST 2020. *)
Lemma extractUrlPathFromHeadline_page_witness :
  extractUrlPathFromHeadline ("" ++ "/db" ++ "/conf/fast" ++ "/" ++ "fast2020.html")
  = Some "/conf/fast".
Proof.
  exact (proj1 (extractUrlPathFromHeadline_page "" "/conf/fast" "fast2020.html"
                  eq_refl eq_refl eq_refl)).
Defined.

End PathFacts.

(** ** More on the rank table *)
Module TableFacts.
Import JS CCFData Conditions StringFacts.

Lemma Map_get_set_other {A : Type} (k k' : string) (v : A) (m : Map A) :
  k <> k' -> Map_get k (Map_set k' v m) = Map_get k m.
Proof.
  intros Hne. induction m as [|[k0 v0] m IH]; simpl.
  - destruct (k' =? k)%string eqn:E; [|reflexivity].
    apply String.eqb_eq in E. congruence.
  - destruct (k0 =? k')%string eqn:E'; simpl.
    + apply String.eqb_eq in E'. subst k0.
      destruct (k' =? k)%string eqn:E; [|reflexivity].
      apply String.eqb_eq in E. congruence.
    + destruct (k0 =? k)%string; [reflexivity | exact IH].
Qed.

Lemma spanDigits_length (s : string) (n : nat) (r : string) :
  spanDigits s = (n, r) -> String.length s = (n + String.length r)%nat.
Proof.
  revert n. induction s as [|c s IH]; intros n H; simpl in H.
  - now injection H as <- <-.
  - destruct (isDigit c).
    + destruct (spanDigits s) as [n' r'] eqn:E. injection H as <- <-.
      simpl. now rewrite (IH n' eq_refl).
    + now injection H as <- <-.
Qed.

(** A string that matches the year pattern has at most nine
    characters. *)
Lemma yearPattern_length (s : string) :
  yearPattern s = true -> (String.length s <= 9)%nat.
Proof.
  unfold yearPattern. destruct (spanDigits s) as [n1 r] eqn:E1.
  apply spanDigits_length in E1. rewrite E1.
  intros H. apply andb_prop in H as [H Hr]. apply andb_prop in H as [_ Hn1].
  apply Nat.leb_le in Hn1.
  destruct r as [|c r]; [simpl; lia|].
  apply andb_prop in Hr as [_ Hr].
  destruct (spanDigits r) as [n2 r2] eqn:E2.
  apply spanDigits_length in E2.
  apply andb_prop in Hr as [Hr Hend]. apply andb_prop in Hr as [_ Hn2].
  apply Nat.leb_le in Hn2. apply String.eqb_eq in Hend. subst r2.
  simpl in *. lia.
Qed.

(** X4: [_cleanUrl] only ever takes a year suffix off.  What it returns
    is the URL without a final part that is empty or matches the year
    pattern, and so at most nine characters shorter. *)
Theorem cleanUrl_takes_suffix (url : string) :
  exists y,
    url = (_cleanUrl url ++ y)%string /\
    (y = "" \/ yearPattern y = true) /\
    (String.length y <= 9)%nat.
Proof.
  induction url as [|c url [y [Heq [Hy Hlen]]]].
  - exists "". simpl. destruct (yearPattern ""); repeat split; auto; simpl; lia.
  - simpl. destruct (yearPattern (String c url)) eqn:E.
    + exists (String c url). repeat split; [now right|].
      now apply yearPattern_length.
    + exists y. repeat split; [|exact Hy | exact Hlen].
      simpl. now rewrite <- Heq.
Qed.

Lemma toUpperCase_empty (s : string) : toUpperCase s = "" -> s = "".
Proof. destruct s; [reflexivity | discriminate]. Qed.

(** X5: a record can be looked up by its abbreviation in any letter
    case.  Right after [addEntry], [getRankByAbbr] returns the record
    just added for every non-empty query that upper-cases to the same
    string as its abbreviation, when it is a conference, or when no
    conference is keyed by that string. *)
Theorem getRankByAbbr_after_addEntry (d : CCFData)
  (rank abbr fullName url type query : string) :
  query <> "" ->
  toUpperCase query = toUpperCase abbr ->
  type = "conference" \/ Map_get (toUpperCase abbr) (conferences d) = None ->
  getRankByAbbr query (addEntry rank abbr fullName url type d) =
  Some (mkEntry rank (toUpperCase abbr) fullName url type).
Proof.
  intros Hq Hcase Hkind.
  unfold getRankByAbbr.
  destruct (query =? "")%string eqn:E; [apply String.eqb_eq in E; congruence|].
  rewrite Hcase. set (u := toUpperCase abbr).
  set (e := mkEntry rank u fullName url type).
  assert (Hset : forall m, Map_get u (Map_set url e (Map_set u e m)) = Some e).
  { intros m. destruct (String.eqb_spec u url) as [<-|Hne].
    - apply CCFDataFacts.Map_get_set_same.
    - rewrite Map_get_set_other by exact Hne.
      apply CCFDataFacts.Map_get_set_same. }
  unfold addEntry. fold u. fold e.
  destruct (type =? "conference")%string eqn:Hc; cbn [conferences journals].
  - now rewrite Hset.
  - destruct Hkind as [->|Hnone]; [discriminate|].
    fold u in Hnone. now rewrite Hnone, Hset.
Qed.

(** PPoPP, asked for in lower case. *)
Lemma getRankByAbbr_after_addEntry_witness :
  getRankByAbbr "ppopp" ccfData =
  Some (mkEntry "A" "PPOPP"
          "ACM SIGPLAN Symposium on Principles & Practice of Parallel Programming"
          "/conf/ppopp/ppopp" "conference") /\
  getRankByAbbr "fast"
    (addEntry "A" "FAST" "Conference on File and Storage Technologies"
       "/conf/fast/fast" "conference" empty) =
  Some (mkEntry "A" "FAST" "Conference on File and Storage Technologies"
          "/conf/fast/fast" "conference").
Proof.
  split; [reflexivity|].
  assert (Hq : "fast" <> "") by discriminate.
  exact (getRankByAbbr_after_addEntry empty "A" "FAST"
           "Conference on File and Storage Technologies" "/conf/fast/fast"
           "conference" "fast" Hq eq_refl (or_introl eq_refl)).
Defined.

(** X6: adding a record leaves every other key alone.  After [addEntry]
    both mappings answer as before under every key other than the new
    record's upper-cased abbreviation and its path, so [getRankByUrl]
    returns what it returned before for every URL that cleans to
    neither. *)
Theorem addEntry_other_keys (d : CCFData)
  (rank abbr fullName url type : string) :
  let d' := addEntry rank abbr fullName url type d in
  (forall key,
     key <> toUpperCase abbr -> key <> url ->
     Map_get key (conferences d') = Map_get key (conferences d) /\
     Map_get key (journals d') = Map_get key (journals d)) /\
  (forall u,
     _cleanUrl u <> toUpperCase abbr -> _cleanUrl u <> url ->
     getRankByUrl u d' = getRankByUrl u d).
Proof.
  intros d'.
  assert (Hkeys : forall key,
    key <> toUpperCase abbr -> key <> url ->
    Map_get key (conferences d') = Map_get key (conferences d) /\
    Map_get key (journals d') = Map_get key (journals d)).
  { intros key Ha Hu. subst d'. unfold addEntry.
    destruct (type =? "conference")%string; cbn [conferences journals];
      rewrite !Map_get_set_other by assumption; now split. }
  split; [exact Hkeys|].
  intros u Ha Hu. unfold getRankByUrl.
  destruct (u =? "")%string; [reflexivity|].
  destruct (Hkeys (_cleanUrl u) Ha Hu) as [-> ->]. reflexivity.
Qed.

(** Adding TOCS does not disturb the lookup of FAST 2020. *)
Lemma addEntry_other_keys_witness :
  getRankByUrl "/conf/fast/fast2020"
    (addEntry "A" "TOCS" "ACM Transactions on Computer Systems"
       "/journals/tocs/tocs" "journal" empty) =
  getRankByUrl "/conf/fast/fast2020" empty.
Proof.
  assert (Ha : _cleanUrl "/conf/fast/fast2020" <> toUpperCase "TOCS")
    by discriminate.
  assert (Hu : _cleanUrl "/conf/fast/fast2020" <> "/journals/tocs/tocs")
    by discriminate.
  exact (proj2 (addEntry_other_keys empty "A" "TOCS"
                  "ACM Transactions on Computer Systems"
                  "/journals/tocs/tocs" "journal")
               "/conf/fast/fast2020" Ha Hu).
Defined.

End TableFacts.

(** ** The rank label *)
Module LabelFacts.
Import JS.
Import BaseSiteHandler CCFManager.

Lemma existsb_single {A : Type} (f : A -> bool) (x : A) :
  existsb f [x] = f x.
Proof. simpl. apply orb_false_r. Qed.

Lemma firstLetter_single (r : string) (letters : list string) :
  firstLetter [r] letters = CCFData.firstLetter r letters.
Proof.
  induction letters as [|l letters IH]; [reflexivity|].
  cbn [firstLetter CCFData.firstLetter]. rewrite existsb_single.
  destruct (startsWith r l); [reflexivity | exact IH].
Qed.

Lemma existsb_same_members {A : Type} (f : A -> bool) (l l' : list A) :
  (forall x, In x l <-> In x l') -> existsb f l = existsb f l'.
Proof.
  intros H. apply eq_true_iff_eq. rewrite !existsb_exists.
  split; intros [x [Hin Hf]]; exists x; split; try exact Hf; now apply H.
Qed.

Lemma firstLetter_same_members (ranks ranks' letters : list string) :
  (forall r, In r ranks <-> In r ranks') ->
  firstLetter ranks letters = firstLetter ranks' letters.
Proof.
  intros H. induction letters as [|l letters IH]; [reflexivity|].
  cbn [firstLetter].
  rewrite (existsb_same_members (fun r => startsWith r l) ranks ranks' H).
  now rewrite IH.
Qed.

Lemma colon_not_plain (a b : string) :
  (a ++ String ":" b)%string <> "" /\
  (a ++ String ":" b)%string <> "Not Found".
Proof.
  assert (Hin : forall s, In ":"%char
                  (list_ascii_of_string (s ++ String ":" b))).
  { induction s as [|c s IH]; simpl; [now left | now right]. }
  split; intros E; specialize (Hin a); rewrite E in Hin; simpl in Hin;
    repeat (destruct Hin as [Hin|Hin]; [discriminate|]); exact Hin.
Qed.

Lemma _formatRankInfo_colon (rank fullName abbr : string) :
  exists a b, _formatRankInfo rank fullName abbr = (a ++ String ":" b)%string.
Proof.
  unfold _formatRankInfo.
  set (i := if negb (abbr =? "")%string && negb (abbr =? fullName)%string
            then (fullName ++ " (" ++ abbr ++ ")")%string else fullName).
  exists i.
  destruct (rank =? "E")%string; [now eexists|].
  destruct (rank =? "P")%string; [now eexists|].
  destruct (rank =? "none")%string; now eexists.
Qed.

(** X7: the span [getRankSpan] builds always carries a tooltip.  The
    formatted information text always contains a colon, so it is never
    empty and never the bare "Not Found" the code tests for; when there
    is no search key or nothing is found the tooltip reads
    "Not Found: Not Found". *)
Theorem getRankSpan_always_tooltip (refine type : string)
  (d : CCFData.CCFData) :
  tooltip (getRankSpan refine type d) =
    Some (info (getRankInfo refine type d)) /\
  className (getRankSpan refine type d) =
    ("ccf-rank " ++ getRankClass (ranks (getRankInfo refine type d))
     ++ " ccf-tooltip")%string /\
  (refine = "" \/
   (if (type =? "url")%string then CCFData.getRankByUrl refine d
    else CCFData.getRankByAbbr refine d) = None ->
   tooltip (getRankSpan refine type d) = Some "Not Found: Not Found").
Proof.
  assert (Hplain : info (getRankInfo refine type d) <> "" /\
                   info (getRankInfo refine type d) <> "Not Found").
  { assert (Hc : exists a b,
      info (getRankInfo refine type d) = (a ++ String ":" b)%string).
    { unfold getRankInfo.
      destruct (refine =? "")%string; [apply _formatRankInfo_colon|].
      destruct (if (type =? "url")%string
                then CCFData.getRankByUrl refine d
                else CCFData.getRankByAbbr refine d);
        apply _formatRankInfo_colon. }
    destruct Hc as [a [b ->]]. apply colon_not_plain. }
  destruct Hplain as [H1 H2].
  apply String.eqb_neq in H1. apply String.eqb_neq in H2.
  unfold getRankSpan. cbn [tooltip className]. rewrite H1, H2. cbn [negb andb].
  split; [reflexivity|]. split; [reflexivity|].
  intros Hnone. f_equal. unfold getRankInfo.
  destruct (refine =? "")%string eqn:E; [reflexivity|].
  destruct Hnone as [Hr|Hl]; [subst refine; discriminate|].
  now rewrite Hl.
Qed.

(** X8: on a single rank the two class functions agree:
    [CCFManager.getRankClass([r])] is [CCFData.getRankClass(r)] for
    every string [r], the empty one included. *)
Theorem getRankClass_single (r : string) :
  getRankClass [r] = CCFData.getRankClass r.
Proof.
  unfold getRankClass, CCFData.getRankClass. rewrite firstLetter_single.
  destruct (r =? "")%string eqn:E; [|reflexivity].
  apply String.eqb_eq in E. now subst r.
Qed.

(** X9: the class [CCFManager.getRankClass] gives depends on which
    ranks occur, not on their order or number: two arrays with the same
    members get the same class. *)
Theorem getRankClass_same_members (ranks0 ranks1 : list string) :
  (forall r, In r ranks0 <-> In r ranks1) ->
  getRankClass ranks0 = getRankClass ranks1.
Proof.
  intros H. unfold getRankClass.
  rewrite (firstLetter_same_members ranks0 ranks1 _ H).
  destruct ranks0 as [|r0 ranks0], ranks1 as [|r1 ranks1]; try reflexivity.
  destruct (proj2 (H r1) (or_introl eq_refl)).
Qed.

Lemma getRankClass_same_members_witness :
  getRankClass ["B"; "A"] = getRankClass ["A"; "B"; "A"].
Proof.
  apply getRankClass_same_members. intros r. simpl. tauto.
Defined.

(** X10: both span builders label a record the same way.  For a record
    of the table, [BaseSiteHandler.createRankSpan] and
    [CCFManager.getRankSpan] (when the search finds that record) both
    show the record's [displayText]. *)
Theorem span_text_agrees (e : CCFData.Entry) :
  textContent (createRankSpan (Some e)) = CCFData.displayText e /\
  forall refine type d,
    refine <> "" ->
    (if (type =? "url")%string then CCFData.getRankByUrl refine d
     else CCFData.getRankByAbbr refine d) = Some e ->
    textContent (getRankSpan refine type d) = CCFData.displayText e.
Proof.
  split.
  - unfold createRankSpan. cbn [textContent]. unfold CCFData.displayText.
    destruct (CCFData.rank e =? "E")%string; [reflexivity|].
    destruct (CCFData.rank e =? "P")%string; [reflexivity|].
    destruct (CCFData.rank e =? "none")%string; reflexivity.
  - intros refine type d Hne Hfound.
    unfold getRankSpan, getRankInfo. cbn [textContent].
    apply String.eqb_neq in Hne. rewrite Hne, Hfound.
    cbn [_createRankInfo ranks]. unfold ranksInclude.
    rewrite !existsb_single. reflexivity.
Qed.

(** FAST 2020, looked up by its path. *)
Lemma span_text_agrees_witness :
  textContent (getRankSpan "/conf/fast/fast2020" "url" CCFData.ccfData) =
  "CCF A".
Proof.
  assert (Hne : "/conf/fast/fast2020" <> "") by discriminate.
  exact (proj2 (span_text_agrees
                  (CCFData.mkEntry "A" "FAST"
                     "Conference on File and Storage Technologies"
                     "/conf/fast/fast" "conference"))
               "/conf/fast/fast2020" "url" CCFData.ccfData Hne eq_refl).
Defined.

End LabelFacts.

(** ** More on the cache *)
Module CacheFrameFacts.
Import JS CacheService Conditions Samples ListFacts CacheFacts.

Section Frame.

Variable V : Type.

Lemma storage_eq (a b : Storage V) :
  entries a = entries b -> writes a = writes b -> a = b.
Proof. destruct a, b; simpl; congruence. Qed.

Lemma filter_filter {A : Type} (f g : A -> bool) (l : list A) :
  filter f (filter g l) = filter (fun x => g x && f x) l.
Proof.
  induction l as [|x l IH]; [reflexivity|]. simpl.
  destruct (g x); simpl; [destruct (f x)|]; now rewrite IH.
Qed.

Lemma filter_all {A : Type} (f : A -> bool) (l : list A) :
  (forall x, In x l -> f x = true) -> filter f l = l.
Proof.
  induction l as [|x l IH]; intros H; [reflexivity|]. simpl.
  rewrite (H x (or_introl eq_refl)). f_equal. apply IH.
  intros y Hy. apply H. now right.
Qed.

Lemma lookup_remove (key k : string) (l : list (string * Stored V)) :
  lookup V k (remove V key l) =
  if (k =? key)%string then None else lookup V k l.
Proof.
  induction l as [|[k0 s] l IH]; simpl.
  - now destruct (k =? key)%string.
  - destruct (String.eqb_spec k0 key) as [->|Hne]; simpl.
    + rewrite IH. destruct (String.eqb_spec k key) as [->|Hk]; [reflexivity|].
      destruct (String.eqb_spec key k) as [<-|_]; [congruence | reflexivity].
    + rewrite IH. destruct (String.eqb_spec k key) as [->|Hk].
      * destruct (String.eqb_spec k0 key); [congruence | reflexivity].
      * reflexivity.
Qed.

Lemma lookup_upsert_other (key k : string) (s : Stored V)
  (l : list (string * Stored V)) :
  k <> key -> lookup V k (upsert V key s l) = lookup V k l.
Proof.
  intros Hne. induction l as [|[k0 s0] l IH]; simpl.
  - destruct (String.eqb_spec key k); [congruence | reflexivity].
  - destruct (String.eqb_spec k0 key) as [->|Hk0]; simpl.
    + destruct (String.eqb_spec key k); [congruence | reflexivity].
    + now rewrite IH.
Qed.

Lemma lookup_In (k : string) (s : Stored V) (l : list (string * Stored V)) :
  lookup V k l = Some s -> In (k, s) l.
Proof.
  induction l as [|[k0 s0] l IH]; simpl; [discriminate|].
  destruct (String.eqb_spec k0 k) as [->|_].
  - intros H. injection H as ->. now left.
  - intros H. right. now apply IH.
Qed.

Lemma keys_unique (l : list (string * Stored V)) (k : string)
  (s s' : Stored V) :
  NoDup (map fst l) -> In (k, s) l -> In (k, s') l -> s = s'.
Proof.
  induction l as [|[k0 s0] l IH]; simpl; intros Hnd H1 H2; [contradiction|].
  inversion Hnd as [|? ? Hnotin Hnd']; subst.
  destruct H1 as [H1|H1], H2 as [H2|H2].
  - congruence.
  - injection H1 as -> ->. exfalso. apply Hnotin.
    now apply (in_map fst) in H2.
  - injection H2 as -> ->. exfalso. apply Hnotin.
    now apply (in_map fst) in H1.
  - now apply IH.
Qed.

Lemma NoDup_keys_filter (f : string * Stored V -> bool)
  (l : list (string * Stored V)) :
  NoDup (map fst l) -> NoDup (map fst (filter f l)).
Proof.
  induction l as [|x l IH]; simpl; intros Hnd; [constructor|].
  inversion Hnd as [|? ? Hnotin Hnd']; subst.
  destruct (f x); simpl; [|now apply IH].
  constructor; [|now apply IH].
  intros Hin. apply Hnotin. apply in_map_iff in Hin as [y [Hy Hin]].
  apply filter_In in Hin as [Hin _]. rewrite <- Hy. now apply in_map.
Qed.

(** What [removeAll] leaves: the entries under none of the keys. *)
Lemma entries_removeAll_filter (keys : list string) (ls : Storage V) :
  entries (removeAll V keys ls) =
  filter (fun kv => negb (existsb (String.eqb (fst kv)) keys)) (entries ls).
Proof.
  rewrite entries_removeAll. generalize (entries ls).
  induction keys as [|key keys IH]; intros l; simpl.
  - symmetry. now apply filter_all.
  - rewrite IH. unfold remove. rewrite filter_filter.
    apply filter_ext. intros kv. now rewrite negb_orb.
Qed.

Lemma foreign_remove (key : string) (l : list (string * Stored V)) :
  startsWith key keyPrefix = true ->
  filter (fun kv => negb (startsWith (fst kv) keyPrefix)) (remove V key l) =
  filter (fun kv => negb (startsWith (fst kv) keyPrefix)) l.
Proof.
  intros Hown. unfold remove. rewrite filter_filter. apply filter_ext.
  intros [k s]. simpl. destruct (String.eqb_spec k key) as [->|_].
  - now rewrite Hown.
  - reflexivity.
Qed.

Lemma foreign_removeItem (key : string) (ls : Storage V) :
  startsWith key keyPrefix = true ->
  foreign V (localStorage_removeItem V key ls) = foreign V ls.
Proof. intros H. unfold foreign. simpl. now apply foreign_remove. Qed.

Lemma foreign_upsert (key : string) (s : Stored V)
  (l : list (string * Stored V)) :
  startsWith key keyPrefix = true ->
  filter (fun kv => negb (startsWith (fst kv) keyPrefix)) (upsert V key s l) =
  filter (fun kv => negb (startsWith (fst kv) keyPrefix)) l.
Proof.
  intros Hown. induction l as [|[k0 s0] l IH]; simpl.
  - now rewrite Hown.
  - destruct (String.eqb_spec k0 key) as [->|_]; simpl.
    + now rewrite Hown.
    + now rewrite IH.
Qed.

Lemma foreign_removeAll (keys : list string) (ls : Storage V) :
  (forall k, In k keys -> startsWith k keyPrefix = true) ->
  foreign V (removeAll V keys ls) = foreign V ls.
Proof.
  revert ls. induction keys as [|key keys IH]; intros ls H; [reflexivity|].
  unfold removeAll. simpl. fold (removeAll V keys (localStorage_removeItem V key ls)).
  rewrite IH by (intros k Hk; apply H; now right).
  apply foreign_removeItem. apply H. now left.
Qed.

Lemma foreign_scan (fuel i : nat) (now : Z) (ls : Storage V)
  (keys : list (string * Z)) :
  (forall k, In k (map fst keys) -> startsWith k keyPrefix = true) ->
  foreign V (fst (_cleanup_scan V fuel i now ls keys)) = foreign V ls /\
  (forall k, In k (map fst (snd (_cleanup_scan V fuel i now ls keys))) ->
             startsWith k keyPrefix = true).
Proof.
  revert i ls keys. induction fuel as [|fuel IH]; intros i ls keys Hkeys.
  - now split.
  - cbn [_cleanup_scan].
    destruct (nth_error (entries ls) i) as [[key s]|]; [|now split].
    destruct (startsWith key keyPrefix) eqn:Hown; [|now apply IH].
    assert (Hrm : forall keys0,
      (forall k, In k (map fst keys0) -> startsWith k keyPrefix = true) ->
      foreign V (fst (_cleanup_scan V fuel (S i) now
                        (localStorage_removeItem V key ls) keys0)) =
        foreign V ls /\
      (forall k, In k (map fst (snd (_cleanup_scan V fuel (S i) now
                        (localStorage_removeItem V key ls) keys0))) ->
                 startsWith k keyPrefix = true)).
    { intros keys0 H0.
      destruct (IH (S i) (localStorage_removeItem V key ls) keys0 H0)
        as [Hf Hk].
      split; [|exact Hk]. rewrite Hf. now apply foreign_removeItem. }
    destruct s as [| | |item]; cbn [expiry];
      [now apply IH | now apply Hrm | now apply IH |].
    destruct (expires item =? 0); [now apply IH|].
    destruct (now >? expires item); [now apply Hrm|].
    apply IH. intros k Hk. rewrite map_app in Hk.
    apply in_app_or in Hk as [Hk|[<-|[]]]; [now apply Hkeys | exact Hown].
Qed.

Lemma foreign_cleanup (now : Z) (ls : Storage V) :
  foreign V (_cleanup V now ls) = foreign V ls.
Proof.
  unfold _cleanup.
  assert (Hnil : forall k, In k (map fst (@nil (string * Z))) ->
                           startsWith k keyPrefix = true) by (intros k []).
  destruct (foreign_scan (localStorage_length V ls) 0 now ls [] Hnil)
    as [Hf Hk].
  destruct (_cleanup_scan V (localStorage_length V ls) 0 now ls [])
    as [ls1 keys]. cbn [fst snd] in Hf, Hk.
  destruct (maxCacheSize <? List.length keys)%nat; [|exact Hf].
  rewrite foreign_removeAll; [exact Hf|].
  intros k Hin. apply Hk.
  apply in_map_iff in Hin as [x [<- Hin]]. apply in_map.
  apply In_firstn in Hin.
  exact (Permutation_in _ (Permutation_sortByExpires keys) Hin).
Qed.

Lemma foreign_clearAll (ls : Storage V) :
  foreign V (clearAll V ls) = foreign V ls.
Proof.
  unfold clearAll. apply foreign_removeAll.
  intros k Hk. now apply filter_In in Hk as [_ Hk].
Qed.

Lemma foreign_clearExpired (now : Z) (ls : Storage V) :
  foreign V (clearExpired V now ls) = foreign V ls.
Proof.
  unfold clearExpired. apply foreign_removeAll.
  intros k Hk. apply in_map_iff in Hk as [x [<- Hx]].
  apply filter_In in Hx as [_ Hx]. now apply andb_prop in Hx as [Hx _].
Qed.

Lemma foreign_getItem (now : Z) (key : string) (ls : Storage V) :
  foreign V (snd (getItem V now key ls)) = foreign V ls.
Proof.
  unfold getItem.
  destruct (localStorage_getItem V (_getPrefixedKey key) ls)
    as [[| | |item]|]; cbn [snd]; try reflexivity.
  - apply foreign_removeItem, prefixedKey_own.
  - destruct (expires item =? 0); [reflexivity|].
    destruct (now >? expires item); [|reflexivity].
    apply foreign_removeItem, prefixedKey_own.
Qed.

(** What a read that hits has found. *)
Lemma getItem_hit (now : Z) (key : string) (ls : Storage V) (v : V) :
  fst (getItem V now key ls) = Some v <->
  exists item,
    localStorage_getItem V (_getPrefixedKey key) ls = Some (SItem item) /\
    (expires item =? 0) = false /\ (now >? expires item) = false /\
    value item = v.
Proof.
  unfold getItem.
  destruct (localStorage_getItem V (_getPrefixedKey key) ls)
    as [[| | |item]|]; cbn [fst];
    try (split; [discriminate | intros [i [H _]]; discriminate]).
  destruct (expires item =? 0) eqn:E0; cbn [fst].
  - split; [discriminate|]. intros [i [H [H0 _]]]. injection H as <-.
    congruence.
  - destruct (now >? expires item) eqn:Egt; cbn [fst].
    + split; [discriminate|]. intros [i [H [_ [H1 _]]]]. injection H as <-.
      congruence.
    + split.
      * intros H. injection H as <-. now exists item.
      * intros [i [H [_ [_ Hv]]]]. injection H as <-. now rewrite Hv.
Qed.

Lemma lookup_removeAll_sub (keys : list string) (ls : Storage V)
  (k : string) (s : Stored V) :
  lookup V k (entries (removeAll V keys ls)) = Some s ->
  lookup V k (entries ls) = Some s.
Proof.
  revert ls. induction keys as [|key keys IH]; intros ls; [trivial|].
  unfold removeAll. simpl.
  fold (removeAll V keys (localStorage_removeItem V key ls)).
  intros H. apply IH in H. simpl in H. rewrite lookup_remove in H.
  now destruct (k =? key)%string.
Qed.

Lemma lookup_scan_sub (fuel i : nat) (now : Z) (ls : Storage V)
  (keys : list (string * Z)) (k : string) (s : Stored V) :
  lookup V k (entries (fst (_cleanup_scan V fuel i now ls keys))) = Some s ->
  lookup V k (entries ls) = Some s.
Proof.
  revert i ls keys. induction fuel as [|fuel IH]; intros i ls keys; [trivial|].
  cbn [_cleanup_scan].
  destruct (nth_error (entries ls) i) as [[key s0]|]; [|trivial].
  assert (Hrm : forall keys0,
    lookup V k (entries (fst (_cleanup_scan V fuel (S i) now
                   (localStorage_removeItem V key ls) keys0))) = Some s ->
    lookup V k (entries ls) = Some s).
  { intros keys0 H. apply IH in H. simpl in H. rewrite lookup_remove in H.
    now destruct (k =? key)%string. }
  destruct (startsWith key keyPrefix); [|apply IH].
  destruct s0 as [| | |item]; cbn [expiry];
    [apply IH | apply Hrm | apply IH |].
  destruct (expires item =? 0); [apply IH|].
  destruct (now >? expires item); [apply Hrm | apply IH].
Qed.

Lemma lookup_cleanup_sub (now : Z) (ls : Storage V) (k : string)
  (s : Stored V) :
  lookup V k (entries (_cleanup V now ls)) = Some s ->
  lookup V k (entries ls) = Some s.
Proof.
  unfold _cleanup.
  pose proof (lookup_scan_sub (localStorage_length V ls) 0 now ls [] k s)
    as Hscan.
  destruct (_cleanup_scan V (localStorage_length V ls) 0 now ls [])
    as [ls1 keys]. cbn [fst] in Hscan.
  destruct (maxCacheSize <? List.length keys)%nat; [|exact Hscan].
  intros H. apply Hscan. now apply lookup_removeAll_sub in H.
Qed.

(** The counts of [getStats] as numbers of entries. *)
Lemma countStats_fold (now : Z) (l : list (string * Stored V))
  (a b c : nat) :
  fold_left (countStats V now) l (a, b, c) =
  ((a + List.length
          (filter (fun kv => startsWith (fst kv) keyPrefix) l))%nat,
   (b + List.length (filter (withinExpiry V now) l))%nat,
   (c + List.length (filter (pastExpiry V now) l))%nat).
Proof.
  revert a b c. induction l as [|[k s] l IH]; intros a b c.
  - cbn [fold_left filter List.length]. now rewrite !Nat.add_0_r.
  - cbn [fold_left filter]. unfold countStats at 2, withinExpiry at 1, pastExpiry at 1.
    cbn [fst snd].
    destruct (startsWith k keyPrefix); cbn [andb]; [|apply IH].
    destruct (expiry V s) as [e|].
    + destruct (now >? e); cbn [negb]; rewrite IH;
        cbn [List.length Nat.add]; now rewrite ?Nat.add_succ_r.
    + rewrite IH. cbn [List.length Nat.add]. now rewrite ?Nat.add_succ_r.
Qed.

(** What [clearExpired] leaves when no key occurs twice. *)
Lemma entries_clearExpired (now : Z) (ls : Storage V) :
  NoDup (map fst (entries ls)) ->
  entries (clearExpired V now ls) =
  filter (fun kv => negb (stale V now kv)) (entries ls).
Proof.
  intros Hnd. unfold clearExpired. rewrite entries_removeAll_filter.
  apply filter_ext_in. intros [k s] Hin. f_equal. cbn [fst].
  apply eq_true_iff_eq. rewrite existsb_exists. split.
  - intros [k' [Hk' Heq]]. apply String.eqb_eq in Heq. subst k'.
    apply in_map_iff in Hk' as [[k' s'] [Hfst Hx]]. cbn [fst] in Hfst.
    subst k'. apply filter_In in Hx as [Hx Hstale].
    now rewrite (keys_unique _ _ _ _ Hnd Hin Hx).
  - intros Hstale. exists k. split; [|apply String.eqb_refl].
    apply in_map_iff. exists (k, s). split; [reflexivity|].
    apply filter_In. now split.
Qed.

Section Writes.

Variable refuses : list (string * Stored V) -> string -> Stored V -> option Exn.

Lemma foreign_setItem_step (key : string) (s : Stored V) (ls : Storage V) :
  startsWith key keyPrefix = true ->
  foreign V (snd (localStorage_setItem V refuses key s ls)) = foreign V ls.
Proof.
  intros Hown. unfold localStorage_setItem.
  destruct (refuses (entries ls) key s); [reflexivity|].
  unfold foreign. cbn [snd entries]. now apply foreign_upsert.
Qed.

Lemma foreign_setItem (t_cleanup t_write t_retry : Z) (key : string) (v : V)
  (ls : Storage V) :
  foreign V (snd (setItem V refuses t_cleanup t_write t_retry key v ls)) =
  foreign V ls.
Proof.
  unfold setItem.
  pose proof (foreign_setItem_step (_getPrefixedKey key)
                (newItem V v t_write) (_cleanup V t_cleanup ls)
                (prefixedKey_own key)) as H1.
  destruct (localStorage_setItem V refuses (_getPrefixedKey key)
              (newItem V v t_write) (_cleanup V t_cleanup ls))
    as [[u|err] ls2]; cbn [snd] in H1 |- *.
  - rewrite H1. apply foreign_cleanup.
  - destruct (_isQuotaExceededError err); cbn [snd];
      [|rewrite H1; apply foreign_cleanup].
    pose proof (foreign_setItem_step (_getPrefixedKey key)
                  (newItem V v t_retry) (clearAll V ls2)
                  (prefixedKey_own key)) as H2.
    destruct (localStorage_setItem V refuses (_getPrefixedKey key)
                (newItem V v t_retry) (clearAll V ls2))
      as [[u|err'] ls4]; cbn [snd] in H2 |- *;
      rewrite H2, foreign_clearAll, H1; apply foreign_cleanup.
Qed.

(** X11: the cache never touches what is not its own.  Every operation
    leaves the entries of [localStorage] whose key does not start with
    the cache's prefix exactly as they were, in their order: the
    clean-up, a write (also one that clears the cache and retries), a
    read, a removal, [clearAll] and [clearExpired]. *)
Theorem cache_leaves_foreign (now t_cleanup t_write t_retry : Z)
  (key : string) (v : V) (ls : Storage V) :
  foreign V (_cleanup V now ls) = foreign V ls /\
  foreign V (snd (setItem V refuses t_cleanup t_write t_retry key v ls)) =
    foreign V ls /\
  foreign V (snd (getItem V now key ls)) = foreign V ls /\
  foreign V (snd (removeItem V key ls)) = foreign V ls /\
  foreign V (clearAll V ls) = foreign V ls /\
  foreign V (clearExpired V now ls) = foreign V ls.
Proof.
  split; [apply foreign_cleanup|].
  split; [apply foreign_setItem|].
  split; [apply foreign_getItem|].
  split; [apply foreign_removeItem, prefixedKey_own|].
  split; [apply foreign_clearAll | apply foreign_clearExpired].
Qed.

Lemma lookup_setItem_step_sub (key k : string) (s s' : Stored V)
  (ls : Storage V) :
  k <> key ->
  lookup V k (entries (snd (localStorage_setItem V refuses key s ls))) =
    Some s' ->
  lookup V k (entries ls) = Some s'.
Proof.
  intros Hne. unfold localStorage_setItem.
  destruct (refuses (entries ls) key s); cbn [snd entries]; [trivial|].
  now rewrite lookup_upsert_other.
Qed.

Lemma lookup_setItem_sub (t_cleanup t_write t_retry : Z) (key k : string)
  (v : V) (s : Stored V) (ls : Storage V) :
  k <> _getPrefixedKey key ->
  lookup V k
    (entries (snd (setItem V refuses t_cleanup t_write t_retry key v ls))) =
    Some s ->
  lookup V k (entries ls) = Some s.
Proof.
  intros Hne. unfold setItem.
  pose proof (lookup_setItem_step_sub (_getPrefixedKey key) k
                (newItem V v t_write) s (_cleanup V t_cleanup ls) Hne) as H1.
  destruct (localStorage_setItem V refuses (_getPrefixedKey key)
              (newItem V v t_write) (_cleanup V t_cleanup ls))
    as [[u|err] ls2]; cbn [snd] in H1 |- *.
  - intros H. now apply lookup_cleanup_sub with (now := t_cleanup), H1.
  - destruct (_isQuotaExceededError err); cbn [snd];
      [|intros H; now apply lookup_cleanup_sub with (now := t_cleanup), H1].
    pose proof (lookup_setItem_step_sub (_getPrefixedKey key) k
                  (newItem V v t_retry) s (clearAll V ls2) Hne) as H2.
    destruct (localStorage_setItem V refuses (_getPrefixedKey key)
                (newItem V v t_retry) (clearAll V ls2))
      as [[u|err'] ls4]; cbn [snd] in H2 |- *;
      intros H; apply lookup_cleanup_sub with (now := t_cleanup), H1;
      apply H2 in H; unfold clearAll in H;
      now apply lookup_removeAll_sub in H.
Qed.

(** X12: a write under one key never changes what is read under another.
    If, after [setItem] for [key], a read of another key returns a
    value, a read of that key at the same time before the write
    returned the same value: the write can make other entries
    disappear (clean-up, clearing on a full quota) but never alters or
    creates them. *)
Theorem setItem_other_keys (t_cleanup t_write t_retry now : Z)
  (key key' : string) (v v' : V) (ls : Storage V) :
  key' <> key ->
  fst (getItem V now key'
         (snd (setItem V refuses t_cleanup t_write t_retry key v ls))) =
    Some v' ->
  fst (getItem V now key' ls) = Some v'.
Proof.
  intros Hne H. apply getItem_hit in H as [item [Hl Hrest]].
  apply getItem_hit. exists item. split; [|exact Hrest].
  unfold localStorage_getItem in *.
  apply (lookup_setItem_sub t_cleanup t_write t_retry key _ v _ ls);
    [|exact Hl].
  intros E. apply Hne. now apply prefixedKey_inj.
Qed.

(** X13: a write refused for another reason than the quota is given up
    at once.  [setItem] then returns [false] after the one refused
    write: the cache is not cleared, nothing is retried, and the
    storage is what the clean-up left. *)
Theorem setItem_other_error (t_cleanup t_write t_retry : Z) (key : string)
  (v : V) (ls : Storage V) (err : Exn) :
  refuses (entries (_cleanup V t_cleanup ls)) (_getPrefixedKey key)
    (newItem V v t_write) = Some err ->
  _isQuotaExceededError err = false ->
  setItem V refuses t_cleanup t_write t_retry key v ls =
    (Normal false,
     mkStorage (entries (_cleanup V t_cleanup ls)) (S (writes ls))) /\
  forall now key' v',
    fst (getItem V now key' (_cleanup V t_cleanup ls)) = Some v' ->
    fst (getItem V now key'
           (snd (setItem V refuses t_cleanup t_write t_retry key v ls))) =
      Some v'.
Proof.
  intros Href Hq.
  assert (Heq : setItem V refuses t_cleanup t_write t_retry key v ls =
    (Normal false,
     mkStorage (entries (_cleanup V t_cleanup ls)) (S (writes ls)))).
  { unfold setItem, localStorage_setItem. rewrite Href, Hq.
    now rewrite writes_cleanup. }
  split; [exact Heq|].
  intros now key' v' H. rewrite Heq. cbn [snd].
  apply getItem_hit in H. apply getItem_hit. exact H.
Qed.

End Writes.

(** X14: [clearAll] removes the whole cache and nothing else: what is
    left of [localStorage] is exactly its foreign entries, and no
    [setItem] is called. *)
Theorem clearAll_exact (ls : Storage V) :
  entries (clearAll V ls) = foreign V ls /\
  cacheEntries V (clearAll V ls) = [] /\
  writes (clearAll V ls) = writes ls.
Proof.
  assert (He : entries (clearAll V ls) = foreign V ls).
  { unfold clearAll. rewrite entries_removeAll_filter. unfold foreign.
    apply filter_ext_in. intros [k s] Hin. f_equal. cbn [fst].
    apply eq_true_iff_eq. rewrite existsb_exists. split.
    - intros [k' [Hk' Heq]]. apply String.eqb_eq in Heq. subst k'.
      now apply filter_In in Hk' as [_ Hk'].
    - intros Hown. exists k. split; [|apply String.eqb_refl].
      apply filter_In. split; [|exact Hown].
      now apply (in_map fst) in Hin. }
  split; [exact He|]. split; [|apply clearAll_writes].
  unfold cacheEntries. rewrite He. unfold foreign. rewrite filter_filter.
  apply filter_none. intros [k s] _. cbn [fst].
  now destruct (startsWith k keyPrefix).
Qed.

(** X15: [clearExpired] removes the stale entries of the cache and only
    those: when no key occurs twice, what it leaves is the storage
    without its corrupt and its expired cache entries, in the same
    order, and running it again at the same time changes nothing. *)
Theorem clearExpired_exact (now : Z) (ls : Storage V) :
  NoDup (map fst (entries ls)) ->
  entries (clearExpired V now ls) =
    filter (fun kv => negb (stale V now kv)) (entries ls) /\
  clearExpired V now (clearExpired V now ls) = clearExpired V now ls.
Proof.
  intros Hnd. split; [now apply entries_clearExpired|].
  apply storage_eq.
  - rewrite entries_clearExpired.
    + rewrite entries_clearExpired by exact Hnd. rewrite filter_filter.
      apply filter_ext. intros kv. apply andb_diag.
    + rewrite entries_clearExpired by exact Hnd.
      now apply NoDup_keys_filter.
  - unfold clearExpired at 1. apply writes_removeAll.
Qed.

Section Stats.

Variable stringLength : Stored V -> nat.

(** X16: after [clearExpired], [getStats] at the same time counts no
    expired entry and as many valid entries as before, and its total
    has not grown (no key occurring twice). *)
Theorem getStats_after_clearExpired (now : Z) (ls : Storage V) :
  NoDup (map fst (entries ls)) ->
  let before := getStats V stringLength now ls in
  let after := getStats V stringLength now (clearExpired V now ls) in
  expired after = 0%nat /\
  valid after = valid before /\
  (total after + expired before <= total before)%nat /\
  (valid before + expired before <= total before)%nat.
Proof.
  intros Hnd before after. subst before after. unfold getStats.
  rewrite !countStats_fold. cbn [expired valid total].
  rewrite entries_clearExpired by exact Hnd. rewrite !filter_filter.
  set (l := entries ls). simpl.
  assert (Hexp : filter (fun x => negb (stale V now x) && pastExpiry V now x) l
                 = []).
  { apply filter_none. intros [k s] _. unfold stale, pastExpiry, isExpired.
    cbn [fst snd]. destruct (startsWith k keyPrefix); [|reflexivity].
    destruct s as [| | |item]; cbn [expiry andb]; try reflexivity.
    destruct (expires item =? 0); [reflexivity|].
    now destruct (now >? expires item). }
  assert (Hval : filter (fun x => negb (stale V now x) && withinExpiry V now x) l
                 = filter (withinExpiry V now) l).
  { apply filter_ext. intros [k s]. unfold stale, withinExpiry, isExpired.
    cbn [fst snd]. destruct (startsWith k keyPrefix); [|reflexivity].
    destruct s as [| | |item]; cbn [expiry andb]; try reflexivity.
    destruct (expires item =? 0); [reflexivity|].
    now destruct (now >? expires item). }
  rewrite Hexp, Hval. split; [reflexivity|]. split; [reflexivity|].
  clear Hexp Hval Hnd. induction l as [|[k s] l IH]; [simpl; lia|].
  simpl. unfold stale, withinExpiry, pastExpiry, isExpired in *.
  cbn [fst snd] in *. destruct (startsWith k keyPrefix); cbn [andb negb].
  - destruct s as [| | |item]; cbn [expiry]; simpl; try lia.
    destruct (expires item =? 0); simpl; [lia|].
    destruct (now >? expires item); simpl; lia.
  - simpl. lia.
Qed.

(** X17: after [clearAll], [getStats] reports an empty cache: no entry,
    valid or expired, and size 0, whatever else [localStorage]
    holds. *)
Theorem getStats_after_clearAll (now : Z) (ls : Storage V) :
  getStats V stringLength now (clearAll V ls) =
  {| total := 0; valid := 0; expired := 0; size := 0 |}.
Proof.
  pose proof (clearAll_own V ls) as Hown.
  unfold getStats, _getCacheSize. rewrite countStats_fold.
  set (l := entries (clearAll V ls)) in *.
  assert (Hnone : forall f : string * Stored V -> bool,
    (forall kv, f kv = true -> startsWith (fst kv) keyPrefix = true) ->
    filter f l = []).
  { intros f Hf. apply filter_none. intros [k s] Hin.
    destruct (f (k, s)) eqn:E; [|reflexivity].
    apply Hf in E. cbn [fst] in E. now rewrite (Hown k s Hin) in E. }
  rewrite !Hnone.
  - assert (Hsize : forall n : nat,
      fold_left
        (fun size kv =>
           if startsWith (fst kv) keyPrefix
           then match snd kv with
                | SEmpty => size + String.length (fst kv)
                | v => size + String.length (fst kv) + stringLength v
                end
           else size)%nat l n = n).
    { clearbody l. clear Hnone. induction l as [|[k s] l IH]; intros n;
        [reflexivity|].
      cbn [fold_left fst snd]. rewrite (Hown k s (or_introl eq_refl)).
      apply IH. intros k' s' Hin. apply (Hown k' s'). now right. }
    now rewrite Hsize.
  - intros kv H. unfold pastExpiry in H. now apply andb_prop in H as [H _].
  - intros kv H. unfold withinExpiry in H. now apply andb_prop in H as [H _].
  - trivial.
Qed.

End Stats.

(** X18: [removeItem] removes one key and no other.  After it a read of
    that key misses at every time, and a read of any other key returns
    what it returned before. *)
Theorem removeItem_exact (key : string) (ls : Storage V) :
  let ls' := snd (removeItem V key ls) in
  (forall now,
     getItem V now key ls' = (None, ls') /\
     hasItem V now key ls' = (false, ls')) /\
  (forall now key',
     key' <> key ->
     fst (getItem V now key' ls') = fst (getItem V now key' ls)).
Proof.
  intros ls'. subst ls'. cbn [removeItem snd]. split.
  - intros now.
    assert (H : getItem V now key
                  (localStorage_removeItem V (_getPrefixedKey key) ls) =
                (None, localStorage_removeItem V (_getPrefixedKey key) ls)).
    { unfold getItem, localStorage_getItem. cbn [localStorage_removeItem entries].
      rewrite lookup_remove, String.eqb_refl. reflexivity. }
    split; [exact H|]. unfold hasItem. now rewrite H.
  - intros now key' Hne. unfold getItem, localStorage_getItem.
    cbn [localStorage_removeItem entries]. rewrite lookup_remove.
    destruct (String.eqb_spec (_getPrefixedKey key') (_getPrefixedKey key))
      as [E|_]; [apply prefixedKey_inj in E; congruence|].
    destruct (lookup V (_getPrefixedKey key') (entries ls))
      as [[| | |item]|]; try reflexivity.
    destruct (expires item =? 0); [reflexivity|].
    now destruct (now >? expires item).
Qed.

(** X19: a read that misses stays a miss.  Reading a key again in the
    storage a read left gives the same answer and changes nothing
    more; and once a read has returned [null], so does every read of
    that key at any time, until something is written. *)
Theorem getItem_repeat (now : Z) (key : string) (ls : Storage V) :
  let r := fst (getItem V now key ls) in
  let ls' := snd (getItem V now key ls) in
  getItem V now key ls' = (r, ls') /\
  (r = None -> forall t, getItem V t key ls' = (None, ls')).
Proof.
  intros r ls'. subst r ls'.
  assert (Hgone : forall t,
    getItem V t key (localStorage_removeItem V (_getPrefixedKey key) ls) =
    (None, localStorage_removeItem V (_getPrefixedKey key) ls)).
  { intros t. unfold getItem, localStorage_getItem.
    cbn [localStorage_removeItem entries].
    rewrite lookup_remove, String.eqb_refl. reflexivity. }
  destruct (getItem V now key ls) as [r ls'] eqn:G. cbn [fst snd].
  unfold getItem in G.
  destruct (localStorage_getItem V (_getPrefixedKey key) ls)
    as [[| | |item]|] eqn:E.
  - injection G as <- <-.
    split; [|intros _ t]; unfold getItem; now rewrite E.
  - injection G as <- <-. split; [|intros _ t]; apply Hgone.
  - injection G as <- <-.
    split; [|intros _ t]; unfold getItem; now rewrite E.
  - destruct (expires item =? 0) eqn:E0.
    + injection G as <- <-.
      split; [|intros _ t]; unfold getItem; now rewrite E, E0.
    + destruct (now >? expires item) eqn:Egt; injection G as <- <-.
      * split; [|intros _ t]; apply Hgone.
      * split; [|discriminate]. unfold getItem. now rewrite E, E0, Egt.
  - injection G as <- <-.
    split; [|intros _ t]; unfold getItem; now rewrite E.
Qed.

Lemma lookup_absent (k : string) (s : Stored V)
  (l : list (string * Stored V)) :
  lookup V k l = None -> ~ In (k, s) l.
Proof.
  induction l as [|[k0 s0] l IH]; simpl; [intros _ []|].
  destruct (String.eqb_spec k0 k) as [->|Hne]; [discriminate|].
  intros H [E|Hin]; [congruence | now apply IH].
Qed.

(** On a cache without stale entries the first loop of [_cleanup]
    removes nothing and collects every key with its expiry. *)
Lemma scan_filled_keys (t0 now : Z) (fuel i : nat) (ls : Storage V)
  (keys : list (string * Z)) :
  0 <= t0 -> now <= t0 + expiresAfter -> filledFrom V t0 ls ->
  _cleanup_scan V fuel i now ls keys =
  (ls,
   (keys ++
    map (fun kv => (fst kv, match expiry V (snd kv) with
                            | Some e => e
                            | None => 0
                            end))
      (firstn fuel (skipn i (entries ls))))%list).
Proof.
  intros Ht0 Hnow Hfilled. revert i keys.
  induction fuel as [|fuel IH]; intros i keys.
  - cbn [_cleanup_scan firstn map]. now rewrite app_nil_r.
  - cbn [_cleanup_scan].
    destruct (nth_error (entries ls) i) as [[key s]|] eqn:Hnth.
    + rewrite (skipn_nth_error _ _ _ Hnth). cbn [firstn map fst snd].
      destruct (Hfilled key s (nth_error_In _ _ Hnth))
        as [Hown [item [-> Hexp]]].
      rewrite Hown. cbn [expiry].
      assert (Hnz : (expires item =? 0) = false)
        by (apply Z.eqb_neq; unfold expiresAfter in *; lia).
      assert (Hfresh : (now >? expires item) = false)
        by (rewrite Z.gtb_ltb; apply Z.ltb_ge; lia).
      rewrite Hnz, Hfresh, IH, <- app_assoc. reflexivity.
    + apply nth_error_None in Hnth.
      now rewrite (skipn_all2 _ Hnth), firstn_nil, app_nil_r.
Qed.

Lemma insertByExpires_sorted (x : string * Z) (l : list (string * Z)) :
  StronglySorted (fun a b => snd a <= snd b) l ->
  StronglySorted (fun a b => snd a <= snd b) (insertByExpires x l).
Proof.
  induction l as [|y l IH]; intros Hs; cbn [insertByExpires].
  - constructor; constructor.
  - inversion Hs as [|? ? Hs' Hall]; subst.
    destruct (snd x <=? snd y) eqn:E.
    + apply Z.leb_le in E. constructor; [exact Hs|].
      constructor; [exact E|].
      apply Forall_forall. intros z Hz.
      rewrite Forall_forall in Hall. specialize (Hall z Hz). simpl in Hall. lia.
    + apply Z.leb_gt in E. constructor; [now apply IH|].
      apply Forall_forall. intros z Hz.
      apply (Permutation_in _ (Permutation_insertByExpires x l)) in Hz.
      destruct Hz as [<-|Hz]; [lia|].
      rewrite Forall_forall in Hall. now apply Hall.
Qed.

Lemma sortByExpires_sorted (l : list (string * Z)) :
  StronglySorted (fun a b => snd a <= snd b) (sortByExpires l).
Proof.
  induction l as [|x l IH]; [constructor|].
  cbn [sortByExpires fold_right]. now apply insertByExpires_sorted.
Qed.

Lemma sorted_firstn_skipn (n : nat) (l : list (string * Z)) :
  StronglySorted (fun a b => snd a <= snd b) l ->
  forall a b, In a (firstn n l) -> In b (skipn n l) -> snd a <= snd b.
Proof.
  revert l. induction n as [|n IH]; intros [|x l] Hs a b Ha Hb;
    simpl in Ha, Hb; try contradiction.
  inversion Hs as [|? ? Hs' Hall]; subst.
  destruct Ha as [<-|Ha].
  - rewrite Forall_forall in Hall. apply Hall.
    rewrite <- (firstn_skipn n l). apply in_or_app. now right.
  - now apply (IH l Hs').
Qed.

(** X20: with more than [maxCacheSize] entries the clean-up evicts the
    oldest.  On a cache without stale entries and with no key twice,
    [_cleanup] keeps [maxCacheSize] entries when there are more, and
    every entry it removes expires no later than every entry it
    keeps. *)
Theorem cleanup_evicts_oldest (t0 now : Z) (ls : Storage V) :
  0 <= t0 -> now <= t0 + expiresAfter -> filledFrom V t0 ls ->
  NoDup (map fst (entries ls)) ->
  List.length (entries (_cleanup V now ls)) =
    Nat.min (List.length (entries ls)) maxCacheSize /\
  forall k item k' item',
    In (k, SItem item) (entries ls) ->
    ~ In (k, SItem item) (entries (_cleanup V now ls)) ->
    In (k', SItem item') (entries (_cleanup V now ls)) ->
    expires item <= expires item'.
Proof.
  intros Ht0 Hnow Hfilled Hnd.
  split; [now apply (_cleanup_filled V t0 now ls Ht0 Hnow Hfilled Hnd)|].
  intros k item k' item' Hin Hout Hkept. unfold _cleanup in Hout, Hkept.
  rewrite (scan_filled_keys t0 now _ 0 ls [] Ht0 Hnow Hfilled) in Hout, Hkept.
  unfold localStorage_length in Hout, Hkept.
  cbn [app skipn] in Hout, Hkept. rewrite firstn_all in Hout, Hkept.
  set (keyExp := fun kv : string * Stored V =>
                   (fst kv, match expiry V (snd kv) with
                            | Some e => e
                            | None => 0
                            end)) in *.
  set (keys := map keyExp (entries ls)) in *.
  assert (HkeyExp : forall q it, keyExp (q, SItem it) = (q, expires it)).
  { intros q it. unfold keyExp. cbn [fst snd expiry].
    destruct (expires it =? 0) eqn:E; [|reflexivity].
    apply Z.eqb_eq in E. now rewrite E. }
  destruct (maxCacheSize <? List.length keys)%nat; [|contradiction].
  set (n := (List.length keys - maxCacheSize)%nat) in *.
  set (sorted := sortByExpires keys) in *.
  assert (Hperm : Permutation sorted keys)
    by apply Permutation_sortByExpires.
  assert (Hkey : forall q it, In (q, SItem it) (entries ls) ->
                              In (q, expires it) sorted).
  { intros q it Hq. apply (Permutation_in _ (Permutation_sym Hperm)).
    subst keys. rewrite <- HkeyExp. now apply in_map. }
  assert (Hexp : forall q e it, In (q, e) sorted ->
                                In (q, SItem it) (entries ls) ->
                                e = expires it).
  { intros q e it Hq Hit. apply (Permutation_in _ Hperm) in Hq.
    subst keys. apply in_map_iff in Hq as [[q0 s0] [Heq Hq]].
    destruct (Hfilled q0 s0 Hq) as [_ [it0 [-> _]]].
    rewrite HkeyExp in Heq. injection Heq as -> <-.
    pose proof (keys_unique _ _ _ _ Hnd Hq Hit) as E. now injection E as ->. }
  apply In_removeAll in Hkept as [Hkept Hnotdk].
  assert (Hdk : In k (map fst (firstn n sorted))).
  { destruct (in_dec string_dec k (map fst (firstn n sorted))) as [H|H];
      [exact H|].
    exfalso. apply Hout. apply In_removeAll. now split. }
  apply in_map_iff in Hdk as [[q e] [Hq Hdk]]. cbn [fst] in Hq. subst q.
  assert (He : e = expires item)
    by (apply (Hexp k e item); [now apply In_firstn in Hdk | exact Hin]).
  subst e.
  pose proof (Hkey k' item' Hkept) as Hk'.
  rewrite <- (firstn_skipn n sorted) in Hk'.
  apply in_app_or in Hk' as [Hk'|Hk'].
  - exfalso. apply Hnotdk. apply in_map_iff.
    now exists (k', expires item').
  - exact (sorted_firstn_skipn n sorted (sortByExpires_sorted keys)
             _ _ Hdk Hk').
Qed.

End Frame.

Lemma twoEntries_keys : NoDup (map fst (entries twoEntries)).
Proof.
  repeat constructor; simpl; intuition discriminate.
Qed.

(** A write of "q" does not change what is read under "a". *)
Lemma setItem_other_keys_witness :
  fst (getItem string 150 "a" twoEntries) = Some "va".
Proof.
  assert (Hne : "a" <> "q") by discriminate.
  exact (setItem_other_keys string unlimited 120 120 120 150 "q" "a" "v" "va"
           twoEntries Hne eq_refl).
Defined.

Lemma setItem_other_error_witness :
  setItem string locked 200 200 200 "q" "v" twoEntries =
  (Normal false,
   mkStorage (entries (_cleanup string 200 twoEntries)) (S (writes twoEntries))).
Proof.
  exact (proj1 (setItem_other_error string locked 200 200 200 "q" "v"
                  twoEntries (DOMException "SecurityError") eq_refl eq_refl)).
Defined.

Lemma clearExpired_exact_witness :
  entries (clearExpired string (50 + expiresAfter) twoEntries) =
  filter (fun kv => negb (stale string (50 + expiresAfter) kv))
    (entries twoEntries).
Proof.
  exact (proj1 (clearExpired_exact string (50 + expiresAfter) twoEntries
                  twoEntries_keys)).
Defined.

Lemma getStats_after_clearExpired_witness :
  expired
    (getStats string (fun _ => 0%nat) (50 + expiresAfter)
       (clearExpired string (50 + expiresAfter) twoEntries)) = 0%nat.
Proof.
  exact (proj1 (getStats_after_clearExpired string (fun _ => 0%nat)
                  (50 + expiresAfter) twoEntries twoEntries_keys)).
Defined.

Lemma manyEntries_In (n i : nat) :
  (i < n)%nat ->
  In (_getPrefixedKey (binaryKey (Pos.of_succ_nat i)),
      SItem (mkItem i (Z.of_nat i + expiresAfter) (Z.of_nat i)))
     (entries (manyEntries n)).
Proof.
  intros Hi. unfold manyEntries. cbn [entries].
  apply in_map_iff. exists i. split; [reflexivity|]. apply in_seq. lia.
Qed.

Lemma manyEntries_filled (n : nat) : filledFrom nat 0 (manyEntries n).
Proof.
  intros k s Hin. unfold manyEntries in Hin. cbn [entries] in Hin.
  apply in_map_iff in Hin as [i [Heq _]]. injection Heq as <- <-.
  split; [apply prefixedKey_own|].
  eexists. split; [reflexivity|]. cbn [expires]. lia.
Qed.

Lemma manyEntries_keys (n : nat) : NoDup (map fst (entries (manyEntries n))).
Proof.
  unfold manyEntries. cbn [entries]. rewrite map_map. cbn [fst].
  apply Injective_map_NoDup; [|apply seq_NoDup].
  intros i j E. apply prefixedKey_inj, binaryKey_inj in E.
  now apply SuccNat2Pos.inj.
Qed.

(** A cache of 1001 entries: the one stamped at time 0 is evicted, the
    one stamped at time 1 is kept. *)
Lemma cleanup_evicts_oldest_witness :
  List.length (entries (_cleanup nat 0 (manyEntries 1001))) =
    Nat.min (List.length (entries (manyEntries 1001))) maxCacheSize /\
  expires (mkItem 0%nat (Z.of_nat 0 + expiresAfter) (Z.of_nat 0)) <=
  expires (mkItem 1%nat (Z.of_nat 1 + expiresAfter) (Z.of_nat 1)).
Proof.
  assert (H0 : 0 <= 0) by lia.
  assert (Hnow : 0 <= 0 + expiresAfter) by (vm_compute; discriminate).
  assert (Hin : (0 < 1001)%nat) by lia.
  assert (Hgone :
    lookup nat (_getPrefixedKey (binaryKey (Pos.of_succ_nat 0)))
      (entries (_cleanup nat 0 (manyEntries 1001))) = None)
    by (vm_compute; reflexivity).
  assert (Hkept :
    lookup nat (_getPrefixedKey (binaryKey (Pos.of_succ_nat 1)))
      (entries (_cleanup nat 0 (manyEntries 1001))) =
    Some (SItem (mkItem 1%nat (Z.of_nat 1 + expiresAfter) (Z.of_nat 1))))
    by (vm_compute; reflexivity).
  destruct (cleanup_evicts_oldest nat 0 0 (manyEntries 1001) H0 Hnow
              (manyEntries_filled 1001) (manyEntries_keys 1001))
    as [Hlen Hord].
  split; [exact Hlen|].
  exact (Hord _ _ _ _ (manyEntries_In 1001 0 Hin)
           (lookup_absent nat _ _ _ Hgone) (lookup_In nat _ _ _ Hkept)).
Defined.

End CacheFrameFacts.

(** ** More on the resolver *)
Module ResolverMoreFacts.
Import JS APIService Conditions Samples ListFacts.

Lemma skipn_cons {A : Type} (l : list A) (h : nat) (x : A) (r : list A) :
  skipn h l = x :: r -> nth_error l h = Some x /\ skipn (S h) l = r.
Proof.
  revert l. induction h as [|h IH]; intros [|y l] H; simpl in *;
    try discriminate H.
  - injection H as -> ->. now split.
  - now apply IH.
Qed.

Lemma findBestMatch_loop_exact (resp : Hits) (t : Z) (inf : Info)
  (a : string) (post : list Hit) (pre : list Hit) :
  forall (n h : nat) (u : string) (y : Json),
    skipn h (hit resp) = (pre ++ mkHit (Some inf) :: post)%list ->
    (List.length pre < n)%nat ->
    forallb (passed t) pre = true ->
    y <> JNumber t ->
    (type inf =? "Informal Publications")%string = false ->
    firstAuthor (authors inf) = Normal a ->
    year inf = JNumber t ->
    findBestMatch_loop n h resp (Some t) u y = Normal (venuePath (url inf)).
Proof.
  induction pre as [|x pre IH]; intros n h u y Hskip Hlen Hpre Hy Hty Ha Hyear.
  - destruct n as [|n]; [simpl in Hlen; lia|].
    apply skipn_cons in Hskip as [Hnth _].
    cbn [findBestMatch_loop]. rewrite Hnth, Hty, Ha.
    rewrite Hyear.
    cbn [withinOne isTarget toNumber strictEqNumber option_map].
    replace (Z.abs (t - t) <=? 1) with true
      by (symmetry; apply Z.leb_le; lia).
    replace (strictEq (JNumber t) y) with false
      by (symmetry; apply ResolverFacts.strictEq_false; congruence).
    replace (t =? t + 1) with false by (symmetry; apply Z.eqb_neq; lia).
    replace (t =? t + 0) with true by (symmetry; apply Z.eqb_eq; lia).
    reflexivity.
  - destruct n as [|n]; [simpl in Hlen; lia|].
    cbn [app] in Hskip. apply skipn_cons in Hskip as [Hnth Hskip].
    cbn [forallb] in Hpre. apply andb_prop in Hpre as [Hx Hpre].
    cbn [List.length] in Hlen.
    assert (Hn : (List.length pre < n)%nat) by lia.
    cbn [findBestMatch_loop]. rewrite Hnth.
    destruct x as [[i|]]; [|discriminate Hx].
    unfold passed, informal in Hx. cbn [info] in Hx.
    destruct (type i =? "Informal Publications")%string;
      [now apply IH|].
    cbn [orb] in Hx.
    destruct (firstAuthor (authors i)); [|discriminate Hx].
    cbn [andb] in Hx. apply negb_true_iff in Hx.
    assert (Hi : year i <> JNumber t)
      by now apply ResolverFacts.strictEq_false.
    destruct (withinOne (Some t) (year i) && negb (strictEq (year i) y));
      [|now apply IH].
    unfold isTarget. cbn [option_map].
    assert (Hexact : strictEqNumber (year i) (Some (t + 0)) = false).
    { destruct (year i) as [yi|si]; [|reflexivity]. cbn [strictEqNumber].
      apply Z.eqb_neq. intros E. apply Hi. f_equal. lia. }
    rewrite Hexact.
    destruct (strictEqNumber (year i) (Some (t + 1))); [now apply IH|].
    destruct (u =? "")%string; now apply IH.
Qed.

(** X21: a hit whose year is the number asked for ends the search.  The
    test for the target year is strict, so it is met only by a year
    that is a number: when the first such hit that is not informal
    comes after hits the scan reads and goes past (informal ones, or
    hits with a first author whose year is another number or a
    string), [findBestMatch] returns the venue path of that hit,
    whatever follows it and whatever hits within the window came
    before.  The year asked for is other than 0, the number
    [year_last_check] starts from. *)
Theorem findBestMatch_exact_year (resp : Hits) (author target : string)
  (t : Z) (pre post : list Hit) (inf : Info) (a : string) :
  Number target = Some t ->
  t <> 0 ->
  hit resp = (pre ++ mkHit (Some inf) :: post)%list ->
  (List.length pre < sentCount resp)%nat ->
  forallb (passed t) pre = true ->
  type inf <> "Informal Publications" ->
  firstAuthor (authors inf) = Normal a ->
  year inf = JNumber t ->
  findBestMatch resp author target = Normal (venuePath (url inf)).
Proof.
  intros Hnum Ht Hhit Hsent Hpre Hty Ha Hyear.
  unfold findBestMatch. rewrite Hnum.
  apply (findBestMatch_loop_exact resp t inf a post pre); try assumption.
  - congruence.
  - now apply String.eqb_neq.
Qed.

(** A response with its years as numbers: a hit of 2021 first, then
    the hit of 2020 asked for, then another of 2020. *)
Lemma findBestMatch_exact_year_witness :
  findBestMatch
    (threeHits 2021 2020 2020 "https://dblp.org/rec/conf/p/a21"
       "https://dblp.org/rec/conf/q/b20" "https://dblp.org/rec/conf/r/c20")
    "Author" "2020" = Normal "/conf/q".
Proof.
  assert (Ht : 2020 <> 0) by discriminate.
  assert (Hsent : (1 < 3)%nat) by lia.
  assert (Hty : "Conference and Workshop Papers" <> "Informal Publications")
    by discriminate.
  exact (findBestMatch_exact_year
           (threeHits 2021 2020 2020 "https://dblp.org/rec/conf/p/a21"
              "https://dblp.org/rec/conf/q/b20"
              "https://dblp.org/rec/conf/r/c20")
           "Author" "2020" 2020
           [sampleInfo "Conference and Workshop Papers" 2021
              "https://dblp.org/rec/conf/p/a21" None]
           [sampleInfo "Conference and Workshop Papers" 2020
              "https://dblp.org/rec/conf/r/c20" None]
           (mkInfo "Conference and Workshop Papers"
              (AuthorObject (mkAuthor "A. Author")) (JNumber 2020)
              "https://dblp.org/rec/conf/q/b20" None None)
           "A. Author" eq_refl Ht eq_refl Hsent eq_refl Hty eq_refl eq_refl).
Defined.

Lemma findBestMatch_loop_candidate (resp : Hits) (target : option Z)
  (n h : nat) (u : string) (y : Json) (r : string) :
  u = "" \/ candidate target resp u ->
  findBestMatch_loop n h resp target u y = Normal r ->
  r = "" \/ candidate target resp r.
Proof.
  revert h u y.
  induction n as [|n IH]; intros h u y Hu Hrun; cbn [findBestMatch_loop] in Hrun.
  - now injection Hrun as <-.
  - destruct (nth_error (hit resp) h) as [[[inf|]]|] eqn:Hnth;
      try discriminate Hrun.
    destruct (type inf =? "Informal Publications")%string eqn:Hty;
      [now apply IH in Hrun|].
    destruct (firstAuthor (authors inf)); [|discriminate Hrun].
    destruct (withinOne target (year inf)) eqn:Hwithin; cbn [andb] in Hrun;
      [|now apply IH in Hrun].
    assert (Hhit : candidate target resp (venuePath (url inf))).
    { exists {| info := Some inf |}, inf.
      split; [exact (nth_error_In _ _ Hnth)|].
      split; [reflexivity|]. split; [exact Hty|]. now split. }
    destruct (negb (strictEq (year inf) y)); [|now apply IH in Hrun].
    destruct (isTarget target 1 (year inf));
      [apply IH in Hrun; [exact Hrun | now right]|].
    destruct (isTarget target 0 (year inf));
      [injection Hrun as <-; now right|].
    destruct (u =? "")%string;
      [apply IH in Hrun; [exact Hrun | now right] | now apply IH in Hrun].
Qed.

(** X22: [findBestMatch] only ever answers with a hit it may use.  A
    non-empty result is the venue path of a hit of the response that is
    not an informal publication and whose year is within one of the
    year asked for; in particular, when the year asked for is not a
    number the result is empty. *)
Theorem findBestMatch_sound (resp : Hits) (author target r : string) :
  findBestMatch resp author target = Normal r ->
  r <> "" ->
  candidate (Number target) resp r /\ exists t, Number target = Some t.
Proof.
  intros Hrun Hne. unfold findBestMatch in Hrun.
  apply findBestMatch_loop_candidate in Hrun; [|now left].
  destruct Hrun as [->|Hc]; [congruence|].
  split; [exact Hc|].
  destruct Hc as [x [inf [_ [_ [_ [Hw _]]]]]].
  destruct (Number target) as [t|]; [now exists t | discriminate Hw].
Qed.

Lemma findBestMatch_sound_witness :
  candidate (Number "2020")
    (threeHits 2021 2019 2021 "https://dblp.org/rec/conf/p/a21"
       "https://dblp.org/rec/conf/q/b19" "https://dblp.org/rec/conf/r/c21")
    "/conf/r".
Proof.
  assert (Hne : "/conf/r" <> "") by discriminate.
  exact (proj1 (findBestMatch_sound
                  (threeHits 2021 2019 2021 "https://dblp.org/rec/conf/p/a21"
                     "https://dblp.org/rec/conf/q/b19"
                     "https://dblp.org/rec/conf/r/c21")
                  "Author" "2020" "/conf/r" eq_refl Hne)).
Defined.

Section Replay.

Variable refuses :
  list (string * CacheService.Stored Cached) -> string ->
  CacheService.Stored Cached -> option Exn.
Variable encodeURIComponent : string -> string.
Variable version : string.

(** X23: a cached answer is replayed as it was given.  When the handler
    of a response has stored its result, a later [fetchRankFromAPI] for
    the same title and author within the lifetime of the entry sends no
    request: it takes the same arm and hands over the same record as
    the handler did, whatever year is asked for then (the year is not
    part of the cache key). *)
Theorem fetchRankFromAPI_replays (t_cleanup t_write t_retry now : Z)
  (title author target target' : string) (resp : Hits)
  (d : CCFData.CCFData) (ls : CacheService.Storage Cached) :
  let query_url := queryUrl encodeURIComponent version title author in
  let r := fetchFromDblpApi refuses t_cleanup t_write t_retry query_url resp
             author target d ls in
  forall cached,
    written r = Some cached ->
    fst (CacheService.setItem Cached refuses t_cleanup t_write t_retry
           query_url cached ls) = Normal true ->
    0 <= t_write -> 0 <= t_retry ->
    now <= Z.min t_write t_retry + CacheService.expiresAfter ->
    exists res,
      fetchRankFromAPI encodeURIComponent version now title author target' d
        (storage r) = (Replayed (branch r) res, storage r) /\
      appended r = match res with
                   | Normal e => e
                   | Throw _ => None
                   end.
Proof.
  intros query_url r cached Hw Hset Htw Htr Hnow. subst r.
  unfold fetchFromDblpApi in *.
  destruct (strictEq (total resp) (JNumber 0)); [discriminate Hw|].
  destruct (resolve resp author target) as [found|]; [|discriminate Hw].
  set (u := match CCFData.getRankByUrl found d with
            | Some entry =>
                if (CCFData.url entry =? "")%string then found
                else CCFData.url entry
            | None => found
            end) in *.
  destruct (annotate (Some u) (Some true) resp d) as [b res] eqn:Hann.
  cbn [written storage branch appended] in *.
  injection Hw as <-.
  destruct (CacheService.setItem Cached refuses t_cleanup t_write t_retry
              query_url (mkCached (Some u) resp (Some true)) ls)
    as [c ls'] eqn:Hsi.
  cbn [fst snd] in *. subst c.
  pose proof (CacheFacts.setItem_stored Cached refuses _ _ _ _ _ _ _ Hsi)
    as Hstored.
  set (t := match refuses _ _ _ with None => t_write | Some _ => t_retry end)
    in Hstored.
  assert (Ht : 0 <= t /\ Z.min t_write t_retry <= t).
  { subst t. destruct (refuses _ _ _); lia. }
  destruct (CacheFacts.getItem_stored Cached _ _ _ _ Hstored (proj1 Ht) now)
    as [Hget _].
  exists res. unfold fetchRankFromAPI. fold query_url.
  rewrite Hget by lia. unfold fetchFromCache.
  cbn [dblp_url flag APIService.resp]. rewrite Hann. now split.
Qed.

End Replay.

(** The answer for FAST 2020, asked for again with another year. *)
Lemma fetchRankFromAPI_replays_witness :
  let r := fetchFromDblpApi unlimited 0 0 0
             (queryUrl (fun s => s) "1.0" "A paper" "Author")
             preprintFirst "Author" "2020" CCFData.ccfData emptyStorage in
  exists res,
    fetchRankFromAPI (fun s => s) "1.0" 5 "A paper" "Author" "1999"
      CCFData.ccfData (storage r) = (Replayed (branch r) res, storage r) /\
    appended r = match res with
                 | Normal e => e
                 | Throw _ => None
                 end.
Proof.
  assert (H0 : 0 <= 0) by lia.
  assert (Hnow : 5 <= Z.min 0 0 + CacheService.expiresAfter)
    by (vm_compute; discriminate).
  exact (fetchRankFromAPI_replays unlimited (fun s => s) "1.0" 0 0 0 5
           "A paper" "Author" "2020" "1999" preprintFirst CCFData.ccfData
           emptyStorage _ eq_refl eq_refl H0 H0 Hnow).
Defined.

End ResolverMoreFacts.
